(** * Tangelo examples: the Hamiltonian-inspired qubit-ADAPT operator pool,
      the ADAPT growth loop and the hardware-efficient ansatz (HEA)

    The Python sources embedded here are
    - [get_pool] and the penalty-term cells of [examples/adapt.ipynb];
    - [EulerCircuit], [EntanglerCircuit], [HEACircuit] and the class [HEA]
      of the custom-ansatz VQE tutorial notebook;
    - [ladder_gates] of [examples/linq/3.noisy_simulation.ipynb].

    Numpy integer arrays are lists of [Z]; Python exceptions are an error
    monad; Python's floats and complex numbers are rationals and pairs of
    rationals (only the literals 0.0, 1.0 and 1.0j are ever built). *)

From Stdlib Require Import ZArith QArith Qabs Lia.
From stdpp Require Import base list strings gmap.

Open Scope string_scope.
Open Scope nat_scope.
Open Scope list_scope.
Open Scope stdpp_scope.

(** ** Python exceptions as an error monad *)

Inductive exn : Type :=
  | KeyError (key : string)
  | IndexError (container : string)
  | ValueError (msg : string)
  | AttributeError (attribute : string).

Inductive result (A : Type) : Type :=
  | Ok (a : A)
  | Raise (e : exn).
Arguments Ok {A} a.
Arguments Raise {A} e.

Definition bind {A B : Type} (r : result A) (k : A → result B) : result B :=
  match r with
  | Ok a => k a
  | Raise e => Raise e
  end.

Notation "'let!' x ':=' r 'in' k" := (bind r (λ x, k))
  (at level 10, x name, r at level 100, k at level 200, only parsing).

Definition from_option {A : Type} (e : exn) (o : option A) : result A :=
  match o with
  | Some a => Ok a
  | None => Raise e
  end.

(** ** Qubit operators *)

(** Complex coefficients; [1.0j] is the imaginary unit. *)
Record complex : Type := Complex { re : Q; im : Q }.

Definition j1 : complex := Complex 0 1.

(** A Pauli-string term: a tuple of (qubit index, action) pairs, with the
    action one of the strings "X", "Y", "Z". *)
Abbreviation term := (list (nat * string)).

(** Modelled from the spec: the class [QubitOperator] of
    [tangelo.toolboxes.operators] is not part of the sources at hand.  The
    spec gives it as "a mapping from Pauli-string term (sequence of
    (qubit-index, single-qubit-Pauli) pairs) to complex coefficient"; the
    mapping is a Python dict, kept here in its insertion order. *)
Record QubitOperator : Type := mkQubitOperator {
  terms : list (term * complex)
}.

(** [QubitOperator(operator_tuple, coefficient)]: an operator with this
    single term. *)
Definition QubitOperator_of (operator_tuple : term) (coefficient : complex)
  : QubitOperator :=
  {| terms := [(operator_tuple, coefficient)] |}.

(** Iterating over the dict [qubit_hamiltonian.terms] yields its keys. *)
Definition keys (op : QubitOperator) : list term := (terms op).*1.

#[global] Instance complex_eq_dec : EqDecision complex.
Proof.
  intros [a b] [c d].
  destruct (decide (Qnum a = Qnum c ∧ Qden a = Qden c
                    ∧ Qnum b = Qnum d ∧ Qden b = Qden d)) as [H|H].
  - left. destruct a, b, c, d; simpl in *. destruct H as (-> & -> & -> & ->).
    reflexivity.
  - right. intros [= -> ->]. apply H. repeat split.
Defined.

#[global] Instance QubitOperator_eq_dec : EqDecision QubitOperator.
Proof.
  intros [a] [b]. destruct (decide (a = b)) as [->|H].
  - left; reflexivity.
  - right; congruence.
Defined.

(** ** [get_pool] of examples/adapt.ipynb *)

Module Pool.

(** [pauli_lookup = {'Z':1, 'X':2, 'Y':3}] *)
Definition pauli_lookup : gmap string Z :=
  {[ "Z" := 1%Z; "X" := 2%Z; "Y" := 3%Z ]}.

(** [pauli_reverse_lookup = ['I', 'Z', 'X', 'Y']] *)
Definition pauli_reverse_lookup : list string := ["I"; "Z"; "X"; "Y"].

(** The local lists of [get_pool], together with the Hamiltonian object the
    caller handed in (the loop only ever reads it). *)
Record frame : Type := mkFrame {
  qubit_hamiltonian : QubitOperator;
  pool_generators : list QubitOperator;
  pool_tuples : list term;
  indices : list (list bool)
}.

(** The inner loop
    [for index, action in term:
         if pauli_lookup[action] > 1: pauli_string[index] = pauli_lookup[action]].
    A missing key raises [KeyError]; a write past the end of the numpy array
    raises [IndexError]. *)
Fixpoint identify_xy (t : term) (pauli_string : list Z) : result (list Z) :=
  match t with
  | [] => Ok pauli_string
  | (index, action) :: t' =>
      let! v := from_option (KeyError action) (pauli_lookup !! action) in
      if (1 <? v)%Z then
        if decide (index < length pauli_string)
        then identify_xy t' (<[index := v]> pauli_string)
        else Raise (IndexError "pauli_string")
      else identify_xy t' pauli_string
  end.

(** [tuple(pauli_string > 1)] *)
Definition action_mask_of (pauli_string : list Z) : list bool :=
  (λ v, (1 <? v)%Z) <$> pauli_string.

(** Python's builtin [sum] over the array. *)
Definition sum (pauli_string : list Z) : Z := foldl Z.add 0%Z pauli_string.

(** [np.where(pauli_string > 1)[0][0]]: the first index whose entry exceeds
    1; indexing the empty result raises [IndexError]. *)
Definition where_first (pauli_string : list Z) : result nat :=
  from_option (IndexError "where")
    (fst <$> list_find (λ v, (1 < v)%Z) pauli_string).

(** [pauli_string[flip_index] += (-1)**(pauli_string[flip_index] % 2)] *)
Definition flip_at (flip_index : nat) (pauli_string : list Z) : result (list Z) :=
  let! v := from_option (IndexError "pauli_string") (pauli_string !! flip_index) in
  Ok (<[flip_index := (v + (-1) ^ (v mod 2))%Z]> pauli_string).

(** [[(index, pauli_reverse_lookup[pauli])
      for index, pauli in enumerate(pauli_string) if pauli > 0]],
    with the enumeration starting at [start]. *)
Fixpoint operator_tuple_from (start : nat) (pauli_string : list Z) : result term :=
  match pauli_string with
  | [] => Ok []
  | pauli :: rest =>
      if (0 <? pauli)%Z then
        let! a := from_option (IndexError "pauli_reverse_lookup")
              (pauli_reverse_lookup !! Z.to_nat pauli) in
        let! tl := operator_tuple_from (S start) rest in
        Ok ((start, a) :: tl)
      else operator_tuple_from (S start) rest
  end.

(** One pass of the body of [for term in qubit_hamiltonian.terms]. *)
Definition get_pool_step (n_qubits : nat) (fr : frame) (t : term) : result frame :=
  let! pauli_string := identify_xy t (replicate n_qubits 0%Z) in
  let action_mask := action_mask_of pauli_string in
  if decide (action_mask ∈ indices fr) then Ok fr
  else if decide ((sum pauli_string mod 2 = 0)%Z ∧ (sum pauli_string > 0)%Z) then
    let! flip_index := where_first pauli_string in
    let! pauli_string := flip_at flip_index pauli_string in
    let! operator_tuple := operator_tuple_from 0 pauli_string in
    Ok {| qubit_hamiltonian := qubit_hamiltonian fr;
          pool_generators := pool_generators fr ++ [QubitOperator_of operator_tuple j1];
          pool_tuples := pool_tuples fr ++ [operator_tuple];
          indices := indices fr ++ [action_mask] |}
  else Ok fr.

Fixpoint get_pool_loop (n_qubits : nat) (ts : list term) (fr : frame) : result frame :=
  match ts with
  | [] => Ok fr
  | t :: ts' =>
      let! fr' := get_pool_step n_qubits fr t in
      get_pool_loop n_qubits ts' fr'
  end.

(** The frame on entry: three empty lists. *)
Definition entry (H : QubitOperator) : frame :=
  {| qubit_hamiltonian := H; pool_generators := []; pool_tuples := []; indices := [] |}.

(** The whole call, returning the final frame. *)
Definition get_pool_run (H : QubitOperator) (n_qubits : nat) : result frame :=
  get_pool_loop n_qubits (keys (qubit_hamiltonian (entry H))) (entry H).

(** [get_pool(qubit_hamiltonian, n_qubits)] *)
Definition get_pool (H : QubitOperator) (n_qubits : nat) : result (list QubitOperator) :=
  let! fr := get_pool_run H n_qubits in
  Ok (pool_generators fr).

End Pool.

(** The example of the notebook: one excitation and its conjugate. *)
Definition notebook_operator : QubitOperator :=
  {| terms :=
       [ ([(0, "X"); (1, "X"); (2, "Y"); (3, "Y")], Complex (-1) 0);
         ([(0, "X"); (1, "Y"); (2, "Y"); (3, "X")], Complex 1 0);
         ([(0, "Y"); (1, "X"); (2, "X"); (3, "Y")], Complex 1 0);
         ([(0, "Y"); (1, "Y"); (2, "X"); (3, "X")], Complex (-1) 0) ] |}.

(** ** Vocabulary of the claims about [get_pool] *)

Module PoolSpec.

(** A factor is an X/Y factor when its action is "X" or "Y". *)
Definition is_xy (f : nat * string) : Prop := f.2 = "X" ∨ f.2 = "Y".

#[global] Instance is_xy_dec f : Decision (is_xy f).
Proof. unfold is_xy. apply _. Defined.

(** The term with its Z factors discarded. *)
Definition xy_factors (t : term) : term := filter is_xy t.

(** The qubits a term acts on with X or Y, in the order of the term. *)
Definition xy_support (t : term) : list nat := (xy_factors t).*1.

Definition count_Y (t : term) : nat := length (filter (λ f, f.2 = "Y") t).

Definition has_xy (t : term) : Prop := xy_factors t ≠ [].

(** X becomes Y and Y becomes X. *)
Definition flip (action : string) : string :=
  if decide (action = "X") then "Y"
  else if decide (action = "Y") then "X"
  else action.

(** The first factor of a term flipped, the others kept. *)
Definition flip_first (t : term) : term :=
  match t with
  | [] => []
  | (index, action) :: rest => (index, flip action) :: rest
  end.

(** The generator the claims describe for a term: Z factors dropped, first
    X/Y factor flipped, coefficient 1.0j. *)
Definition spec_generator (t : term) : QubitOperator :=
  QubitOperator_of (flip_first (xy_factors t)) j1.

(** The set of qubits a term acts on with X or Y: its qubit-support
    pattern, the set its action mask marks. *)
Definition xy_qubits (t : term) : gset nat := list_to_set (xy_support t).

(** The set of qubits a pool generator acts on. *)
Definition generator_qubits (g : QubitOperator) : gset nat :=
  list_to_set (concat ((λ tc, (tc.1).*1) <$> terms g)).

(** The distinct qubit-support patterns among the terms of a Hamiltonian. *)
Definition support_patterns (H : QubitOperator) : gset (gset nat) :=
  list_to_set (xy_qubits <$> keys H).

(** Invariant of [QubitOperator] keys: factors sorted by strictly increasing
    qubit index (so each qubit at most once), actions among X, Y, Z. *)
Fixpoint ascending_from (k : nat) (t : term) : Prop :=
  match t with
  | [] => True
  | (index, _) :: rest => k ≤ index ∧ ascending_from (S index) rest
  end.

Definition wf_term (t : term) : Prop :=
  ascending_from 0 t ∧ Forall (λ f, f.2 = "X" ∨ f.2 = "Y" ∨ f.2 = "Z") t.

Definition wf_operator (H : QubitOperator) : Prop := Forall wf_term (keys H).

(** [n_qubits] covers a term when every X/Y factor sits on a qubit below it
    (the docstring: "number of qubits for Hamiltonian"). *)
Definition covers (n_qubits : nat) (t : term) : Prop :=
  Forall (λ f, is_xy f → f.1 < n_qubits) t.

Definition covers_operator (n_qubits : nat) (H : QubitOperator) : Prop :=
  Forall (covers n_qubits) (keys H).

(** The term [t], met by the loop after the terms [before], appends the
    generator [g] to the pool. *)
Definition produces (n_qubits : nat) (H : QubitOperator)
    (before : list term) (t : term) (g : QubitOperator) : Prop :=
  ∃ fr fr',
    Pool.get_pool_loop n_qubits before (Pool.entry H) = Ok fr
    ∧ Pool.get_pool_step n_qubits fr t = Ok fr'
    ∧ Pool.pool_generators fr' = Pool.pool_generators fr ++ [g].

(** The term [t] of the Hamiltonian [H] becomes the pool entry [g]. *)
Definition becomes_entry (n_qubits : nat) (H : QubitOperator)
    (t : term) (g : QubitOperator) : Prop :=
  ∃ before after pool,
    keys H = before ++ t :: after
    ∧ produces n_qubits H before t g
    ∧ Pool.get_pool H n_qubits = Ok pool
    ∧ g ∈ pool.

End PoolSpec.

(** ** Auxiliary definitions for the proofs about [get_pool] *)

Module PoolAux.
Import Pool PoolSpec.

(** The positive entries of the array with their positions. *)
Fixpoint nz_from (start : nat) (ps : list Z) : list (nat * Z) :=
  match ps with
  | [] => []
  | v :: rest =>
      if (0 <? v)%Z then (start, v) :: nz_from (S start) rest
      else nz_from (S start) rest
  end.

(** The positions a mask marks. *)
Fixpoint support_of_mask (start : nat) (m : list bool) : list nat :=
  match m with
  | [] => []
  | b :: rest =>
      if b then start :: support_of_mask (S start) rest
      else support_of_mask (S start) rest
  end.

(** Entries an array of [get_pool] can hold: 0, 2 (X) or 3 (Y). *)
Definition xy_entry (v : Z) : Prop := v = 0%Z ∨ v = 2%Z ∨ v = 3%Z.

Definition code (action : string) : Z := default 0%Z (pauli_lookup !! action).

Definition coded (t : term) : list (nat * Z) := prod_map id code <$> t.

Definition decode (f : nat * Z) : nat * string :=
  (f.1, default "I" (pauli_reverse_lookup !! Z.to_nat f.2)).

(** The frame after a term has been accepted with mask [m]. *)
Definition accept (fr : frame) (t : term) (m : list bool) : frame :=
  {| qubit_hamiltonian := qubit_hamiltonian fr;
     pool_generators := pool_generators fr ++ [spec_generator t];
     pool_tuples := pool_tuples fr ++ [flip_first (xy_factors t)];
     indices := indices fr ++ [m] |}.

(** [m] is the action mask of [t] over [n_qubits] qubits. *)
Definition mask_for (n_qubits : nat) (t : term) (m : list bool) : Prop :=
  length m = n_qubits ∧ support_of_mask 0 m = xy_support t.

(** What the frame holds once the terms [seen] have been processed: the
    pool is the list of generators of the accepted terms [acc], [indices]
    the list of their masks, without repetition. *)
Definition loop_invariant (n_qubits : nat) (H : QubitOperator)
    (seen : list term) (fr : frame) : Prop :=
  ∃ acc,
    pool_generators fr = spec_generator <$> acc
    ∧ pool_tuples fr = (λ t, flip_first (xy_factors t)) <$> acc
    ∧ Forall2 (mask_for n_qubits) acc (indices fr)
    ∧ NoDup (indices fr)
    ∧ Forall (λ t, t ∈ seen ∧ Nat.Even (count_Y t) ∧ has_xy t) acc
    ∧ qubit_hamiltonian fr = H.

(** The frame with another Hamiltonian object in its first slot. *)
Definition rebase (H' : QubitOperator) (fr : frame) : frame :=
  {| qubit_hamiltonian := H';
     pool_generators := pool_generators fr;
     pool_tuples := pool_tuples fr;
     indices := indices fr |}.

End PoolAux.

(** ** Concrete Hamiltonians *)

Section PoolExamples.
Import Pool PoolSpec PoolAux.

Definition t_XXYY : term := [(0, "X"); (1, "X"); (2, "Y"); (3, "Y")].
Definition g_YXYY : QubitOperator :=
  QubitOperator_of [(0, "Y"); (1, "X"); (2, "Y"); (3, "Y")] j1.

(** Scenario A of the spec: two qubits, a single term with one Y. *)
Definition scenario_A : QubitOperator :=
  {| terms := [([(0, "X"); (1, "Y")], Complex 1 0)] |}.

(** The notebook Hamiltonian with other coefficients. *)
Definition notebook_operator_halved : QubitOperator :=
  {| terms := (λ tc, (tc.1, Complex (1 # 2) 0)) <$> terms notebook_operator |}.

(** Three terms on the same two qubits: XX, then XY, then YY. *)
Definition t_XX : term := [(0, "X"); (1, "X")].
Definition t_XY : term := [(0, "X"); (1, "Y")].
Definition t_YY : term := [(0, "Y"); (1, "Y")].

Definition H_XX_XY_YY : QubitOperator :=
  {| terms := [(t_XX, Complex 1 0); (t_XY, Complex 1 0); (t_YY, Complex 1 0)] |}.

End PoolExamples.

(** ** The hardware-efficient ansatz of the custom-ansatz tutorial *)

Module Hea.

(** Modelled from the spec: the classes [Gate] and [Circuit] of
    [tangelo.linq] are missing from the sources, and the spec leaves the
    circuit builder a black box.  The model keeps what the notebook relies
    on: a gate has a name, a target, an optional control, an optional
    parameter and the flag [is_variational]; a circuit is the list of its
    gates, [+] concatenates, [size] counts the gates, and
    [_variational_gates] "keeps a record of the variational gates in the
    circuit": references to the flagged gates, in circuit order.  A
    reference to a gate is its position in the circuit. *)
Record Gate : Type := mkGate {
  name : string;
  target : nat;
  control : option nat;
  parameter : option Q;
  is_variational : bool
}.

Abbreviation Circuit := (list Gate).

Definition add_gate (circuit : Circuit) (g : Gate) : Circuit := circuit ++ [g].

Definition size (circuit : Circuit) : nat := length circuit.

Fixpoint variational_from (start : nat) (circuit : Circuit) : list nat :=
  match circuit with
  | [] => []
  | g :: rest =>
      if is_variational g then start :: variational_from (S start) rest
      else variational_from (S start) rest
  end.

Definition _variational_gates (circuit : Circuit) : list nat :=
  variational_from 0 circuit.

Definition set_parameter (v : Q) (g : Gate) : Gate :=
  {| name := name g; target := target g; control := control g;
     parameter := Some v; is_variational := is_variational g |}.

(** [Gate("RZ", target, parameter=0.0, is_variational=True)] and the like. *)
Definition rotation (gate_name : string) (tgt : nat) : Gate :=
  {| name := gate_name; target := tgt; control := None;
     parameter := Some 0%Q; is_variational := true |}.

(** [Gate("CNOT", control=c, target=t)] *)
Definition CNOT (ctl tgt : nat) : Gate :=
  {| name := "CNOT"; target := tgt; control := Some ctl;
     parameter := None; is_variational := false |}.

(** [for x in range(n): body], on a loop state. *)
Definition for_range {S : Type} (n : nat) (body : S → nat → S) (init : S) : S :=
  foldl body init (seq 0 n).

Definition EulerCircuit (n_qubits : nat) : Circuit :=
  for_range n_qubits
    (λ circuit tgt,
       add_gate (add_gate (add_gate circuit (rotation "RZ" tgt))
                   (rotation "RX" tgt))
         (rotation "RZ" tgt))
    [].

Definition EntanglerCircuit (n_qubits : nat) : Circuit :=
  let circuit :=
    for_range (n_qubits / 2)
      (λ circuit ii, add_gate circuit (CNOT (2 * ii) (2 * ii + 1))) [] in
  for_range (n_qubits / 2 - 1)
    (λ circuit ii, add_gate circuit (CNOT (2 * ii + 1) (2 * (ii + 1)))) circuit.

Definition HEACircuit (n_qubits n_layers : nat) : Circuit :=
  for_range n_layers
    (λ circuit _, (circuit ++ EntanglerCircuit n_qubits) ++ EulerCircuit n_qubits)
    (EulerCircuit n_qubits).

(** What [set_var_params] may be handed: [None], a string, or a sequence of
    numbers (a list or a numpy array). *)
Inductive pyval : Type :=
  | PyNone
  | PyStr (s : string)
  | PySeq (l : list Q).

(** [len(v)] where it is defined. *)
Definition py_len (v : pyval) : option nat :=
  match v with
  | PyNone => None
  | PyStr s => Some (String.length s)
  | PySeq l => Some (length l)
  end.

(** [v == "ones"]; a sequence compared with a string is not equal to it (the
    notebook's numpy answers the scalar [False], with a warning). *)
Definition eq_ones (v : pyval) : bool :=
  match v with
  | PyStr s => bool_decide (s = "ones")
  | _ => false
  end.

(** The state of numpy's generator: the stream of numbers still to come. *)
Definition rng : Type := nat → Q.

(** [np.random.random(n)] *)
Definition random_random (n : nat) (s : rng) : list Q * rng :=
  (s <$> seq 0 n, λ i, s (n + i)).

(** [np.ones(n, dtype=float)] *)
Definition ones (n : nat) : list Q := replicate n 1%Q.

(** The attributes of an [HEA] object. *)
Record HEA : Type := mkHEA {
  n_spinorbitals : nat;
  n_qubits : nat;
  n_electrons : nat;
  n_layers : nat;
  mapping : string;
  n_var_params : nat;
  var_params : option pyval;
  circuit : option Circuit
}.

Definition with_var_params (self : HEA) (v : pyval) : HEA :=
  {| n_spinorbitals := n_spinorbitals self; n_qubits := n_qubits self;
     n_electrons := n_electrons self; n_layers := n_layers self;
     mapping := mapping self; n_var_params := n_var_params self;
     var_params := Some v; circuit := circuit self |}.

Definition with_circuit (self : HEA) (c : Circuit) : HEA :=
  {| n_spinorbitals := n_spinorbitals self; n_qubits := n_qubits self;
     n_electrons := n_electrons self; n_layers := n_layers self;
     mapping := mapping self; n_var_params := n_var_params self;
     var_params := var_params self; circuit := Some c |}.

(** A method call: the object and the generator after it, and what the call
    returned or raised. *)
Definition outcome (A : Type) : Type := HEA * rng * result A.

(** [HEA.set_var_params] *)
Definition set_var_params (self : HEA) (s : rng) (v : pyval) : outcome pyval :=
  match v with
  | PyNone =>
      let '(r, s') := random_random (n_var_params self) s in
      (with_var_params self (PySeq r), s', Ok (PySeq r))
  | _ =>
      if eq_ones v then
        let r := PySeq (ones (n_var_params self)) in
        (with_var_params self r, s, Ok r)
      else if decide (py_len v ≠ Some (n_var_params self)) then
        (self, s, Raise (ValueError "Invalid number of parameters."))
      else (with_var_params self v, s, Ok v)
  end.

(** [self.circuit._variational_gates[param_index].parameter = value] *)
Definition assign_parameter (c : Circuit) (param_index : nat) (value : Q)
  : result Circuit :=
  let! position := from_option (IndexError "_variational_gates")
                     (_variational_gates c !! param_index) in
  Ok (alter (set_parameter value) position c).

(** One pass of the loop of [update_var_params]; the right-hand side of the
    assignment is evaluated first. *)
Definition update_step (new_params : list Q) (self : HEA) (param_index : nat)
  : result HEA :=
  let! value := from_option (IndexError "var_params") (new_params !! param_index) in
  let! c := from_option (AttributeError "_variational_gates") (circuit self) in
  let! c' := assign_parameter c param_index value in
  Ok (with_circuit self c').

(** [HEA.update_var_params]: the loop stops at the first exception, the
    object keeping the assignments made so far. *)
Fixpoint update_loop (new_params : list Q) (indices : list nat) (self : HEA)
  : HEA * result unit :=
  match indices with
  | [] => (self, Ok tt)
  | param_index :: rest =>
      match update_step new_params self param_index with
      | Ok self' => update_loop new_params rest self'
      | Raise e => (self, Raise e)
      end
  end.

Definition update_var_params (self : HEA) (new_params : list Q) : HEA * result unit :=
  update_loop new_params (seq 0 (n_var_params self)) self.

Section Collaborators.

(** The two functions of [tangelo.toolboxes.qubit_mappings] the class
    calls. *)
Variable get_qubit_number : string → nat → nat.
Variable get_reference_circuit : nat → nat → string → Circuit.

(** [HEA.__init__] *)
Definition init (n_spinorbitals n_electrons n_layers : nat) (mapping : string) : HEA :=
  let n_qubits := get_qubit_number mapping n_spinorbitals in
  {| n_spinorbitals := n_spinorbitals;
     n_qubits := n_qubits;
     n_electrons := n_electrons;
     n_layers := n_layers;
     mapping := mapping;
     n_var_params := n_qubits * 3 * (n_layers + 1);
     var_params := None;
     circuit := None |}.

(** [HEA.prepare_reference_state] *)
Definition prepare_reference_state (self : HEA) : Circuit :=
  get_reference_circuit (n_spinorbitals self) (n_electrons self) (mapping self).

(** [HEA.build_circuit] *)
Definition build_circuit (self : HEA) (s : rng) (v : pyval) : outcome Circuit :=
  match set_var_params self s v with
  | (self, s, Raise e) => (self, s, Raise e)
  | (self, s, Ok r) =>
      let self := with_var_params self r in
      let reference_state_circuit := prepare_reference_state self in
      let hea_circuit := HEACircuit (n_qubits self) (n_layers self) in
      let c :=
        if decide (size reference_state_circuit ≠ 0)
        then reference_state_circuit ++ hea_circuit
        else hea_circuit in
      (with_circuit self c, s, Ok c)
  end.

End Collaborators.

(** Vocabulary of the claims about [HEA]. *)

(** The variational gates of a circuit, by value. *)
Definition variational (c : Circuit) : Circuit :=
  filter (λ g, is_variational g = true) c.

(** The circuit with the parameters of its variational gates set, in circuit
    order, to the values [vs] (as far as they reach). *)
Fixpoint assign (c : Circuit) (vs : list Q) : Circuit :=
  match c with
  | [] => []
  | g :: rest =>
      if is_variational g then
        match vs with
        | [] => g :: rest
        | v :: vs' => set_parameter v g :: assign rest vs'
        end
      else g :: assign rest vs
  end.

End Hea.

(** ** A concrete ansatz: Jordan-Wigner, two spin orbitals, one electron *)

Section HeaExamples.
Import Hea.

Definition jw_qubit_number (mapping : string) (n_spinorbitals : nat) : nat :=
  n_spinorbitals.

Definition x_reference_circuit (n_spinorbitals n_electrons : nat) (mapping : string)
  : Circuit :=
  (λ tgt, {| name := "X"; target := tgt; control := None; parameter := None;
             is_variational := false |}) <$> seq 0 n_electrons.

Definition demo_ansatz : HEA := init jw_qubit_number 2 1 1 "jw".

Definition zero_stream : rng := λ _, 0%Q.

End HeaExamples.

(** ** The ADAPT controller *)

Module Adapt.

(** The ansatz: generators with their parameters, in the order of growth. *)
Abbreviation ansatz := (list (QubitOperator * Q)).

Inductive phase : Type := INIT | RANKING | OPTIMIZING | CONVERGED | EXHAUSTED.

#[global] Instance phase_eq_dec : EqDecision phase.
Proof. solve_decision. Defined.

Section Controller.

(** The working Hamiltonian, and what the pool function is called with. *)
Context {Ham PoolArgs : Type}.

(** ExpectationEvaluator: the energy gradient of appending a generator to
    the ansatz with parameter zero. *)
Variable gradient : Ham → ansatz → QubitOperator → Q.

(** VQEOptimizer: the optimal parameters and the minimised energy. *)
Variable optimize : Ham → ansatz → list Q * Q.

(** Modelled from the spec: the options of [ADAPTSolver], a class of
    [tangelo.algorithms] missing from the sources (spec, "Configuration
    surface": Hamiltonian source, gradient tolerance, maximum cycle count,
    operator-pool selector function and its arguments, verbosity flag). *)
Record options : Type := mkOptions {
  opt_qubit_hamiltonian : Ham;
  opt_pool : PoolArgs → result (list QubitOperator);
  opt_pool_args : PoolArgs;
  opt_tol : Q;
  opt_max_cycles : nat;
  opt_verbose : bool
}.

(** Modelled from the spec: the state of the ADAPTController (sections 3
    and 4.3): the pool, the ansatz, the energy history, the growth log of
    (ansatz size, gradient magnitude, energy) triples, and the gradient
    magnitude of the generator being optimised. *)
Record controller : Type := mkController {
  state : phase;
  pool : list QubitOperator;
  the_ansatz : ansatz;
  energies : list Q;
  growth_log : list (nat * Q * Q);
  last_gradient : Q
}.

Definition init : controller :=
  {| state := INIT; pool := []; the_ansatz := []; energies := [];
     growth_log := []; last_gradient := 0%Q |}.

Definition with_state (c : controller) (p : phase) : controller :=
  {| state := p; pool := pool c; the_ansatz := the_ansatz c;
     energies := energies c; growth_log := growth_log c;
     last_gradient := last_gradient c |}.

(** Modelled from the spec: GradientRanker (section 4.2): the pool index of
    maximal gradient magnitude, the first such index under ties; nothing
    for an empty pool. *)
Fixpoint rank_from (H : Ham) (psi : ansatz) (index : nat)
    (candidates : list QubitOperator) (best : option (nat * QubitOperator * Q))
  : option (nat * QubitOperator * Q) :=
  match candidates with
  | [] => best
  | P :: rest =>
      let g := Qabs (gradient H psi P) in
      let best' :=
        match best with
        | None => Some (index, P, g)
        | Some (_, _, g_best) =>
            if Qlt_le_dec g_best g then Some (index, P, g) else best
        end in
      rank_from H psi (S index) rest best'
  end.

Definition rank (H : Ham) (psi : ansatz) (candidates : list QubitOperator)
  : option (nat * QubitOperator * Q) :=
  rank_from H psi 0 candidates None.

(** The optimiser "reassigns all parameter values in place". *)
Definition reassign (psi : ansatz) (params : list Q) : ansatz :=
  imap (λ i '(P, theta), (P, default theta (params !! i))) psi.

(** Modelled from the spec: one transition of the state machine of
    section 4.3.  Building the pool is the only step that can fail (a
    configuration error, "reported immediately and fatally before the loop
    starts"); an empty pool leaves nothing to rank and is "treated as
    immediate convergence". *)
Definition step (o : options) (c : controller) : result controller :=
  match state c with
  | INIT =>
      let! generators := opt_pool o (opt_pool_args o) in
      Ok {| state := RANKING; pool := generators; the_ansatz := [];
            energies := []; growth_log := []; last_gradient := 0%Q |}
  | RANKING =>
      match rank (opt_qubit_hamiltonian o) (the_ansatz c) (pool c) with
      | None => Ok (with_state c CONVERGED)
      | Some (_, P, g) =>
          if Qlt_le_dec g (opt_tol o) then Ok (with_state c CONVERGED)
          else if decide (opt_max_cycles o ≤ length (the_ansatz c))
          then Ok (with_state c EXHAUSTED)
          else Ok {| state := OPTIMIZING; pool := pool c;
                     the_ansatz := the_ansatz c ++ [(P, 0%Q)];
                     energies := energies c; growth_log := growth_log c;
                     last_gradient := g |}
      end
  | OPTIMIZING =>
      let '(params, energy) := optimize (opt_qubit_hamiltonian o) (the_ansatz c) in
      Ok {| state := RANKING; pool := pool c;
            the_ansatz := reassign (the_ansatz c) params;
            energies := energies c ++ [energy];
            growth_log := growth_log c
                          ++ [(length (the_ansatz c), last_gradient c, energy)];
            last_gradient := last_gradient c |}
  | CONVERGED | EXHAUSTED => Ok c
  end.

Definition terminal (c : controller) : bool :=
  match state c with
  | CONVERGED | EXHAUSTED => true
  | _ => false
  end.

(** The loop, with a bound on the number of transitions: [None] when the
    bound is hit before a terminal state. *)
Fixpoint run (fuel : nat) (o : options) (c : controller)
  : result (option controller) :=
  if terminal c then Ok (Some c)
  else match fuel with
       | 0 => Ok None
       | S fuel' => let! c' := step o c in run fuel' o c'
       end.

(** [ADAPTSolver(options).build()] followed by [simulate()]. *)
Definition solve (o : options) : result (option controller) :=
  run (2 * opt_max_cycles o + 2) o init.

(** The loop makes [k] transitions from [c] to [c'], each of them the
    [step] of a state that is not terminal. *)
Inductive steps (o : options) : nat → controller → controller → Prop :=
  | steps_refl c : steps o 0 c c
  | steps_cons k c c1 c' :
      terminal c = false → step o c = Ok c1 → steps o k c1 c' →
      steps o (S k) c c'.

(** On the present ansatz every generator of the pool has a gradient
    magnitude below the tolerance. *)
Definition below_tolerance (o : options) (c : controller) : Prop :=
  ∀ P, P ∈ pool c →
    (Qabs (gradient (opt_qubit_hamiltonian o) (the_ansatz c) P) < opt_tol o)%Q.

(** An energy the optimiser has returned for the working Hamiltonian. *)
Definition optimised_energy (o : options) (energy : Q) : Prop :=
  ∃ psi, energy = (optimize (opt_qubit_hamiltonian o) psi).2.

End Controller.

End Adapt.

(** ** The penalty-term cells of examples/adapt.ipynb *)

Module Penalty.
Import Adapt.

(** What the cells read from the molecule object. *)
Record molecule : Type := mkMolecule {
  n_active_mos : nat;
  n_active_sos : nat;
  n_electrons : nat;
  n_active_electrons : nat
}.

(** The names the notebook has bound when the penalty cell starts. *)
Record namespace : Type := mkNamespace {
  mol : molecule;
  qubit_operator : QubitOperator;
  n_qubits : nat;
  exact : Q;
  exact_s2 : Q;
  exact_sz : Q;
  exact_n : Q
}.

Section Cells.

(** The library functions the cells call, none of them among the sources:
    [qubitop_to_qubitham], [combined_penalty], [fermion_to_qubit_mapping],
    the [+] of [QubitHamiltonian], its [terms], and the evaluator behind
    [vqe_solver.operator_expectation]. *)
Context {QubitHamiltonian FermionOperator : Type}.
Variable qubitop_to_qubitham : QubitOperator → string → bool → QubitHamiltonian.
Variable combined_penalty : nat → list (string * (Q * Q)) → FermionOperator.
Variable fermion_to_qubit_mapping :
  FermionOperator → string → nat → nat → QubitOperator.
Variable qubitham_add : QubitHamiltonian → QubitHamiltonian → QubitHamiltonian.
Variable qubitham_terms : QubitHamiltonian → QubitOperator.
Variable gradient : QubitHamiltonian → ansatz → QubitOperator → Q.
Variable optimize : QubitHamiltonian → ansatz → list Q * Q.
Variable operator_expectation : ansatz → QubitOperator → Q.

(** The [pool_args] dict: the keyword arguments of [get_pool]. *)
Record pool_args : Type := mkPoolArgs {
  arg_qubit_hamiltonian : QubitHamiltonian;
  arg_n_qubits : nat
}.

(** [get_pool] called with the keyword arguments [pool_args]. *)
Definition call_get_pool (args : pool_args) : result (list QubitOperator) :=
  Pool.get_pool (qubitham_terms (arg_qubit_hamiltonian args)) (arg_n_qubits args).

(** The names bound once the penalty cell has run: those it found, and
    those it assigned. *)
Record penalty_namespace : Type := mkPenaltyNamespace {
  found : namespace;
  penalty_weight : Q;
  dict_penalty_terms : list (string * (Q * Q));
  qubit_hamiltonian : QubitHamiltonian;
  pen_fermion_operator : FermionOperator;
  pen_qubit_operator : QubitOperator;
  pen_qubit_hamiltonian : QubitHamiltonian;
  qubit_hamiltonian_with_pen : QubitHamiltonian;
  opt_dict : options (Ham := QubitHamiltonian) (PoolArgs := pool_args);
  adapt_solver_with_pen : result (option controller)
}.

(** The cell that builds the penalised Hamiltonian and runs ADAPT on it. *)
Definition penalty_cell (ns : namespace) : penalty_namespace :=
  let penalty_weight := (1 # 2)%Q in
  let dict_penalty_terms :=
    [("N", (penalty_weight, exact_n ns));
     ("Sz", (penalty_weight, exact_sz ns));
     ("S^2", (penalty_weight, exact_s2 ns))] in
  let qubit_hamiltonian := qubitop_to_qubitham (qubit_operator ns) "jw" false in
  let pen_fermion_operator :=
    combined_penalty (n_active_mos (mol ns)) dict_penalty_terms in
  let pen_qubit_operator :=
    fermion_to_qubit_mapping pen_fermion_operator "jw"
      (n_active_sos (mol ns)) (n_electrons (mol ns)) in
  let pen_qubit_hamiltonian := qubitop_to_qubitham pen_qubit_operator "jw" false in
  let qubit_hamiltonian_with_pen :=
    qubitham_add qubit_hamiltonian pen_qubit_hamiltonian in
  let opt_dict :=
    {| opt_qubit_hamiltonian := qubit_hamiltonian_with_pen;
       opt_pool := call_get_pool;
       opt_pool_args :=
         {| arg_qubit_hamiltonian := qubit_hamiltonian_with_pen;
            arg_n_qubits := n_qubits ns |};
       opt_tol := (1 # 100)%Q;
       opt_max_cycles := 12;
       opt_verbose := false |} in
  {| found := ns;
     penalty_weight := penalty_weight;
     dict_penalty_terms := dict_penalty_terms;
     qubit_hamiltonian := qubit_hamiltonian;
     pen_fermion_operator := pen_fermion_operator;
     pen_qubit_operator := pen_qubit_operator;
     pen_qubit_hamiltonian := pen_qubit_hamiltonian;
     qubit_hamiltonian_with_pen := qubit_hamiltonian_with_pen;
     opt_dict := opt_dict;
     adapt_solver_with_pen := solve gradient optimize opt_dict |}.

(** The first line the next cell prints:
    [operator_expectation(qubit_operator) - exact], on the final ansatz. *)
Definition reported_error (pns : penalty_namespace) : option Q :=
  match adapt_solver_with_pen pns with
  | Ok (Some c) =>
      Some (operator_expectation (the_ansatz c) (qubit_operator (found pns))
            - exact (found pns))%Q
  | _ => None
  end.

End Cells.

End Penalty.

(** ** Constant collaborators, for concrete runs *)

Module Demo.
Import Adapt Penalty.

(** A pool function that always offers the one generator YXYY. *)
Definition one_generator (_ : unit) : result (list QubitOperator) :=
  Ok [QubitOperator_of [(0, "Y"); (1, "X"); (2, "Y"); (3, "Y")] j1].

(** Every gradient is 1: the tolerance is never met. *)
Definition steep (_ : unit) (_ : ansatz) (_ : QubitOperator) : Q := 1%Q.

(** Every gradient is 0: the first ranking converges. *)
Definition flat (_ : QubitOperator) (_ : ansatz) (_ : QubitOperator) : Q := 0%Q.

(** An optimiser that keeps the parameters and reports energy 0. *)
Definition keep {Ham : Type} (_ : Ham) (psi : ansatz) : list Q * Q := (psi.*2, 0%Q).

Definition two_cycles : options (Ham := unit) (PoolArgs := unit) :=
  {| opt_qubit_hamiltonian := tt; opt_pool := one_generator; opt_pool_args := tt;
     opt_tol := (1 # 100)%Q; opt_max_cycles := 2; opt_verbose := false |}.

(** Operators as their own Hamiltonians; [+] appends the terms. *)
Definition plain_qubitham (op : QubitOperator) (_ : string) (_ : bool) : QubitOperator := op.

Definition append_terms (a b : QubitOperator) : QubitOperator :=
  {| terms := terms a ++ terms b |}.

Definition number_penalty (_ : nat) (_ : list (string * (Q * Q))) : unit := tt.

Definition map_penalty (_ : unit) (_ : string) (_ _ : nat) : QubitOperator :=
  {| terms := [([(0, "Z")], Complex (1 # 2) 0)] |}.

Definition zero_expectation (_ : ansatz) (_ : QubitOperator) : Q := 0%Q.

Definition h4_namespace : namespace :=
  {| mol := {| n_active_mos := 2; n_active_sos := 4; n_electrons := 2;
               n_active_electrons := 2 |};
     qubit_operator := notebook_operator;
     n_qubits := 4;
     exact := (-2)%Q; exact_s2 := 0%Q; exact_sz := 0%Q; exact_n := 2%Q |}.

End Demo.

(** ** A reference reading of [get_pool] *)

Module PoolRef.
Import Pool PoolSpec.

(** A term the loop can accept: an even number of Y factors and at least
    one X or Y factor. *)
Definition acceptable (t : term) : Prop := Nat.Even (count_Y t) ∧ has_xy t.

#[global] Instance acceptable_dec (t : term) : Decision (acceptable t).
Proof.
  unfold acceptable, has_xy.
  destruct (Nat.Even_Odd_dec (count_Y t)) as [Heven|Hodd].
  - destruct (decide (xy_factors t ≠ [])) as [Hne|Hnil].
    + left. by split.
    + right. by intros [_ ?].
  - right. intros [Heven _]. exact (Nat.Even_Odd_False _ Heven Hodd).
Defined.

(** Keep a term when it is acceptable and no term kept before acts with X
    or Y on the same qubits. *)
Definition keep_first (kept : list term) (t : term) : list term :=
  if decide (xy_support t ∈ xy_support <$> kept) then kept
  else if decide (acceptable t) then kept ++ [t]
  else kept.

(** The terms of a Hamiltonian that give a generator, in order. *)
Definition accepted_terms (ts : list term) : list term := foldl keep_first [] ts.

(** The Hamiltonian with the Z factors of its terms removed. *)
Definition without_Z (H : QubitOperator) : QubitOperator :=
  {| terms := prod_map xy_factors id <$> terms H |}.

(** The actions of all terms are Pauli letters. *)
Definition pauli_actions (H : QubitOperator) : Prop :=
  Forall (Forall (λ f : nat * string, f.2 = "X" ∨ f.2 = "Y" ∨ f.2 = "Z")) (keys H).

End PoolRef.

(** ** Concrete Hamiltonians for the further properties *)

Section PoolRefExamples.
Import Pool PoolSpec.

(** Two supports, Z factors, an identity term and an odd-Y term. *)
Definition H_mixed : QubitOperator :=
  {| terms := [([], Complex 1 0);
               ([(0, "Z"); (1, "Z")], Complex 1 0);
               ([(0, "Y"); (1, "Z"); (2, "Y")], Complex 1 0);
               ([(0, "X"); (1, "Y")], Complex 1 0);
               ([(1, "X"); (2, "X")], Complex 1 0);
               ([(0, "X"); (2, "X")], Complex 1 0)] |}.

(** [H_mixed] followed by one more term. *)
Definition H_mixed_more : QubitOperator :=
  {| terms := terms H_mixed ++ [([(0, "Y"); (1, "Y")], Complex 1 0)] |}.

End PoolRefExamples.

(** ** Vocabulary for the further properties of the ansatz *)

Module HeaRef.
Import Hea.

(** The rotation axis of the [k]-th gate of an Euler Z-X-Z triple. *)
Definition axis (k : nat) : string := if decide (k mod 3 = 1) then "RX" else "RZ".

(** A gate without its parameter: name, target, control and flag. *)
Definition shape (g : Gate) : string * nat * option nat * bool :=
  (name g, target g, control g, is_variational g).

Definition shapes (c : Circuit) : list (string * nat * option nat * bool) :=
  shape <$> c.

(** The gates of a circuit that are not variational. *)
Definition fixed_gates (c : Circuit) : Circuit :=
  filter (λ g, is_variational g = false) c.

(** The attributes an object keeps through [update_var_params], and what its
    circuit keeps. *)
Definition same_but_parameters (self self' : HEA) : Prop :=
  n_spinorbitals self' = n_spinorbitals self
  ∧ n_qubits self' = n_qubits self
  ∧ n_electrons self' = n_electrons self
  ∧ n_layers self' = n_layers self
  ∧ mapping self' = mapping self
  ∧ n_var_params self' = n_var_params self
  ∧ var_params self' = var_params self
  ∧ shapes <$> circuit self' = shapes <$> circuit self
  ∧ fixed_gates <$> circuit self' = fixed_gates <$> circuit self.

End HeaRef.

(** ** The demonstration ansatz, built on all ones *)

Section HeaRefExamples.
Import Hea.

Definition built_ansatz : HEA :=
  with_circuit (with_var_params demo_ansatz (PySeq (ones 12)))
    (x_reference_circuit 2 1 "jw" ++ HEACircuit 2 1).

Definition halves : list Q := replicate 12 (1 # 2)%Q.

End HeaRefExamples.

(** ** [ladder_gates] of examples/linq/3.noisy_simulation.ipynb *)

Module Ladder.
Import Hea.

(** [Gate("H", i)] *)
Definition Hadamard (tgt : nat) : Gate :=
  {| name := "H"; target := tgt; control := None; parameter := None;
     is_variational := false |}.

(** [Gate("RY", tgt, parameter=theta)] *)
Definition RY (tgt : nat) (theta : Q) : Gate :=
  {| name := "RY"; target := tgt; control := None; parameter := Some theta;
     is_variational := false |}.

(** [l * n] on a Python list: [n] copies of [l] one after the other, none
    for [n <= 0]. *)
Definition list_mul {A : Type} (l : list A) (n : Z) : list A :=
  mjoin (replicate (Z.to_nat n) l).

(** [[Gate("CNOT", target=i+1, control=i) for i in range(n_qubits-1)]] *)
Definition cnot_ladder (n_qubits : nat) : list Gate :=
  (λ i, CNOT i (i + 1)) <$> seq 0 (n_qubits - 1).

(** [ladder_gates].  Qubit indices are naturals: the model is the function
    for [n_qubits >= 1]; at [n_qubits = 0] Python hands the index [-1] to
    [Gate], which this model of gates does not have. *)
Definition ladder_gates (n_qubits : nat) (theta : Q) (n_repetitions : Z)
  : list Gate :=
  let gates := Hadamard <$> seq 0 n_qubits in
  let gates := gates ++ cnot_ladder n_qubits in
  let gates := gates ++ [RY (n_qubits - 1) theta] in
  let gates := gates ++ reverse (cnot_ladder n_qubits) in
  list_mul gates n_repetitions.

(** How many gates of a list carry a given name. *)
Definition count_name (gate_name : string) (gates : list Gate) : nat :=
  length (filter (λ g, name g = gate_name) gates).

End Ladder.

(** * Proofs *)

Lemma bind_Ok {A B : Type} (r : result A) (k : A → result B) (b : B) :
  bind r k = Ok b ↔ ∃ a, r = Ok a ∧ k a = Ok b.
Proof.
  destruct r as [a|e]; simpl; split.
  - eauto.
  - intros (a' & [= <-] & Hk). exact Hk.
  - discriminate.
  - intros (a' & Ha & _). discriminate.
Qed.

Lemma from_option_Ok {A : Type} (e : exn) (o : option A) (a : A) :
  from_option e o = Ok a ↔ o = Some a.
Proof. destruct o; simpl; split; congruence. Qed.

Example get_pool_notebook :
  Pool.get_pool notebook_operator 4
  = Ok [QubitOperator_of [(0, "Y"); (1, "X"); (2, "Y"); (3, "Y")] j1].
Proof. vm_compute. reflexivity. Qed.

(** ** Facts about [get_pool] *)

Module PoolFacts.
Import Pool PoolSpec PoolAux.

(** *** The array as a sparse list *)

Lemma pauli_lookup_Some action v :
  pauli_lookup !! action = Some v →
  (action = "Z" ∧ v = 1%Z) ∨ (action = "X" ∧ v = 2%Z) ∨ (action = "Y" ∧ v = 3%Z).
Proof.
  unfold pauli_lookup. rewrite !lookup_insert_Some, lookup_singleton_Some.
  intros [[<- <-]|[_ [[<- <-]|[_ [<- <-]]]]]; auto.
Qed.

Lemma pauli_lookup_X : pauli_lookup !! "X" = Some 2%Z.
Proof. reflexivity. Qed.

Lemma pauli_lookup_Y : pauli_lookup !! "Y" = Some 3%Z.
Proof. reflexivity. Qed.

Lemma pauli_lookup_Z : pauli_lookup !! "Z" = Some 1%Z.
Proof. reflexivity. Qed.

Lemma nz_from_zeros start zs l :
  Forall (λ v, v = 0%Z) zs →
  nz_from start (zs ++ l) = nz_from (start + length zs) l.
Proof.
  intros Hz. revert start. induction Hz as [|z zs -> _ IH]; intros start; simpl.
  - f_equal. lia.
  - rewrite IH. f_equal. lia.
Qed.

Lemma nz_from_all_zero start zs :
  Forall (λ v, v = 0%Z) zs → nz_from start zs = [].
Proof.
  intros Hz. rewrite <- (app_nil_r zs). rewrite nz_from_zeros by done. done.
Qed.

Lemma support_of_mask_ge start m i : i ∈ support_of_mask start m → start ≤ i.
Proof.
  revert start. induction m as [|b m IH]; intros start; simpl.
  - by intros ?%elem_of_nil.
  - destruct b.
    + intros [->|Hin%IH]%elem_of_cons; lia.
    + intros Hin%IH. lia.
Qed.

Lemma support_of_mask_inj start m1 m2 :
  length m1 = length m2 →
  support_of_mask start m1 = support_of_mask start m2 → m1 = m2.
Proof.
  revert start m2. induction m1 as [|b1 m1 IH]; intros start [|b2 m2] Hlen;
    try done.
  simpl in Hlen. destruct b1, b2; simpl; intros Heq.
  - injection Heq as Heq. f_equal. eapply IH; eauto.
  - assert (start ∈ support_of_mask (S start) m2) as Hin
      by (rewrite <- Heq; apply elem_of_cons; auto).
    apply support_of_mask_ge in Hin. lia.
  - assert (start ∈ support_of_mask (S start) m1) as Hin
      by (rewrite Heq; apply elem_of_cons; auto).
    apply support_of_mask_ge in Hin. lia.
  - f_equal. eapply IH; eauto.
Qed.

Lemma union_singleton_cancel (x : nat) (A B : gset nat) :
  x ∉ A → x ∉ B → {[x]} ∪ A = {[x]} ∪ B → A = B.
Proof.
  intros HA HB Heq. apply set_eq. intros y. split; intros Hy.
  - assert (y ∈ {[x]} ∪ B) as [Hyx%elem_of_singleton|?]%elem_of_union
      by (rewrite <- Heq; apply elem_of_union; by right); [by subst|done].
  - assert (y ∈ {[x]} ∪ A) as [Hyx%elem_of_singleton|?]%elem_of_union
      by (rewrite Heq; apply elem_of_union; by right); [by subst|done].
Qed.

(** A mask is determined by the set of positions it marks. *)
Lemma support_set_inj start m1 m2 :
  length m1 = length m2 →
  list_to_set (support_of_mask start m1)
    =@{gset nat} list_to_set (support_of_mask start m2) →
  m1 = m2.
Proof.
  revert start m2. induction m1 as [|b1 m1 IH]; intros start [|b2 m2] Hlen;
    try done.
  simpl in Hlen.
  assert (∀ m, start ∉@{gset nat} list_to_set (support_of_mask (S start) m))
    as Hfresh.
  { intros m Hin%elem_of_list_to_set%support_of_mask_ge. lia. }
  pose proof (Hfresh m1). pose proof (Hfresh m2).
  destruct b1, b2; simpl; intros Heq.
  - f_equal. apply (IH (S start)); [lia|]. by eapply union_singleton_cancel.
  - exfalso. apply (Hfresh m2). rewrite <- Heq.
    apply elem_of_union. left. by apply elem_of_singleton.
  - exfalso. apply (Hfresh m1). rewrite Heq.
    apply elem_of_union. left. by apply elem_of_singleton.
  - f_equal. apply (IH (S start)); [lia|done].
Qed.

Lemma nz_from_support start ps :
  Forall xy_entry ps →
  (nz_from start ps).*1 = support_of_mask start (action_mask_of ps).
Proof.
  intros Hps. revert start. induction Hps as [|v ps Hv _ IH]; intros start.
  - reflexivity.
  - simpl. destruct Hv as [->|[->| ->]]; simpl; rewrite IH; reflexivity.
Qed.

Lemma foldl_add_acc acc ps :
  foldl Z.add acc ps = (acc + foldl Z.add 0%Z ps)%Z.
Proof.
  revert acc. induction ps as [|w ps IH]; intros acc; simpl; [lia|].
  rewrite (IH (acc + w)%Z), (IH (0 + w)%Z). lia.
Qed.

Lemma sum_cons v ps : Pool.sum (v :: ps) = (v + Pool.sum ps)%Z.
Proof. unfold Pool.sum. simpl. apply foldl_add_acc. Qed.

Lemma sum_nz start ps :
  Forall xy_entry ps → Pool.sum ps = foldr Z.add 0%Z (nz_from start ps).*2.
Proof.
  intros Hps. revert start. induction Hps as [|v ps Hv _ IH]; intros start.
  - reflexivity.
  - rewrite sum_cons. simpl. rewrite (IH (S start)).
    destruct Hv as [->|[->| ->]]; reflexivity.
Qed.

Lemma operator_tuple_nz start ps :
  Forall xy_entry ps →
  operator_tuple_from start ps = Ok (decode <$> nz_from start ps).
Proof.
  intros Hps. revert start. induction Hps as [|v ps Hv _ IH]; intros start.
  - reflexivity.
  - simpl. rewrite (IH (S start)).
    destruct Hv as [->|[->| ->]]; reflexivity.
Qed.

(** The first positive entry is where [np.where] points, and overwriting it
    with another positive value changes that entry alone. *)
Lemma nz_from_head start ps i v rest :
  Forall xy_entry ps →
  nz_from start ps = (i, v) :: rest →
  ∃ j, i = start + j
       ∧ ps !! j = Some v
       ∧ list_find (λ w, (1 < w)%Z) ps = Some (j, v)
       ∧ ∀ w, (0 < w)%Z → nz_from start (<[j := w]> ps) = (i, w) :: rest.
Proof.
  intros Hps. revert start. induction Hps as [|u ps Hu Hps IH]; intros start.
  - discriminate.
  - simpl. destruct Hu as [->|Hu].
    + simpl. intros (j & -> & Hj & Hfind & Hset)%IH. exists (S j).
      split; [lia|]. split; [done|]. split.
      * simpl. rewrite Hfind. done.
      * intros w Hw. simpl. apply Hset. done.
    + assert ((0 <? u)%Z = true) as -> by (destruct Hu as [->| ->]; done).
      intros [= <- <- <-]. exists 0. split; [lia|]. split; [done|]. split.
      * simpl. rewrite decide_True by (destruct Hu as [->| ->]; lia). done.
      * intros w Hw. simpl.
        by assert ((0 <? w)%Z = true) as -> by (apply Z.ltb_lt; lia).
Qed.

(** *** What [identify_xy] leaves in the array *)

Lemma ascending_from_le k k' t : k' ≤ k → ascending_from k t → ascending_from k' t.
Proof. destruct t as [|[i a] t]; simpl; [done|]. intros ? [? ?]. split; [lia|done]. Qed.

Lemma xy_factors_cons_xy i a t :
  a = "X" ∨ a = "Y" → xy_factors ((i, a) :: t) = (i, a) :: xy_factors t.
Proof. intros Ha. unfold xy_factors. by rewrite filter_cons_True. Qed.

Lemma xy_factors_cons_other i a t :
  a ≠ "X" → a ≠ "Y" → xy_factors ((i, a) :: t) = xy_factors t.
Proof.
  intros HX HY. unfold xy_factors. rewrite filter_cons_False; [done|].
  intros [?|?]; simpl in *; congruence.
Qed.

Lemma identify_xy_ascending t : ∀ k pre zs ps',
  ascending_from k t → length pre = k → Forall (λ v, v = 0%Z) zs →
  identify_xy t (pre ++ zs) = Ok ps' →
  ∃ body, ps' = pre ++ body
          ∧ length body = length zs
          ∧ Forall xy_entry body
          ∧ nz_from k body = coded (xy_factors t)
          ∧ covers (k + length zs) t.
Proof.
  induction t as [|[i a] t IH]; intros k pre zs ps' Hasc Hpre Hzs Hrun.
  - injection Hrun as <-. exists zs. split; [done|]. split; [done|].
    split; [|split].
    + eapply Forall_impl; [exact Hzs|]. intros v ->. by left.
    + by rewrite nz_from_all_zero.
    + constructor.
  - simpl in Hrun. destruct Hasc as [Hki Hasc].
    apply bind_Ok in Hrun as (v & Hv%from_option_Ok & Hrun).
    apply pauli_lookup_Some in Hv as [[-> ->]|Hv].
    + (* a Z factor leaves the array alone *)
      simpl in Hrun.
      apply (IH k) in Hrun as (body & -> & Hlen & Hbody & Hnz & Hcov);
        [|by eapply ascending_from_le; [|exact Hasc]; lia|done|done].
      exists body. rewrite xy_factors_cons_other by done.
      repeat split; try done.
      constructor; [|done]. intros [?|?]; simpl in *; congruence.
    + (* an X or Y factor writes its code at position i *)
      assert ((1 <? v)%Z = true) as Hgt by (destruct Hv as [[_ ->]|[_ ->]]; done).
      rewrite Hgt in Hrun. destruct (decide _) as [Hi|]; [|done].
      rewrite length_app in Hi.
      rewrite insert_app_r_alt in Hrun by lia. rewrite Hpre in Hrun.
      rewrite insert_take_drop in Hrun by lia.
      rewrite (app_assoc pre), cons_middle, (app_assoc (pre ++ _)) in Hrun.
      apply (IH (S i)) in Hrun as (body & -> & Hlen & Hbody & Hnz & Hcov);
        [|done| |].
      2:{ rewrite !length_app, length_take. simpl. lia. }
      2:{ by apply Forall_drop. }
      rewrite length_drop in Hlen, Hcov.
      exists (take (i - k) zs ++ v :: body). split.
      { by rewrite <- !app_assoc. }
      split.
      { rewrite length_app, length_take. simpl. lia. }
      split.
      { apply Forall_app. split.
        - eapply Forall_impl; [by apply Forall_take|]. intros w ->. by left.
        - constructor; [|done]. destruct Hv as [[_ ->]|[_ ->]]; red; auto. }
      split.
      { rewrite nz_from_zeros by by apply Forall_take.
        rewrite length_take.
        replace (k + (i - k) `min` length zs) with i by lia.
        simpl. assert ((0 <? v)%Z = true) as -> by (destruct Hv as [[_ ->]|[_ ->]]; done).
        rewrite Hnz. rewrite xy_factors_cons_xy by (destruct Hv as [[-> _]|[-> _]]; auto).
        unfold coded. simpl. do 2 f_equal.
        destruct Hv as [[-> ->]|[-> ->]]; reflexivity. }
      constructor.
      { intros _. simpl. lia. }
      eapply Forall_impl; [exact Hcov|]. intros f Hf Hxy. specialize (Hf Hxy). lia.
Qed.

Lemma identify_xy_zeros n t ps :
  ascending_from 0 t →
  identify_xy t (replicate n 0%Z) = Ok ps →
  length ps = n ∧ Forall xy_entry ps
  ∧ nz_from 0 ps = coded (xy_factors t) ∧ covers n t.
Proof.
  intros Hasc Hrun.
  apply (identify_xy_ascending t 0 []) in Hrun as (body & -> & Hlen & ? & ? & Hcov);
    [|done|done|by apply Forall_replicate].
  rewrite length_replicate in Hlen, Hcov. done.
Qed.

Lemma identify_xy_total n t : ∀ ps,
  wf_term t → covers n t → length ps = n → ∃ ps', identify_xy t ps = Ok ps'.
Proof.
  induction t as [|[i a] t IH]; intros ps [Hasc Hact] Hcov Hlen.
  - by eexists.
  - apply Forall_cons in Hact as [Ha Hact]. apply Forall_cons in Hcov as [Hi Hcov].
    destruct Hasc as [_ Hasc]. simpl in *.
    assert (wf_term t) as Hwf
      by (split; [by eapply ascending_from_le; [|exact Hasc]; lia|done]).
    destruct Ha as [->|[->| ->]]; rewrite ?pauli_lookup_X, ?pauli_lookup_Y, ?pauli_lookup_Z; simpl.
    + rewrite decide_True by (rewrite Hlen; apply Hi; by left).
      apply IH; [done|done|by rewrite length_insert].
    + rewrite decide_True by (rewrite Hlen; apply Hi; by right).
      apply IH; [done|done|by rewrite length_insert].
    + by apply IH.
Qed.

(** *** One pass of the loop body *)

Lemma xy_factors_Forall t : Forall is_xy (xy_factors t).
Proof.
  unfold xy_factors. apply Forall_forall. intros f Hf.
  by apply list_elem_of_filter in Hf as [? _].
Qed.

Lemma coded_sum t :
  foldr Z.add 0%Z (coded (xy_factors t)).*2
  = (2 * Z.of_nat (length (xy_factors t)) + Z.of_nat (count_Y t))%Z.
Proof.
  induction t as [|[i a] t IH]; [reflexivity|]. unfold count_Y in *.
  destruct (decide (a = "X")) as [->|HX]; [|destruct (decide (a = "Y")) as [->|HY]].
  - rewrite xy_factors_cons_xy by auto. rewrite filter_cons_False by done.
    change (coded ((i, "X") :: xy_factors t))
      with ((i, 2%Z) :: coded (xy_factors t)).
    rewrite fmap_cons. cbn [foldr snd length]. rewrite IH. lia.
  - rewrite xy_factors_cons_xy by auto. rewrite filter_cons_True by done.
    change (coded ((i, "Y") :: xy_factors t))
      with ((i, 3%Z) :: coded (xy_factors t)).
    rewrite fmap_cons. cbn [foldr snd length]. rewrite IH. lia.
  - rewrite xy_factors_cons_other by done. rewrite filter_cons_False by done.
    exact IH.
Qed.

Lemma count_Y_le t : count_Y t ≤ length (xy_factors t).
Proof.
  induction t as [|[i a] t IH]; [done|]. unfold count_Y in *.
  destruct (decide (a = "X")) as [->|HX]; [|destruct (decide (a = "Y")) as [->|HY]].
  - rewrite xy_factors_cons_xy by auto. rewrite filter_cons_False by done.
    simpl. lia.
  - rewrite xy_factors_cons_xy by auto. rewrite filter_cons_True by done.
    simpl. lia.
  - rewrite xy_factors_cons_other by done. by rewrite filter_cons_False by done.
Qed.

Lemma decode_coded r : Forall is_xy r → decode <$> coded r = r.
Proof.
  induction 1 as [|[i a] r Ha _ IH]; [done|].
  change (coded ((i, a) :: r)) with ((i, code a) :: coded r).
  rewrite fmap_cons, IH. f_equal.
  destruct Ha as [Ha|Ha]; simpl in Ha; subst a; reflexivity.
Qed.

(** The parity and sign tests of the loop, read on the term. *)
Lemma sum_tests t ps :
  Forall xy_entry ps → nz_from 0 ps = coded (xy_factors t) →
  ((Pool.sum ps mod 2 = 0)%Z ∧ (Pool.sum ps > 0)%Z)
  ↔ (Nat.Even (count_Y t) ∧ has_xy t).
Proof.
  intros Hps Hnz. rewrite (sum_nz 0) by done. rewrite Hnz, coded_sum.
  pose proof (count_Y_le t) as Hle. unfold has_xy.
  set (L := length (xy_factors t)) in *. set (c := count_Y t) in *.
  split.
  - intros [Hmod Hpos]. split.
    + pose proof (Z_div_mod_eq_full (2 * Z.of_nat L + Z.of_nat c) 2) as Hdiv.
      rewrite Hmod in Hdiv.
      exists (Z.to_nat ((2 * Z.of_nat L + Z.of_nat c) / 2 - Z.of_nat L)). lia.
    + intros Hnil. subst L. rewrite Hnil in *. simpl in *. lia.
  - intros [[m Hm] Hne]. split.
    + replace (2 * Z.of_nat L + Z.of_nat c)%Z
        with ((Z.of_nat L + Z.of_nat m) * 2)%Z by lia.
      apply Z_mod_mult.
    + subst L. destruct (xy_factors t); [done|]. simpl length. lia.
Qed.

Lemma mask_for_inj n t1 t2 m1 m2 :
  mask_for n t1 m1 → mask_for n t2 m2 →
  (m1 = m2 ↔ xy_qubits t1 = xy_qubits t2).
Proof.
  intros [Hl1 Hs1] [Hl2 Hs2]. unfold xy_qubits. rewrite <- Hs1, <- Hs2. split.
  - by intros ->.
  - apply support_set_inj. congruence.
Qed.

Lemma identify_xy_mask n t ps :
  ascending_from 0 t → identify_xy t (replicate n 0%Z) = Ok ps →
  mask_for n t (action_mask_of ps).
Proof.
  intros Hasc (Hlen & Hps & Hnz & _)%identify_xy_zeros; [|done]. split.
  - unfold action_mask_of. by rewrite length_fmap.
  - rewrite <- nz_from_support by done. rewrite Hnz.
    unfold xy_support, coded. rewrite <- list_fmap_compose.
    apply list_fmap_ext. by intros _ [i a] _.
Qed.

(** Flipping the first X/Y entry of the array and reading the array back
    gives the term without its Z factors and with its first factor flipped. *)
Lemma flip_and_read t ps :
  Forall xy_entry ps → nz_from 0 ps = coded (xy_factors t) → has_xy t →
  ∃ flip_index ps2,
    where_first ps = Ok flip_index
    ∧ flip_at flip_index ps = Ok ps2
    ∧ operator_tuple_from 0 ps2 = Ok (flip_first (xy_factors t)).
Proof.
  intros Hps Hnz Hne. pose proof (xy_factors_Forall t) as Hxy.
  unfold has_xy in Hne. destruct (xy_factors t) as [|[i a] r]; [done|]. clear Hne.
  apply Forall_cons in Hxy as [Ha Hr].
  change (coded ((i, a) :: r)) with ((i, code a) :: coded r) in Hnz.
  destruct (nz_from_head _ _ _ _ _ Hps Hnz) as (j & -> & Hj & Hfind & Hset).
  exists j. eexists. split; [|split].
  - unfold where_first. by rewrite Hfind.
  - unfold flip_at. rewrite Hj. simpl. reflexivity.
  - assert (code a + (-1) ^ (code a mod 2) = code (flip a) ∧ 0 < code (flip a))%Z
      as [-> Hpos]
      by (destruct Ha as [Ha|Ha]; simpl in Ha; subst a; by vm_compute).
    rewrite operator_tuple_nz.
    + rewrite Hset by done. rewrite fmap_cons, decode_coded by done.
      simpl. do 2 f_equal.
      destruct Ha as [Ha|Ha]; simpl in Ha; subst a; reflexivity.
    + apply Forall_insert; [done|].
      destruct Ha as [Ha|Ha]; simpl in Ha; subst a; red; auto.
Qed.

Lemma step_eval n fr t ps :
  ascending_from 0 t → identify_xy t (replicate n 0%Z) = Ok ps →
  let m := action_mask_of ps in
  (m ∈ indices fr ∧ get_pool_step n fr t = Ok fr)
  ∨ ((m ∉ indices fr) ∧ (¬ (Nat.Even (count_Y t) ∧ has_xy t))
     ∧ get_pool_step n fr t = Ok fr)
  ∨ ((m ∉ indices fr) ∧ Nat.Even (count_Y t) ∧ has_xy t
     ∧ get_pool_step n fr t = Ok (accept fr t m)).
Proof.
  intros Hasc Hrun m. unfold get_pool_step. rewrite Hrun. simpl. fold m.
  destruct (identify_xy_zeros _ _ _ Hasc Hrun) as (Hlen & Hps & Hnz & _).
  pose proof (sum_tests t ps Hps Hnz) as Htests.
  destruct (decide (m ∈ indices fr)) as [Hin|Hin]; [by left|right].
  destruct (decide _) as [Hsum|Hsum].
  - right. apply Htests in Hsum as [Heven Hne].
    destruct (flip_and_read t ps Hps Hnz Hne) as (j & ps2 & -> & Hflip & Htuple).
    simpl. rewrite Hflip. simpl. rewrite Htuple. simpl. done.
  - left. split; [done|]. split; [|done]. by rewrite <- Htests.
Qed.

Lemma step_Ok n fr t fr' :
  ascending_from 0 t → get_pool_step n fr t = Ok fr' →
  covers n t
  ∧ ∃ m, mask_for n t m
         ∧ (((m ∈ indices fr ∨ (¬ (Nat.Even (count_Y t) ∧ has_xy t))) ∧ fr' = fr)
            ∨ ((m ∉ indices fr) ∧ Nat.Even (count_Y t) ∧ has_xy t
               ∧ fr' = accept fr t m)).
Proof.
  intros Hasc Hstep.
  destruct (identify_xy t (replicate n 0%Z)) as [ps|e] eqn:Hrun;
    [|by unfold get_pool_step in Hstep; rewrite Hrun in Hstep].
  split; [by eapply identify_xy_zeros|].
  exists (action_mask_of ps). split; [by apply identify_xy_mask|].
  destruct (step_eval n fr t ps Hasc Hrun) as [[? Heq]|[(? & ? & Heq)|(? & ? & ? & Heq)]];
    rewrite Heq in Hstep; injection Hstep as <-; auto.
Qed.

Lemma step_total n fr t :
  wf_term t → covers n t → ∃ fr', get_pool_step n fr t = Ok fr'.
Proof.
  intros Hwf Hcov.
  destruct (identify_xy_total n t (replicate n 0%Z) Hwf Hcov) as [ps Hrun];
    [by rewrite length_replicate|].
  destruct Hwf as [Hasc _].
  destruct (step_eval n fr t ps Hasc Hrun) as [[? Heq]|[(? & ? & Heq)|(? & ? & ? & Heq)]];
    eauto.
Qed.

(** *** The loop *)

Lemma entry_invariant n H : loop_invariant n H [] (entry H).
Proof. exists []. repeat split; constructor. Qed.

Lemma step_invariant n H seen fr t fr' :
  ascending_from 0 t → loop_invariant n H seen fr →
  get_pool_step n fr t = Ok fr' → loop_invariant n H (seen ++ [t]) fr'.
Proof.
  intros Hasc (acc & Hgen & Htup & Hmask & Hnd & Hacc & HH) Hstep.
  apply step_Ok in Hstep as (_ & m & Hm & [[_ ->]|(Hnew & Heven & Hne & ->)]);
    [| |done].
  - exists acc. repeat split; try done.
    eapply Forall_impl; [exact Hacc|]. intros t' (? & ? & ?).
    repeat split; try done. apply elem_of_app. by left.
  - exists (acc ++ [t]). simpl. rewrite !fmap_app, Hgen, Htup. simpl.
    repeat split; try done.
    + apply Forall2_app; [done|]. constructor; [done|constructor].
    + apply NoDup_app. repeat split; [done| |apply NoDup_singleton].
      intros m' Hin ->%list_elem_of_singleton. done.
    + apply Forall_app. split.
      * eapply Forall_impl; [exact Hacc|]. intros t' (? & ? & ?).
        repeat split; try done. apply elem_of_app. by left.
      * repeat constructor; try done. apply elem_of_app. right.
        by apply list_elem_of_singleton.
Qed.

Lemma loop_invariant_preserved n H ts : ∀ seen fr fr',
  Forall (ascending_from 0) ts → loop_invariant n H seen fr →
  get_pool_loop n ts fr = Ok fr' → loop_invariant n H (seen ++ ts) fr'.
Proof.
  induction ts as [|t ts IH]; intros seen fr fr' Hasc Hinv Hloop.
  - injection Hloop as <-. by rewrite app_nil_r.
  - apply Forall_cons in Hasc as [Ht Hts]. simpl in Hloop.
    apply bind_Ok in Hloop as (fr1 & Hstep & Hloop).
    rewrite cons_middle, app_assoc. eapply IH; [done| |done].
    by eapply step_invariant.
Qed.

Lemma loop_app n ts1 ts2 fr :
  get_pool_loop n (ts1 ++ ts2) fr
  = bind (get_pool_loop n ts1 fr) (get_pool_loop n ts2).
Proof.
  revert fr. induction ts1 as [|t ts1 IH]; intros fr; [done|].
  simpl. destruct (get_pool_step n fr t); [apply IH|done].
Qed.

Lemma loop_total n ts : ∀ fr,
  Forall wf_term ts → Forall (covers n) ts → ∃ fr', get_pool_loop n ts fr = Ok fr'.
Proof.
  induction ts as [|t ts IH]; intros fr Hwf Hcov; [by eexists|].
  apply Forall_cons in Hwf as [Ht Hwf]. apply Forall_cons in Hcov as [Hc Hcov].
  destruct (step_total n fr t Ht Hc) as [fr1 Hstep]. simpl. rewrite Hstep.
  by apply IH.
Qed.

Lemma get_pool_Ok H n pool :
  get_pool H n = Ok pool ↔
  ∃ fr, get_pool_loop n (keys H) (entry H) = Ok fr ∧ pool = pool_generators fr.
Proof.
  unfold get_pool, get_pool_run. simpl. rewrite bind_Ok. split.
  - intros (fr & ? & [= <-]). eauto.
  - intros (fr & ? & ->). eauto.
Qed.

Lemma produces_accepted n H before t g :
  ascending_from 0 t → produces n H before t g →
  Nat.Even (count_Y t) ∧ has_xy t ∧ g = spec_generator t.
Proof.
  intros Hasc (fr & fr' & _ & Hstep & Hpool).
  apply step_Ok in Hstep as (_ & m & _ & [[_ ->]|(_ & ? & ? & ->)]); [| |done].
  - apply (f_equal length) in Hpool. rewrite length_app in Hpool. simpl in Hpool. lia.
  - simpl in Hpool. apply app_inj_tail in Hpool as [_ <-]. done.
Qed.

Lemma spec_generator_qubits t : generator_qubits (spec_generator t) = xy_qubits t.
Proof.
  unfold generator_qubits, xy_qubits, xy_support, spec_generator. simpl.
  rewrite app_nil_r. by destruct (xy_factors t) as [|[i a] r].
Qed.

Lemma NoDup_fmap_transfer {A B C : Type} (f : A → B) (g : A → C) (l : list A) :
  (∀ x y, x ∈ l → y ∈ l → f x = f y → g x = g y) →
  NoDup (g <$> l) → NoDup (f <$> l).
Proof.
  induction l as [|x l IH]; intros Hfg; simpl; [constructor|].
  rewrite !NoDup_cons. intros [Hx Hl]. split.
  - intros (y & Hxy & Hy)%list_elem_of_fmap. apply Hx.
    apply list_elem_of_fmap. exists y. split; [|done].
    apply Hfg; [by left|by right|done].
  - apply IH; [|done]. intros y z ? ?. apply Hfg; by right.
Qed.

Lemma ascending_from_Forall k t : ascending_from k t → Forall (λ f, k ≤ f.1) t.
Proof.
  revert k. induction t as [|[i a] t IH]; intros k; [constructor|].
  intros [Hk Ht]. constructor; [done|].
  eapply Forall_impl; [by apply IH|]. simpl. intros f ?. lia.
Qed.

Lemma xy_factors_head t i a rest :
  ascending_from 0 t → xy_factors t = (i, a) :: rest →
  Forall (λ f, i < f.1) rest ∧ flip a ≠ a.
Proof.
  intros Hasc Heq. split.
  - revert Hasc Heq. generalize 0. induction t as [|[i' a'] t IH]; intros k; [done|].
    intros [_ Ht]. unfold xy_factors. rewrite filter_cons.
    destruct (decide _).
    + intros [= -> -> <-]. apply ascending_from_Forall in Ht.
      apply Forall_forall. intros f [_ Hf]%list_elem_of_filter.
      rewrite Forall_forall in Ht. apply Ht in Hf. lia.
    + exact (IH (S i') Ht).
  - pose proof (xy_factors_Forall t) as Hxy. rewrite Heq in Hxy.
    apply Forall_cons in Hxy as [[Ha|Ha] _]; simpl in Ha; subst a; done.
Qed.

Lemma step_rejects n fr t :
  wf_term t → covers n t → ¬ has_xy t ∨ Nat.Odd (count_Y t) →
  get_pool_step n fr t = Ok fr.
Proof.
  intros Hwf Hcov Hrej. destruct (step_total n fr t Hwf Hcov) as [fr' Hstep].
  rewrite Hstep. destruct Hwf as [Hasc _].
  apply step_Ok in Hstep as (_ & m & _ & [[_ ->]|(_ & Heven & Hne & _)]);
    [done| |done].
  destruct Hrej as [?|Hodd]; [done|].
  destruct (Nat.Even_Odd_False _ Heven Hodd).
Qed.

Lemma step_frame n fr t fr' :
  get_pool_step n fr t = Ok fr' →
  qubit_hamiltonian fr' = qubit_hamiltonian fr
  ∧ ((indices fr' = indices fr ∧ pool_generators fr' = pool_generators fr)
     ∨ ∃ m g, indices fr' = indices fr ++ [m]
              ∧ pool_generators fr' = pool_generators fr ++ [g]).
Proof.
  unfold get_pool_step. intros (ps & _ & Hrest)%bind_Ok.
  destruct (decide _); [injection Hrest as <-; auto|].
  destruct (decide _); [|injection Hrest as <-; auto].
  apply bind_Ok in Hrest as (j & _ & Hrest).
  apply bind_Ok in Hrest as (ps2 & _ & Hrest).
  apply bind_Ok in Hrest as (tup & _ & [= <-]). simpl.
  split; [done|]. right. eauto.
Qed.

Lemma loop_frame n ts : ∀ fr fr',
  get_pool_loop n ts fr = Ok fr' → qubit_hamiltonian fr' = qubit_hamiltonian fr.
Proof.
  induction ts as [|t ts IH]; intros fr fr'; simpl.
  - by intros [= <-].
  - intros (fr1 & [Hstep _]%step_frame & Hloop%IH)%bind_Ok. congruence.
Qed.

Lemma step_rebase n H' fr t :
  get_pool_step n (rebase H' fr) t
  = bind (get_pool_step n fr t) (λ fr', Ok (rebase H' fr')).
Proof.
  unfold get_pool_step. destruct (identify_xy _ _) as [ps|]; simpl; [|done].
  destruct (decide _); [done|]. destruct (decide _); [|done].
  destruct (where_first ps) as [j|]; simpl; [|done].
  destruct (flip_at j ps) as [ps2|]; simpl; [|done].
  by destruct (operator_tuple_from 0 ps2).
Qed.

Lemma loop_rebase n H' ts : ∀ fr,
  get_pool_loop n ts (rebase H' fr)
  = bind (get_pool_loop n ts fr) (λ fr', Ok (rebase H' fr')).
Proof.
  induction ts as [|t ts IH]; intros fr; simpl; [done|].
  rewrite step_rebase. destruct (get_pool_step n fr t); simpl; [apply IH|done].
Qed.

End PoolFacts.

(** ** The claims about [get_pool] *)

Section PoolClaims.
Import Pool PoolSpec PoolAux PoolFacts.

(** C1: a term of the Hamiltonian becomes a pool entry only if it has an even
    number of Y factors and at least one X or Y factor; a term with an odd
    number of Y factors never becomes one. *)
Theorem get_pool_entry_needs_even_Y (n_qubits : nat) (H : QubitOperator) (t : term) :
  wf_term t →
  (∀ g, becomes_entry n_qubits H t g → Nat.Even (count_Y t) ∧ has_xy t)
  ∧ (Nat.Odd (count_Y t) → ∀ g, ¬ becomes_entry n_qubits H t g).
Proof.
  intros [Hasc _].
  assert (∀ g, becomes_entry n_qubits H t g → Nat.Even (count_Y t) ∧ has_xy t)
    as Honly.
  { intros g (before & after & pool & _ & Hprod & _).
    apply produces_accepted in Hprod as (? & ? & _); done. }
  split; [exact Honly|].
  intros Hodd g [Heven _]%Honly. exact (Nat.Even_Odd_False _ Heven Hodd).
Qed.

(** C2: the generator an accepted term produces is the term without its Z
    factors and with its first X/Y factor, the one on the lowest qubit,
    flipped (X to Y, Y to X), under the coefficient 1.0j. *)
Theorem get_pool_generator_is_flipped_term
    (n_qubits : nat) (H : QubitOperator) (t : term) (g : QubitOperator) :
  wf_term t → becomes_entry n_qubits H t g →
  g = spec_generator t
  ∧ ∃ index action rest,
      xy_factors t = (index, action) :: rest
      ∧ Forall (λ f, index < f.1) rest
      ∧ flip action ≠ action
      ∧ terms g = [((index, flip action) :: rest, Complex 0 1)].
Proof.
  intros [Hasc _] (before & after & pool & _ & Hprod & _).
  apply produces_accepted in Hprod as (_ & Hne & ->); [|done].
  split; [done|]. unfold has_xy in Hne.
  destruct (xy_factors t) as [|[i a] rest] eqn:Hxy; [done|].
  destruct (xy_factors_head t i a rest Hasc Hxy) as [Hlow Hflip].
  exists i, a, rest. repeat split; try done.
  unfold spec_generator. rewrite Hxy. reflexivity.
Qed.

(** C3: the generators of the pool act on pairwise distinct sets of qubits,
    each of them the X/Y support of a term of the Hamiltonian, so that the
    pool is no longer than the number of distinct support patterns. *)
Theorem get_pool_distinct_supports
    (n_qubits : nat) (H : QubitOperator) (pool : list QubitOperator) :
  wf_operator H → get_pool H n_qubits = Ok pool →
  NoDup (generator_qubits <$> pool)
  ∧ (∀ g, g ∈ pool → generator_qubits g ∈ support_patterns H)
  ∧ length pool ≤ size (support_patterns H).
Proof.
  intros Hwf (fr & Hloop & ->)%get_pool_Ok.
  assert (Forall (ascending_from 0) (keys H)) as Hasc
    by (eapply Forall_impl; [exact Hwf|]; by intros t [? _]).
  destruct (loop_invariant_preserved n_qubits H (keys H) [] _ _ Hasc
              (entry_invariant n_qubits H) Hloop)
    as (acc & -> & _ & Hmask & Hnd & Hacc & _).
  simpl in Hacc. rewrite <- list_fmap_compose.
  rewrite (list_fmap_ext (generator_qubits ∘ spec_generator) xy_qubits acc)
    by (intros; apply spec_generator_qubits).
  assert (NoDup (xy_qubits <$> acc)) as Hdistinct.
  { assert (∃ masks : term → list bool,
              indices fr = masks <$> acc
              ∧ ∀ t, t ∈ acc → mask_for n_qubits t (masks t)) as (masks & Hidx & Hmasks).
    { clear -Hmask. induction Hmask as [|t m acc ms Hm _ (masks & -> & IH)].
      - exists (λ _, []). split; [done|]. by intros t ?%elem_of_nil.
      - exists (λ t', if decide (t' ∈ acc) then masks t' else m). split.
        + simpl. f_equal.
          * (* the head: either its mask was chosen before, or it is [m] *)
            destruct (decide (t ∈ acc)) as [Hin|]; [|done].
            pose proof (IH t Hin) as Hm'.
            by apply (mask_for_inj _ _ _ _ _ Hm Hm').
          * apply list_fmap_ext. intros _ t' Hin%list_elem_of_lookup_2.
            by rewrite decide_True.
        + intros t' [->|Hin]%elem_of_cons.
          * destruct (decide _); [by apply IH|done].
          * rewrite decide_True by done. by apply IH. }
    rewrite Hidx in Hnd. eapply NoDup_fmap_transfer; [|exact Hnd].
    intros t1 t2 H1 H2 Heq. by apply (mask_for_inj n_qubits t1 t2); auto. }
  assert (∀ s, s ∈ xy_qubits <$> acc → s ∈ support_patterns H) as Hsub.
  { intros s (t & -> & Hin)%list_elem_of_fmap. unfold support_patterns.
    apply elem_of_list_to_set, list_elem_of_fmap. exists t. split; [done|].
    rewrite Forall_forall in Hacc. by apply Hacc. }
  split; [done|]. split.
  - intros g (t & -> & Hin)%list_elem_of_fmap. rewrite spec_generator_qubits.
    apply Hsub, list_elem_of_fmap. eauto.
  - rewrite length_fmap, <- (length_fmap xy_qubits).
    rewrite <- (size_list_to_set (C := gset (gset nat))) by done.
    apply subseteq_size. intros s Hs%elem_of_list_to_set. by apply Hsub.
Qed.

(** C4: when every term has no X or Y factor or an odd number of Y factors,
    the pool is empty. *)
Theorem get_pool_empty (n_qubits : nat) (H : QubitOperator) :
  wf_operator H → covers_operator n_qubits H →
  (∀ t, t ∈ keys H → ¬ has_xy t ∨ Nat.Odd (count_Y t)) →
  get_pool H n_qubits = Ok [].
Proof.
  intros Hwf Hcov Hrej. apply get_pool_Ok. exists (entry H). split; [|done].
  unfold wf_operator, covers_operator in *.
  generalize (entry H) as fr.
  induction (keys H) as [|t ts IH]; intros fr; [done|].
  apply Forall_cons in Hwf as [Ht Hwf]. apply Forall_cons in Hcov as [Hc Hcov].
  simpl. rewrite step_rejects; [|done|done|apply Hrej; by left]. simpl.
  apply IH; [done|done|]. intros t' ?. apply Hrej. by right.
Qed.

(** C5: [get_pool] is a function of its two arguments; a call leaves the
    Hamiltonian object as it was, so that a second call on it returns the
    same ordered pool; and the pool depends on the ordered terms of the
    Hamiltonian only. *)
Theorem get_pool_deterministic_pure (n_qubits : nat) (H : QubitOperator) :
  (∀ r1 r2, get_pool H n_qubits = r1 → get_pool H n_qubits = r2 → r1 = r2)
  ∧ (∀ fr, get_pool_run H n_qubits = Ok fr →
           qubit_hamiltonian fr = H
           ∧ get_pool (qubit_hamiltonian fr) n_qubits = Ok (pool_generators fr))
  ∧ (∀ H', keys H' = keys H → get_pool H' n_qubits = get_pool H n_qubits).
Proof.
  split; [|split].
  - intros r1 r2 <- <-. reflexivity.
  - intros fr Hrun.
    assert (qubit_hamiltonian fr = H) as Hsame
      by (unfold get_pool_run in Hrun; by apply loop_frame in Hrun).
    split; [done|]. rewrite Hsame. unfold get_pool. by rewrite Hrun.
  - intros H' Hkeys. unfold get_pool, get_pool_run. simpl. rewrite Hkeys.
    change (entry H') with (rebase H' (entry H)). rewrite loop_rebase.
    by destruct (get_pool_loop n_qubits (keys H) (entry H)).
Qed.

(** *** Concrete runs *)

Lemma t_XXYY_wf : wf_term t_XXYY.
Proof.
  split.
  - simpl. repeat (split; [lia|]). exact I.
  - repeat (apply Forall_cons; split; [simpl; auto|]). constructor.
Defined.

Lemma t_XXYY_becomes_entry : becomes_entry 4 notebook_operator t_XXYY g_YXYY.
Proof.
  exists [], (tail (keys notebook_operator)), [g_YXYY].
  split; [reflexivity|]. split; [|split; [vm_compute; reflexivity|left]].
  exists (entry notebook_operator). eexists.
  split; [reflexivity|]. split; [vm_compute; reflexivity|reflexivity].
Defined.

Lemma get_pool_entry_needs_even_Y_witness :
  Nat.Even (count_Y t_XXYY) ∧ has_xy t_XXYY.
Proof.
  exact (proj1 (get_pool_entry_needs_even_Y 4 notebook_operator t_XXYY t_XXYY_wf)
           g_YXYY t_XXYY_becomes_entry).
Defined.

Lemma get_pool_generator_is_flipped_term_witness :
  g_YXYY = spec_generator t_XXYY
  ∧ ∃ index action rest,
      xy_factors t_XXYY = (index, action) :: rest
      ∧ Forall (λ f, index < f.1) rest
      ∧ flip action ≠ action
      ∧ terms g_YXYY = [((index, flip action) :: rest, Complex 0 1)].
Proof.
  exact (get_pool_generator_is_flipped_term 4 notebook_operator t_XXYY g_YXYY
           t_XXYY_wf t_XXYY_becomes_entry).
Defined.

Lemma notebook_operator_wf : wf_operator notebook_operator.
Proof.
  repeat (apply Forall_cons; split;
          [split; [simpl; repeat (split; [lia|]); exact I
                  |repeat (apply Forall_cons; split; [simpl; auto|]); constructor]|]).
  constructor.
Defined.

Lemma get_pool_distinct_supports_witness :
  NoDup (generator_qubits <$> [g_YXYY])
  ∧ (∀ g, g ∈ [g_YXYY] → generator_qubits g ∈ support_patterns notebook_operator)
  ∧ length [g_YXYY] ≤ size (support_patterns notebook_operator).
Proof.
  apply (get_pool_distinct_supports 4 notebook_operator [g_YXYY]).
  - exact notebook_operator_wf.
  - vm_compute. reflexivity.
Defined.

Lemma get_pool_empty_witness : get_pool scenario_A 2 = Ok [].
Proof.
  apply (get_pool_empty 2 scenario_A).
  - apply Forall_cons. split; [|constructor]. split.
    + simpl. repeat (split; [lia|]). exact I.
    + repeat (apply Forall_cons; split; [simpl; auto|]). constructor.
  - apply Forall_cons. split; [|constructor].
    repeat (apply Forall_cons; split; [simpl; intros; lia|]). constructor.
  - intros t ->%list_elem_of_singleton. right. exists 0. reflexivity.
Defined.

Lemma get_pool_deterministic_pure_witness :
  get_pool notebook_operator 4 = Ok [g_YXYY]
  ∧ get_pool notebook_operator_halved 4 = get_pool notebook_operator 4.
Proof.
  destruct (get_pool_deterministic_pure 4 notebook_operator) as (Hfun & _ & Hkeys).
  split.
  - apply (Hfun _ _ eq_refl). vm_compute. reflexivity.
  - apply Hkeys. reflexivity.
Defined.

(** C8, as stated, fails: in XX + XY + YY over two qubits the odd-Y term XY
    precedes the even-Y term YY of the same support, yet YY produces no
    generator, the mask having been used by XX. *)
Lemma even_Y_after_odd_Y_counterexample :
  keys H_XX_XY_YY = [t_XX] ++ t_XY :: [] ++ t_YY :: []
  ∧ Nat.Odd (count_Y t_XY)
  ∧ Nat.Even (count_Y t_YY) ∧ has_xy t_YY
  ∧ xy_qubits t_XY = xy_qubits t_YY
  ∧ get_pool H_XX_XY_YY 2 = Ok [QubitOperator_of [(0, "Y"); (1, "X")] j1]
  ∧ ¬ ∃ g, produces 2 H_XX_XY_YY [t_XX; t_XY] t_YY g.
Proof.
  split; [reflexivity|]. split; [by exists 0|]. split; [by exists 1|].
  split; [done|]. split; [reflexivity|]. split; [by vm_compute|].
  intros (g & fr & fr' & Hloop & Hstep & Hpool).
  vm_compute in Hloop. injection Hloop as <-.
  vm_compute in Hstep. injection Hstep as <-.
  apply (f_equal length) in Hpool. simpl in Hpool. lia.
Qed.

(** *** Further runs of [get_pool] *)

(** An X or Y factor beyond the register raises; a Z factor there does not,
    the array never being written. *)
Example get_pool_out_of_range :
  get_pool {| terms := [([(5, "Y"); (6, "Y")], Complex 1 0)] |} 2
  = Raise (IndexError "pauli_string").
Proof. vm_compute. reflexivity. Qed.

Example get_pool_Z_out_of_range :
  get_pool {| terms := [([(5, "Z")], Complex 1 0)] |} 2 = Ok [].
Proof. vm_compute. reflexivity. Qed.

(** Without XX in front, the even-Y term YY that follows XY is accepted. *)
Example get_pool_XY_YY :
  get_pool {| terms := [(t_XY, Complex 1 0); (t_YY, Complex 1 0)] |} 2
  = Ok [QubitOperator_of [(0, "X"); (1, "Y")] j1].
Proof. vm_compute. reflexivity. Qed.

(** Terms on different qubit sets give one generator each, in the order of
    the Hamiltonian; the identity and Z-only terms give none. *)
Example get_pool_mixed :
  get_pool {| terms := [([], Complex 1 0);
                        ([(0, "Z"); (1, "Z")], Complex 1 0);
                        ([(0, "Y"); (1, "Z"); (2, "Y")], Complex 1 0);
                        ([(1, "X"); (2, "X")], Complex 1 0);
                        ([(0, "X"); (2, "X")], Complex 1 0)] |} 3
  = Ok [QubitOperator_of [(0, "X"); (2, "Y")] j1;
        QubitOperator_of [(1, "Y"); (2, "X")] j1].
Proof. vm_compute. reflexivity. Qed.

End PoolClaims.

(** ** Facts about the hardware-efficient ansatz *)

Module HeaFacts.
Import Hea.

Lemma variational_from_length start c :
  length (variational_from start c) = length (variational c).
Proof.
  revert start. unfold variational.
  induction c as [|g c IH]; intros start; [done|]. simpl.
  destruct (is_variational g) eqn:Hg.
  - rewrite filter_cons_True by done. simpl. by rewrite IH.
  - rewrite filter_cons_False by congruence. by rewrite IH.
Qed.

Lemma variational_from_ge start c p : p ∈ variational_from start c → start ≤ p.
Proof.
  revert start. induction c as [|g c IH]; intros start; simpl.
  - by intros ?%elem_of_nil.
  - destruct (is_variational g).
    + intros [->|Hin%IH]%elem_of_cons; lia.
    + intros Hin%IH. lia.
Qed.

Lemma variational_from_NoDup start c : NoDup (variational_from start c).
Proof.
  revert start. induction c as [|g c IH]; intros start; simpl; [constructor|].
  destruct (is_variational g); [|apply IH].
  constructor; [|apply IH]. intros Hin%variational_from_ge. lia.
Qed.

Lemma variational_app c1 c2 : variational (c1 ++ c2) = variational c1 ++ variational c2.
Proof. apply filter_app. Qed.

Lemma variational_none c :
  Forall (λ g, is_variational g = false) c → variational c = [].
Proof.
  induction 1 as [|g c Hg _ IH]; [done|]. unfold variational in *.
  rewrite filter_cons_False; [done|congruence].
Qed.

Lemma foldl_append {A B : Type} (body : list A → B → list A) (f : B → list A)
    (l : list B) (init : list A) :
  (∀ c x, body c x = c ++ f x) → foldl body init l = init ++ (l ≫= f).
Proof.
  intros Hbody. revert init. induction l as [|x l IH]; intros init; simpl.
  - by rewrite app_nil_r.
  - rewrite IH, Hbody. by rewrite app_assoc.
Qed.

Lemma EulerCircuit_gates n :
  EulerCircuit n
  = seq 0 n ≫= λ tgt, [rotation "RZ" tgt; rotation "RX" tgt; rotation "RZ" tgt].
Proof.
  unfold EulerCircuit, for_range, add_gate.
  rewrite (foldl_append _
             (λ tgt, [rotation "RZ" tgt; rotation "RX" tgt; rotation "RZ" tgt]));
    [done|].
  intros c x. by rewrite <- !app_assoc.
Qed.

Lemma EulerCircuit_variational n : length (variational (EulerCircuit n)) = n * 3.
Proof.
  rewrite EulerCircuit_gates. rewrite <- (length_seq n 0) at 2.
  induction (seq 0 n) as [|tgt l IH]; [done|].
  rewrite bind_cons, variational_app, length_app, IH. reflexivity.
Qed.

Lemma EntanglerCircuit_variational n : variational (EntanglerCircuit n) = [].
Proof.
  apply variational_none. unfold EntanglerCircuit, for_range, add_gate.
  rewrite (foldl_append _ (λ ii, [CNOT (2 * ii + 1) (2 * (ii + 1))])) by done.
  rewrite (foldl_append _ (λ ii, [CNOT (2 * ii) (2 * ii + 1)])) by done.
  simpl. apply Forall_app. split; apply Forall_forall; intros g;
    rewrite list_elem_of_bind; intros (ii & ->%list_elem_of_singleton & _); done.
Qed.

Lemma HEACircuit_variational n layers :
  length (variational (HEACircuit n layers)) = n * 3 * (layers + 1).
Proof.
  unfold HEACircuit, for_range.
  induction layers as [|layers IH].
  - simpl. rewrite EulerCircuit_variational. lia.
  - rewrite seq_S, foldl_app. simpl.
    rewrite !variational_app, !length_app, IH.
    rewrite EntanglerCircuit_variational, EulerCircuit_variational. simpl. lia.
Qed.

(** *** Assigning parameters through [_variational_gates] *)

Lemma assign_nil c : assign c [] = c.
Proof.
  induction c as [|g c IH]; [done|]. simpl.
  destruct (is_variational g); [done|]. by rewrite IH.
Qed.

Lemma variational_from_assign start c vs :
  variational_from start (assign c vs) = variational_from start c.
Proof.
  revert start vs. induction c as [|g c IH]; intros start vs; [done|]. simpl.
  destruct (is_variational g) eqn:Hg.
  - destruct vs as [|v vs]; simpl; rewrite Hg; [done|]. by rewrite IH.
  - simpl. rewrite Hg. by rewrite IH.
Qed.

Lemma variational_from_alter start c v p :
  variational_from start (alter (set_parameter v) p c) = variational_from start c.
Proof.
  revert start p. induction c as [|g c IH]; intros start [|p]; simpl; try done.
  specialize (IH (S start) p). unfold alter in IH.
  destruct (is_variational g); by rewrite IH.
Qed.

(** Writing through the reference number [j] extends the assignment of the
    first [j] values by one. *)
Lemma assign_snoc c : ∀ start j position vs v,
  length vs = j → variational_from start c !! j = Some position →
  start ≤ position
  ∧ alter (set_parameter v) (position - start) (assign c vs) = assign c (vs ++ [v]).
Proof.
  induction c as [|g c IH]; intros start j position vs v Hlen Hpos; [done|].
  simpl in *. destruct (is_variational g) eqn:Hg.
  - destruct vs as [|v0 vs]; simpl in Hlen; subst j.
    + injection Hpos as <-. split; [lia|].
      rewrite Nat.sub_diag. simpl. by rewrite assign_nil.
    + simpl in Hpos. destruct (IH (S start) _ position vs v eq_refl Hpos) as [Hge Halter].
      split; [lia|]. replace (position - start) with (S (position - S start)) by lia.
      simpl. f_equal. exact Halter.
  - destruct (IH (S start) _ position vs v Hlen Hpos) as [Hge Halter].
    split; [lia|]. replace (position - start) with (S (position - S start)) by lia.
    simpl. f_equal. exact Halter.
Qed.

Lemma variational_assign c vs :
  length vs = length (variational c) →
  parameter <$> variational (assign c vs) = Some <$> vs.
Proof.
  revert vs. unfold variational.
  induction c as [|g c IH]; intros vs; simpl.
  - by destruct vs.
  - destruct (is_variational g) eqn:Hg.
    + rewrite filter_cons_True by done. destruct vs as [|v vs]; [done|].
      simpl. intros [= Hlen]. rewrite filter_cons_True by done. simpl.
      by rewrite IH.
    + rewrite !filter_cons_False by congruence. apply IH.
Qed.

Lemma update_loop_assign (self : HEA) (c : Circuit) (new_params : list Q) :
  ∀ k a,
    a + k ≤ length (_variational_gates c) → a + k ≤ length new_params →
    update_loop new_params (seq a k) (with_circuit self (assign c (take a new_params)))
    = (with_circuit self (assign c (take (a + k) new_params)), Ok tt).
Proof.
  induction k as [|k IH]; intros a Hgates Hparams; simpl.
  - by rewrite Nat.add_0_r.
  - destruct (lookup_lt_is_Some_2 new_params a) as [v Hv]; [lia|].
    destruct (lookup_lt_is_Some_2 (_variational_gates c) a) as [p Hp]; [lia|].
    unfold update_step. rewrite Hv. simpl. unfold assign_parameter, _variational_gates.
    rewrite variational_from_assign. fold (_variational_gates c). rewrite Hp. simpl.
    destruct (assign_snoc c 0 a p (take a new_params) v) as [_ Halter];
      [rewrite length_take; lia|done|].
    rewrite Nat.sub_0_r in Halter. rewrite Halter.
    rewrite <- (take_S_r _ _ _ Hv).
    replace (a + S k) with (S a + k) by lia.
    apply (IH (S a)); lia.
Qed.

Lemma update_loop_gate_index (new_params : list Q) : ∀ idxs self c self' e,
  circuit self = Some c →
  Forall (λ i, i < length (_variational_gates c)) idxs →
  update_loop new_params idxs self = (self', Raise e) →
  e = IndexError "var_params".
Proof.
  induction idxs as [|i idxs IH]; intros self c self' e Hc Hidx; simpl; [done|].
  apply Forall_cons in Hidx as [Hi Hidx].
  unfold update_step. destruct (new_params !! i) as [v|]; simpl;
    [|by intros [= _ <-]].
  rewrite Hc. simpl. unfold assign_parameter.
  destruct (lookup_lt_is_Some_2 (_variational_gates c) i Hi) as [p ->]. simpl.
  apply (IH _ (alter (set_parameter v) p c)); [done|].
  unfold _variational_gates in *. by rewrite variational_from_alter.
Qed.

End HeaFacts.

(** ** The claims about [HEA] *)

Section HeaClaims.
Import Hea HeaFacts.

Lemma set_var_params_self self s v self' s' r :
  set_var_params self s v = (self', s', r) →
  (self' = self ∧ ∃ e, r = Raise e)
  ∨ ∃ w, self' = with_var_params self w ∧ r = Ok w.
Proof.
  unfold set_var_params. destruct v as [|str|l]; simpl.
  - intros [= <- <- <-]. right. eauto.
  - destruct (bool_decide _); [intros [= <- <- <-]; right; eauto|].
    destruct (decide _); intros [= <- <- <-]; [left|right]; eauto.
  - destruct (decide _); intros [= <- <- <-]; [left|right]; eauto.
Qed.

(** C9: the circuit [build_circuit] makes has exactly
    [n_qubits * 3 * (n_layers + 1)] variational gates, as many as
    [n_var_params]; so [update_var_params] never reads past the end of the
    list of variational gates, and writes each of them once. *)
Theorem build_circuit_variational_gates
    (get_qubit_number : string → nat → nat)
    (get_reference_circuit : nat → nat → string → Circuit)
    (n_spinorbitals n_electrons n_layers : nat) (mapping : string)
    (s : rng) (v : pyval) (self' : HEA) (s' : rng) (c : Circuit) :
  (∀ so e m, Forall (λ g, is_variational g = false) (get_reference_circuit so e m)) →
  build_circuit get_reference_circuit
    (init get_qubit_number n_spinorbitals n_electrons n_layers mapping) s v
  = (self', s', Ok c) →
  let n := get_qubit_number mapping n_spinorbitals * 3 * (n_layers + 1) in
  circuit self' = Some c
  ∧ n_var_params self' = n
  ∧ length (_variational_gates c) = n
  ∧ NoDup (_variational_gates c)
  ∧ ∀ new_params,
      (∀ self'' e, update_var_params self' new_params = (self'', Raise e) →
                   e = IndexError "var_params")
      ∧ (n ≤ length new_params →
         ∃ self'', update_var_params self' new_params = (self'', Ok tt)
                   ∧ circuit self'' = Some (assign c (take n new_params))
                   ∧ parameter <$> variational (assign c (take n new_params))
                     = Some <$> take n new_params).
Proof.
  intros Href Hbuild n. unfold build_circuit in Hbuild.
  destruct (set_var_params _ s v) as [[self1 s1] [r|e]] eqn:Hset; [|done].
  apply set_var_params_self in Hset as [[_ [e [=]]]|(w & -> & [= ->])].
  injection Hbuild as <- _ <-. simpl.
  set (hea := HEACircuit _ _). set (ref := prepare_reference_state _ _).
  set (c := if decide (size ref ≠ 0) then ref ++ hea else hea).
  assert (length (_variational_gates c) = n) as Hcount.
  { unfold _variational_gates. rewrite variational_from_length.
    assert (variational c = variational hea) as ->.
    { subst c. destruct (decide _); [|done].
      rewrite variational_app, variational_none; [done|apply Href]. }
    apply HEACircuit_variational. }
  split; [done|]. split; [done|]. split; [done|].
  split; [apply variational_from_NoDup|].
  intros new_params. unfold update_var_params. simpl. fold n. split.
  - intros self'' e. apply (update_loop_gate_index _ _ _ c); [done|].
    apply Forall_forall. intros i Hi%elem_of_seq. lia.
  - intros Hlen. eexists. split; [|split].
    + pose proof (update_loop_assign
                    (with_circuit (with_var_params
                       (init get_qubit_number n_spinorbitals n_electrons n_layers mapping)
                       w) c) c new_params n 0) as Hloop.
      rewrite take_0, assign_nil in Hloop. simpl in Hloop.
      apply Hloop; lia.
    + reflexivity.
    + apply variational_assign. rewrite length_take.
      rewrite <- (variational_from_length 0). fold (_variational_gates c).
      rewrite Hcount. lia.
Qed.

(** C10: [set_var_params] raises [ValueError] exactly when its argument is
    neither [None] nor "ones" and has another length than [n_var_params],
    and then leaves the object alone; otherwise it stores and returns a
    value of length [n_var_params]. *)
Theorem set_var_params_raises_iff
    (self : HEA) (s : rng) (v : pyval) (self' : HEA) (s' : rng) (r : result pyval) :
  set_var_params self s v = (self', s', r) →
  ((∃ e, r = Raise e)
   ↔ v ≠ PyNone ∧ v ≠ PyStr "ones" ∧ py_len v ≠ Some (n_var_params self))
  ∧ (∀ e, r = Raise e →
          e = ValueError "Invalid number of parameters." ∧ self' = self)
  ∧ (∀ w, r = Ok w →
          var_params self' = Some w ∧ py_len w = Some (n_var_params self)).
Proof.
  unfold set_var_params. destruct v as [|str|l]; simpl.
  - intros [= <- <- <-]. split; [|split].
    + split; [by intros [e [=]]|by intros [[] _]].
    + by intros e [=].
    + intros w [= <-]. simpl. by rewrite length_fmap, length_seq.
  - destruct (bool_decide_reflect (str = "ones")) as [->|Hstr].
    + intros [= <- <- <-]. split; [|split].
      * split; [by intros [e [=]]|by intros (_ & [] & _)].
      * by intros e [=].
      * intros w [= <-]. simpl. unfold ones. by rewrite length_replicate.
    + destruct (decide _) as [Hlen|Hlen]; intros [= <- <- <-]; (split; [|split]).
      * split; [|eauto]. intros _. repeat split; [done|congruence|done].
      * by intros e [= <-].
      * by intros w [=].
      * split; [by intros [e [=]]|]. by intros (_ & _ & ?).
      * by intros e [=].
      * intros w [= <-]. simpl. split; [done|].
        by destruct (decide (Some (String.length str) = Some (n_var_params self))).
  - destruct (decide _) as [Hlen|Hlen]; intros [= <- <- <-]; (split; [|split]).
    + split; [|eauto]. by intros _.
    + by intros e [= <-].
    + by intros w [=].
    + split; [by intros [e [=]]|]. by intros (_ & _ & ?).
    + by intros e [=].
    + intros w [= <-]. simpl. split; [done|].
      by destruct (decide (Some (length l) = Some (n_var_params self))).
Qed.

Lemma x_reference_not_variational so e m :
  Forall (λ g, is_variational g = false) (x_reference_circuit so e m).
Proof.
  unfold x_reference_circuit. apply Forall_fmap, Forall_forall. done.
Defined.

Lemma build_circuit_variational_gates_witness :
  ∃ self' c,
    build_circuit x_reference_circuit demo_ansatz zero_stream (PyStr "ones")
    = (self', zero_stream, Ok c)
    ∧ circuit self' = Some c
    ∧ n_var_params self' = 12
    ∧ length (_variational_gates c) = 12.
Proof.
  eexists _, _. split; [reflexivity|].
  pose proof (build_circuit_variational_gates jw_qubit_number x_reference_circuit
                2 1 1 "jw" zero_stream (PyStr "ones") _ _ _
                x_reference_not_variational eq_refl) as (Hc & Hn & Hlen & _).
  repeat split; assumption.
Defined.

Lemma set_var_params_raises_iff_witness :
  set_var_params demo_ansatz zero_stream (PySeq [1%Q; 2%Q])
  = (demo_ansatz, zero_stream, Raise (ValueError "Invalid number of parameters."))
  ∧ PySeq [1%Q; 2%Q] ≠ PyNone ∧ PySeq [1%Q; 2%Q] ≠ PyStr "ones"
  ∧ py_len (PySeq [1%Q; 2%Q]) ≠ Some (n_var_params demo_ansatz).
Proof.
  split; [reflexivity|].
  apply (set_var_params_raises_iff demo_ansatz zero_stream (PySeq [1%Q; 2%Q])
           demo_ansatz zero_stream _ eq_refl).
  eexists. reflexivity.
Defined.

(** *** Further runs of the ansatz *)

Example HEACircuit_2_1 :
  name <$> HEACircuit 2 1
  = ["RZ"; "RX"; "RZ"; "RZ"; "RX"; "RZ"; "CNOT";
     "RZ"; "RX"; "RZ"; "RZ"; "RX"; "RZ"].
Proof. reflexivity. Qed.

Example EntanglerCircuit_5 :
  (λ g, (control g, target g)) <$> EntanglerCircuit 5
  = [(Some 0, 1); (Some 2, 3); (Some 1, 2)].
Proof. reflexivity. Qed.

Example variational_gates_with_reference :
  _variational_gates (x_reference_circuit 2 1 "jw" ++ HEACircuit 1 1)
  = [1; 2; 3; 4; 5; 6].
Proof. reflexivity. Qed.

Example update_var_params_short :
  (update_var_params (with_circuit demo_ansatz (HEACircuit 2 1)) [1%Q; 2%Q]).2
  = Raise (IndexError "var_params").
Proof. vm_compute. reflexivity. Qed.

End HeaClaims.

(** ** Facts about the ADAPT controller *)

Module AdaptFacts.
Import Adapt.

Section Controller.

Context {Ham PoolArgs : Type}.
Variable gradient : Ham → ansatz → QubitOperator → Q.
Variable optimize : Ham → ansatz → list Q * Q.

Lemma rank_from_max H psi : ∀ candidates index best j P g,
  rank_from gradient H psi index candidates best = Some (j, P, g) →
  (∀ P', P' ∈ candidates → (Qabs (gradient H psi P') <= g)%Q)
  ∧ (∀ jb Pb gb, best = Some (jb, Pb, gb) → (gb <= g)%Q)
  ∧ (P ∈ candidates ∨ best = Some (j, P, g)).
Proof.
  induction candidates as [|P0 rest IH]; intros index best j P g; simpl.
  - intros ->. split; [by intros P' ?%elem_of_nil|]. split; [|by right].
    intros jb Pb gb [= _ _ <-]. apply Qle_refl.
  - intros (Hrest & Hbest & Hwho)%IH.
    set (g0 := Qabs (gradient H psi P0)) in *.
    assert ((g0 <= g)%Q ∧ ∀ jb Pb gb, best = Some (jb, Pb, gb) → (gb <= g)%Q)
      as [Hg0 Hold].
    { destruct best as [[[jb Pb] gb]|].
      - destruct (Qlt_le_dec gb g0) as [Hlt|Hle].
        + pose proof (Hbest _ _ _ eq_refl) as Hg. split; [done|].
          intros ? ? ? [= _ _ <-]. eapply Qle_trans; [|exact Hg].
          by apply Qlt_le_weak.
        + pose proof (Hbest _ _ _ eq_refl) as Hg. split.
          * by eapply Qle_trans.
          * by intros ? ? ? [= _ _ <-].
      - split; [by apply (Hbest index P0 g0)|done]. }
    split; [|split; [done|]].
    + intros P' [->|Hin]%elem_of_cons; [done|by apply Hrest].
    + destruct Hwho as [Hin|Hwho]; [left; by right|].
      destruct best as [[[jb Pb] gb]|].
      * destruct (Qlt_le_dec gb g0); [|by right].
        injection Hwho as <- <- <-. left. by left.
      * injection Hwho as <- <- <-. left. by left.
Qed.

Lemma rank_Some H psi candidates j P g :
  rank gradient H psi candidates = Some (j, P, g) →
  P ∈ candidates ∧ ∀ P', P' ∈ candidates → (Qabs (gradient H psi P') <= g)%Q.
Proof.
  intros (Hmax & _ & [Hin|[=]])%rank_from_max. done.
Qed.

Lemma rank_from_is_Some H psi : ∀ candidates index best,
  is_Some best → is_Some (rank_from gradient H psi index candidates best).
Proof.
  induction candidates as [|P rest IH]; intros index best Hbest; [done|].
  simpl. apply IH. destruct best as [[[jb Pb] gb]|]; [|done].
  by destruct (Qlt_le_dec _ _).
Qed.

Lemma rank_None H psi candidates :
  rank gradient H psi candidates = None → candidates = [].
Proof.
  destruct candidates as [|P rest]; [done|]. unfold Adapt.rank. simpl.
  intros Hnone. exfalso. eapply is_Some_None. rewrite <- Hnone.
  by apply rank_from_is_Some.
Qed.

(** A ranking step converges, gives up, or appends one generator. *)
Lemma ranking_step (o : options (Ham := Ham) (PoolArgs := PoolArgs)) (c : controller) :
  state c = RANKING →
  ∃ c', step gradient optimize o c = Ok c'
        ∧ energies c' = energies c
        ∧ ((state c' = CONVERGED ∧ the_ansatz c' = the_ansatz c
            ∧ ∀ P, P ∈ pool c →
                (Qabs (gradient (opt_qubit_hamiltonian o) (the_ansatz c) P)
                 < opt_tol o)%Q)
           ∨ (state c' = EXHAUSTED ∧ the_ansatz c' = the_ansatz c
              ∧ opt_max_cycles o ≤ length (the_ansatz c))
           ∨ (state c' = OPTIMIZING
              ∧ length (the_ansatz c) < opt_max_cycles o
              ∧ ∃ P, P ∈ pool c ∧ the_ansatz c' = the_ansatz c ++ [(P, 0%Q)])).
Proof.
  intros Hstate. unfold Adapt.step. rewrite Hstate.
  destruct (rank gradient _ _ _) as [[[j P] g]|] eqn:Hrank.
  - apply rank_Some in Hrank as [Hin Hmax].
    destruct (Qlt_le_dec g (opt_tol o)) as [Hlt|Hle].
    + eexists. split; [done|]. split; [done|]. left. repeat split.
      intros P' HP'. eapply Qle_lt_trans; [by apply Hmax|done].
    + destruct (decide _) as [Hfull|Hroom].
      * eexists. split; [done|]. split; [done|]. right. left. done.
      * eexists. split; [done|]. split; [done|]. right. right.
        split; [done|]. split; [lia|]. eauto.
  - apply rank_None in Hrank. eexists. split; [done|]. split; [done|]. left.
    repeat split. rewrite Hrank. by intros P ?%elem_of_nil.
Qed.

Lemma run_terminal (o : options (Ham := Ham) (PoolArgs := PoolArgs)) fuel c :
  terminal c = true → run gradient optimize fuel o c = Ok (Some c).
Proof. intros Hterm. destruct fuel; simpl; by rewrite Hterm. Qed.

(** *** What a ranking step decides, and what a run goes through *)

Lemma rank_from_value H psi : ∀ candidates index best j P g,
  rank_from gradient H psi index candidates best = Some (j, P, g) →
  best = Some (j, P, g) ∨ g = Qabs (gradient H psi P).
Proof.
  induction candidates as [|P0 rest IH]; intros index best j P g; simpl; [by left|].
  intros [Hbest| ->]%IH; [|by right].
  destruct best as [[[jb Pb] gb]|].
  - destruct (Qlt_le_dec gb _); [|by left].
    injection Hbest as <- <- <-. by right.
  - injection Hbest as <- <- <-. by right.
Qed.

Lemma rank_value H psi candidates j P g :
  rank gradient H psi candidates = Some (j, P, g) → g = Qabs (gradient H psi P).
Proof. by intros [[=]|?]%rank_from_value. Qed.

(** The three outcomes of a ranking step exclude each other: which one
    happens is decided by the tolerance first and the cycle limit next. *)
Lemma ranking_step_exact (o : options (Ham := Ham) (PoolArgs := PoolArgs))
    (c : controller) :
  state c = RANKING →
  ∃ c', step gradient optimize o c = Ok c'
        ∧ energies c' = energies c
        ∧ pool c' = pool c
        ∧ ((below_tolerance gradient o c
            ∧ state c' = CONVERGED ∧ the_ansatz c' = the_ansatz c)
           ∨ ((¬ below_tolerance gradient o c)
              ∧ opt_max_cycles o ≤ length (the_ansatz c)
              ∧ state c' = EXHAUSTED ∧ the_ansatz c' = the_ansatz c)
           ∨ ((¬ below_tolerance gradient o c)
              ∧ length (the_ansatz c) < opt_max_cycles o
              ∧ state c' = OPTIMIZING
              ∧ ∃ P, P ∈ pool c
                     ∧ (∀ P', P' ∈ pool c →
                          (Qabs (gradient (opt_qubit_hamiltonian o) (the_ansatz c) P')
                           <= Qabs (gradient (opt_qubit_hamiltonian o) (the_ansatz c) P))%Q)
                     ∧ the_ansatz c' = the_ansatz c ++ [(P, 0%Q)])).
Proof.
  intros Hstate. unfold Adapt.step. rewrite Hstate.
  destruct (rank gradient _ _ _) as [[[j P] g]|] eqn:Hrank.
  - pose proof (rank_value _ _ _ _ _ _ Hrank) as Hg.
    apply rank_Some in Hrank as [Hin Hmax].
    destruct (Qlt_le_dec g (opt_tol o)) as [Hlt|Hle].
    + eexists. split; [done|]. split; [done|]. split; [done|]. left.
      split; [|done]. intros P' HP'. eapply Qle_lt_trans; [by apply Hmax|done].
    + assert (¬ below_tolerance gradient o c) as Hnot.
      { intros Hall. specialize (Hall P Hin). rewrite <- Hg in Hall.
        exact (Qlt_not_le _ _ Hall Hle). }
      destruct (decide _) as [Hfull|Hroom].
      * eexists. split; [done|]. split; [done|]. split; [done|]. right. left. done.
      * eexists. split; [done|]. split; [done|]. split; [done|]. right. right.
        split; [done|]. split; [lia|]. split; [done|].
        exists P. split; [done|]. split; [|done].
        intros P' HP'. rewrite <- Hg. by apply Hmax.
  - apply rank_None in Hrank. eexists. split; [done|]. split; [done|].
    split; [done|]. left. split; [|done].
    intros P. rewrite Hrank. by intros ?%elem_of_nil.
Qed.

Lemma reassign_generators (psi : ansatz) params : (reassign psi params).*1 = psi.*1.
Proof.
  unfold reassign.
  assert (∀ (f : nat → nat),
            (imap (λ i '(P, theta), (P, default theta (params !! f i))) psi).*1 = psi.*1)
    as Hgen.
  { induction psi as [|[P theta] psi IH]; intros f; [done|].
    simpl. f_equal. apply (IH (f ∘ S)). }
  apply (Hgen id).
Qed.

Lemma optimizing_step_exact (o : options (Ham := Ham) (PoolArgs := PoolArgs))
    (c : controller) :
  state c = OPTIMIZING →
  ∃ c', step gradient optimize o c = Ok c'
        ∧ state c' = RANKING
        ∧ pool c' = pool c
        ∧ (the_ansatz c').*1 = (the_ansatz c).*1
        ∧ energies c'
          = energies c ++ [(optimize (opt_qubit_hamiltonian o) (the_ansatz c)).2].
Proof.
  intros Hstate. unfold Adapt.step. rewrite Hstate.
  destruct (optimize _ _) as [params energy]. eexists. split; [done|].
  simpl. by rewrite reassign_generators.
Qed.

(** A run from a ranking state with room for [d] more cycles: the
    transitions it makes and the state it ends in. *)
Lemma run_from_ranking_trace (o : options (Ham := Ham) (PoolArgs := PoolArgs)) :
  ∀ d fuel c,
    state c = RANKING →
    length (the_ansatz c) + d = opt_max_cycles o →
    length (energies c) = length (the_ansatz c) →
    2 * d + 1 ≤ fuel →
    ∃ c' k,
      run gradient optimize fuel o c = Ok (Some c')
      ∧ k ≤ 2 * d + 1
      ∧ steps gradient optimize o k c c'
      ∧ pool c' = pool c
      ∧ length (the_ansatz c') ≤ opt_max_cycles o
      ∧ length (energies c') = length (the_ansatz c')
      ∧ ((state c' = CONVERGED ∧ below_tolerance gradient o c')
         ∨ (state c' = EXHAUSTED ∧ (¬ below_tolerance gradient o c')
            ∧ length (the_ansatz c') = opt_max_cycles o))
      ∧ (Forall (λ P, P ∈ pool c) (the_ansatz c).*1 →
         Forall (λ P, P ∈ pool c') (the_ansatz c').*1)
      ∧ (Forall (optimised_energy optimize o) (energies c) →
         Forall (optimised_energy optimize o) (energies c')).
Proof.
  induction d as [|d IH]; intros fuel c Hstate Hroom Hlog Hfuel;
    (destruct fuel as [|fuel]; [lia|]);
    destruct (ranking_step_exact o c Hstate)
      as (c1 & Hstep & Hen & Hpool
          & [(Hbelow & Hs & Ha)|[(Hnot & Hfull & Hs & Ha)
                                |(Hnot & Hlt & Hs & P & HP & _ & Ha)]]).
  all: assert (terminal c = false) as Hterm by (unfold terminal; by rewrite Hstate).
  all: simpl; rewrite Hterm, Hstep; simpl.
  all: try (exists c1, 1; rewrite run_terminal by (unfold terminal; by rewrite Hs);
            split; [done|]; split; [lia|];
            split; [by eapply steps_cons; [| |apply steps_refl]|];
            split; [done|]; split; [rewrite Ha; lia|];
            split; [by rewrite Ha, Hen|];
            split; [|by rewrite Ha, Hpool, Hen]).
  - left. split; [done|]. unfold below_tolerance. by rewrite Hpool, Ha.
  - right. split; [done|]. unfold below_tolerance. rewrite Hpool, Ha.
    split; [done|lia].
  - exfalso. lia.
  - left. split; [done|]. unfold below_tolerance. by rewrite Hpool, Ha.
  - right. split; [done|]. unfold below_tolerance. rewrite Hpool, Ha.
    split; [done|lia].
  - destruct fuel as [|fuel]; [lia|].
    destruct (optimizing_step_exact o c1 Hs) as (c2 & Hstep2 & Hs2 & Hpool2 & Ha2 & Hen2).
    assert (terminal c1 = false) as Hterm1 by (unfold terminal; by rewrite Hs).
    assert (length (the_ansatz c2) = S (length (the_ansatz c))) as Hlen2.
    { rewrite <- (length_fmap fst (the_ansatz c2)), Ha2, length_fmap, Ha, length_app.
      simpl. lia. }
    simpl. rewrite Hterm1, Hstep2. simpl.
    destruct (IH fuel c2 Hs2) as (c' & k & Hrun & Hk & Hsteps & Hpool' & Hlen & Hlog'
                                  & Hend & Hgens & Henergies);
      [lia| |lia|].
    { rewrite Hen2, length_app, Hen, Hlen2. simpl. lia. }
    exists c', (S (S k)). split; [done|]. split; [lia|].
    split; [by eapply steps_cons; [| |eapply steps_cons]|].
    split; [congruence|]. split; [done|]. split; [done|]. split; [done|].
    split.
    + intros Hin. rewrite Hpool', Hpool2, Hpool. rewrite Hpool', Hpool2, Hpool in Hgens.
      apply Hgens. rewrite Ha2, Ha, fmap_app. apply Forall_app. split; [done|].
      by repeat constructor.
    + intros Hin. apply Henergies. rewrite Hen2, Hen. apply Forall_app.
      split; [done|]. repeat constructor. by eexists.
Qed.

(** What [solve] comes to: the pool function raises before the loop, or
    the loop runs from [INIT] to a terminal state. *)
Lemma solve_outcome (o : options (Ham := Ham) (PoolArgs := PoolArgs)) :
  (∃ e, opt_pool o (opt_pool_args o) = Raise e
        ∧ solve gradient optimize o = Raise e)
  ∨ ∃ c k,
      solve gradient optimize o = Ok (Some c)
      ∧ k ≤ 2 * opt_max_cycles o + 2
      ∧ steps gradient optimize o k init c
      ∧ opt_pool o (opt_pool_args o) = Ok (pool c)
      ∧ length (the_ansatz c) ≤ opt_max_cycles o
      ∧ length (energies c) = length (the_ansatz c)
      ∧ ((state c = CONVERGED ∧ below_tolerance gradient o c)
         ∨ (state c = EXHAUSTED ∧ (¬ below_tolerance gradient o c)
            ∧ length (the_ansatz c) = opt_max_cycles o))
      ∧ Forall (λ P, P ∈ pool c) (the_ansatz c).*1
      ∧ Forall (optimised_energy optimize o) (energies c).
Proof.
  unfold solve.
  replace (2 * opt_max_cycles o + 2) with (S (2 * opt_max_cycles o + 1)) by lia.
  set (fuel := 2 * opt_max_cycles o + 1).
  change (run gradient optimize (S fuel) o init)
    with (bind (step gradient optimize o init)
            (λ c', run gradient optimize fuel o c')).
  destruct (opt_pool o (opt_pool_args o)) as [generators|e] eqn:Hpool.
  - right.
    set (c0 := {| state := RANKING; pool := generators; the_ansatz := [];
                  energies := []; growth_log := []; last_gradient := 0%Q |}).
    assert (step gradient optimize o init = Ok c0) as Hstep
      by (unfold step; cbn [init state]; by rewrite Hpool).
    rewrite Hstep. simpl bind.
    destruct (run_from_ranking_trace o (opt_max_cycles o) fuel c0)
      as (c & k & Hrun & Hk & Hsteps & Hpool' & Hlen & Hlog & Hend & Hgens & Hens);
      [done|simpl; lia|done|lia|].
    exists c, (S k). split; [done|]. split; [lia|].
    split; [by eapply steps_cons|]. split; [by rewrite Hpool'|].
    split; [done|]. split; [done|]. split; [done|].
    split; [apply Hgens|apply Hens]; constructor.
  - left. exists e. split; [done|]. unfold step. cbn [init state]. by rewrite Hpool.
Qed.

End Controller.

(** *** The run consults its collaborators on the working Hamiltonian only *)

Section Extensional.

Context {Ham PoolArgs : Type}.
Variable gradient gradient' : Ham → ansatz → QubitOperator → Q.
Variable optimize optimize' : Ham → ansatz → list Q * Q.
Variable o : options (Ham := Ham) (PoolArgs := PoolArgs).
Hypothesis same_gradient :
  ∀ psi P, gradient' (opt_qubit_hamiltonian o) psi P
           = gradient (opt_qubit_hamiltonian o) psi P.
Hypothesis same_optimize :
  ∀ psi, optimize' (opt_qubit_hamiltonian o) psi
         = optimize (opt_qubit_hamiltonian o) psi.

Lemma rank_from_ext psi : ∀ candidates index best,
  rank_from gradient' (opt_qubit_hamiltonian o) psi index candidates best
  = rank_from gradient (opt_qubit_hamiltonian o) psi index candidates best.
Proof.
  induction candidates as [|P rest IH]; intros index best; [done|].
  simpl. by rewrite same_gradient, IH.
Qed.

Lemma step_ext c : step gradient' optimize' o c = step gradient optimize o c.
Proof.
  unfold step, rank. by rewrite rank_from_ext, same_optimize.
Qed.

Lemma run_ext : ∀ fuel c,
  run gradient' optimize' fuel o c = run gradient optimize fuel o c.
Proof.
  induction fuel as [|fuel IH]; intros c; [done|].
  simpl. rewrite step_ext. destruct (terminal c); [done|].
  destruct (step gradient optimize o c); simpl; [apply IH|done].
Qed.

Lemma solve_ext : solve gradient' optimize' o = solve gradient optimize o.
Proof. apply run_ext. Qed.

End Extensional.

End AdaptFacts.

(** ** The claims about the ADAPT loop and the penalty cells *)

Section AdaptClaims.
Import Adapt Penalty AdaptFacts.

(** C7: with a cycle limit [max_cycles] the loop halts, after at most
    [max_cycles] cycles.  A ranking step does exactly one of three things,
    decided by the tolerance first and the limit next: with every gradient
    magnitude below the tolerance it stops in CONVERGED; otherwise, with the
    limit reached, it stops in EXHAUSTED; otherwise it appends exactly one
    generator, one of maximal gradient magnitude.  And [solve] is the
    iteration of these transitions from INIT: unless the pool function
    raised before the loop began, it makes at most [2 * max_cycles + 2] of
    them and ends in CONVERGED, exactly when every gradient on the final
    ansatz is below the tolerance, or in EXHAUSTED, exactly when not, the
    ansatz then holding [max_cycles] generators; the ansatz never has more
    than [max_cycles] generators, each from the pool and one per cycle. *)
Theorem adapt_loop_halts_within_max_cycles {Ham PoolArgs : Type}
    (gradient : Ham → ansatz → QubitOperator → Q)
    (optimize : Ham → ansatz → list Q * Q)
    (o : options (Ham := Ham) (PoolArgs := PoolArgs)) :
  (∀ c, state c = RANKING →
     ∃ c', step gradient optimize o c = Ok c'
           ∧ (below_tolerance gradient o c → state c' = CONVERGED)
           ∧ ((state c' = CONVERGED ∧ the_ansatz c' = the_ansatz c
               ∧ ∀ P, P ∈ pool c →
                   (Qabs (gradient (opt_qubit_hamiltonian o) (the_ansatz c) P)
                    < opt_tol o)%Q)
              ∨ (state c' = EXHAUSTED ∧ the_ansatz c' = the_ansatz c
                 ∧ opt_max_cycles o ≤ length (the_ansatz c)
                 ∧ ¬ below_tolerance gradient o c)
              ∨ (state c' = OPTIMIZING
                 ∧ length (the_ansatz c) < opt_max_cycles o
                 ∧ (¬ below_tolerance gradient o c)
                 ∧ ∃ P, P ∈ pool c
                        ∧ (∀ P', P' ∈ pool c →
                             (Qabs (gradient (opt_qubit_hamiltonian o) (the_ansatz c) P')
                              <= Qabs (gradient (opt_qubit_hamiltonian o)
                                         (the_ansatz c) P))%Q)
                        ∧ the_ansatz c' = the_ansatz c ++ [(P, 0%Q)])))
  ∧ ((∃ e, opt_pool o (opt_pool_args o) = Raise e
           ∧ solve gradient optimize o = Raise e)
     ∨ ∃ c k, solve gradient optimize o = Ok (Some c)
              ∧ steps gradient optimize o k init c
              ∧ k ≤ 2 * opt_max_cycles o + 2
              ∧ (state c = CONVERGED ∨ state c = EXHAUSTED)
              ∧ length (the_ansatz c) ≤ opt_max_cycles o
              ∧ length (energies c) = length (the_ansatz c)
              ∧ opt_pool o (opt_pool_args o) = Ok (pool c)
              ∧ Forall (λ P, P ∈ pool c) (the_ansatz c).*1
              ∧ (state c = CONVERGED ↔ below_tolerance gradient o c)
              ∧ (state c = EXHAUSTED
                 ↔ (¬ below_tolerance gradient o c)
                   ∧ length (the_ansatz c) = opt_max_cycles o)).
Proof.
  split.
  - intros c Hstate.
    destruct (ranking_step_exact gradient optimize o c Hstate)
      as (c' & Hstep & _ & _
          & [(Hbelow & Hs & Ha)|[(Hnot & Hfull & Hs & Ha)|(Hnot & Hlt & Hs & HP)]]);
      exists c'; (split; [done|]); (split; [done|]); auto 10.
  - destruct (solve_outcome gradient optimize o)
      as [?|(c & k & Hrun & Hk & Hsteps & Hpool & Hlen & Hlog & Hend & Hgens & _)];
      [by left|right].
    exists c, k. do 7 (split; [done || (destruct Hend as [[? _]|[? _]]; auto)|]).
    split; [done|].
    destruct Hend as [[Hs Hbelow]|(Hs & Hnot & Hfull)]; split; split;
      try done; try congruence; try (by intros [? _]).
Qed.

(** C6: with penalty terms, the run the cell makes is the solver's run on
    the original Hamiltonian plus the penalty operator, built once by the
    cell: the pool is built from it, by the first transition; every
    gradient the ranking consults and every energy the optimiser returns is
    taken on it, so that the run does not change when gradient and
    optimiser are changed on other Hamiltonians; convergence is judged on
    it.  The original operator stays bound as it was, and is the one the
    reported energy error is evaluated on, on the final ansatz of that
    run. *)
Theorem penalty_hamiltonian_drives_the_run {QubitHamiltonian FermionOperator : Type}
    (qubitop_to_qubitham : QubitOperator → string → bool → QubitHamiltonian)
    (combined_penalty : nat → list (string * (Q * Q)) → FermionOperator)
    (fermion_to_qubit_mapping : FermionOperator → string → nat → nat → QubitOperator)
    (qubitham_add : QubitHamiltonian → QubitHamiltonian → QubitHamiltonian)
    (qubitham_terms : QubitHamiltonian → QubitOperator)
    (gradient : QubitHamiltonian → ansatz → QubitOperator → Q)
    (optimize : QubitHamiltonian → ansatz → list Q * Q)
    (operator_expectation : ansatz → QubitOperator → Q)
    (ns : namespace) :
  let cell := penalty_cell qubitop_to_qubitham combined_penalty
                fermion_to_qubit_mapping qubitham_add qubitham_terms in
  let pns := cell gradient optimize ns in
  let penalty :=
    qubitop_to_qubitham
      (fermion_to_qubit_mapping
         (combined_penalty (n_active_mos (mol ns))
            [("N", ((1 # 2)%Q, exact_n ns)); ("Sz", ((1 # 2)%Q, exact_sz ns));
             ("S^2", ((1 # 2)%Q, exact_s2 ns))])
         "jw" (n_active_sos (mol ns)) (n_electrons (mol ns)))
      "jw" false in
  let working := qubitham_add (qubitop_to_qubitham (qubit_operator ns) "jw" false) penalty in
  let o := opt_dict pns in
  (* the Hamiltonian handed to the solver, and to the pool function *)
  opt_qubit_hamiltonian o = working
  ∧ opt_pool o (opt_pool_args o) = Pool.get_pool (qubitham_terms working) (n_qubits ns)
  (* the pool is built from it, once, by the first transition *)
  ∧ (∀ c, step gradient optimize o init = Ok c →
          state c = RANKING
          ∧ Pool.get_pool (qubitham_terms working) (n_qubits ns) = Ok (pool c))
  (* ranking and optimisation run on it *)
  ∧ (∀ c c', state c = RANKING → step gradient optimize o c = Ok c' →
             state c' = CONVERGED →
             ∀ P, P ∈ pool c → (Qabs (gradient working (the_ansatz c) P) < opt_tol o)%Q)
  ∧ (∀ c c', state c = OPTIMIZING → step gradient optimize o c = Ok c' →
             energies c' = energies c ++ [(optimize working (the_ansatz c)).2]
             ∧ pool c' = pool c)
  (* the original operator is kept, and reported on *)
  ∧ found pns = ns
  ∧ (∀ c, adapt_solver_with_pen pns = Ok (Some c) →
          reported_error operator_expectation pns
          = Some (operator_expectation (the_ansatz c) (qubit_operator ns) - exact ns)%Q)
  (* the run of the cell is the solver's run on these options *)
  ∧ adapt_solver_with_pen pns = solve gradient optimize o
  (* what that run comes to *)
  ∧ ((∃ e, Pool.get_pool (qubitham_terms working) (n_qubits ns) = Raise e
           ∧ adapt_solver_with_pen pns = Raise e
           ∧ reported_error operator_expectation pns = None)
     ∨ ∃ c k,
         adapt_solver_with_pen pns = Ok (Some c)
         ∧ steps gradient optimize o k init c
         ∧ Pool.get_pool (qubitham_terms working) (n_qubits ns) = Ok (pool c)
         ∧ Forall (λ P, P ∈ pool c) (the_ansatz c).*1
         ∧ (state c = CONVERGED
            ↔ ∀ P, P ∈ pool c →
                (Qabs (gradient working (the_ansatz c) P) < (1 # 100))%Q)
         ∧ Forall (λ energy, ∃ psi, energy = (optimize working psi).2) (energies c)
         ∧ reported_error operator_expectation pns
           = Some (operator_expectation (the_ansatz c) (qubit_operator ns)
                   - exact ns)%Q)
  (* gradient and optimiser are consulted on the working Hamiltonian only *)
  ∧ (∀ gradient' optimize',
       (∀ psi P, gradient' working psi P = gradient working psi P) →
       (∀ psi, optimize' working psi = optimize working psi) →
       adapt_solver_with_pen (cell gradient' optimize' ns)
       = adapt_solver_with_pen pns).
Proof.
  intros cell pns penalty working o.
  split; [reflexivity|]. split; [reflexivity|].
  split; [|split; [|split; [|split; [|split; [|split; [|split]]]]]].
  - unfold step. cbn [init state]. intros c (gens & Hpool & [= <-])%bind_Ok.
    split; [reflexivity|]. exact Hpool.
  - intros c c' Hstate Hstep Hconv.
    destruct (ranking_step gradient optimize o c Hstate)
      as (c1 & Hstep1 & _ & [(_ & _ & Hall)|[(Hs & _)|(Hs & _)]]);
      rewrite Hstep1 in Hstep; injection Hstep as <-; [exact Hall|congruence..].
  - intros c c' Hstate. unfold step. rewrite Hstate.
    change (opt_qubit_hamiltonian o) with working.
    destruct (optimize working (the_ansatz c)) as [params energy].
    intros [= <-]. done.
  - reflexivity.
  - intros c Hrun. unfold reported_error. rewrite Hrun. reflexivity.
  - reflexivity.
  - change (adapt_solver_with_pen pns) with (solve gradient optimize o).
    unfold reported_error.
    change (adapt_solver_with_pen pns) with (solve gradient optimize o).
    destruct (solve_outcome gradient optimize o)
      as [(e & Hpool & Hrun)
         |(c & k & Hrun & _ & Hsteps & Hpool & _ & _ & Hend & Hgens & Hens)].
    + left. exists e. rewrite Hrun. done.
    + right. exists c, k. rewrite Hrun. split; [done|]. split; [done|].
      split; [exact Hpool|]. split; [done|]. split; [|split; [exact Hens|done]].
      destruct Hend as [[Hs Hbelow]|(Hs & Hnot & _)].
      * split; [intros _; exact Hbelow|done].
      * split; [rewrite Hs; by intros [=]|].
        intros Hall. destruct Hnot. exact Hall.
  - intros gradient' optimize' Hg Ho.
    exact (solve_ext gradient gradient' optimize optimize' o Hg Ho).
Qed.

Lemma adapt_loop_halts_within_max_cycles_witness :
  ∃ c k, solve Demo.steep Demo.keep Demo.two_cycles = Ok (Some c)
         ∧ steps Demo.steep Demo.keep Demo.two_cycles k init c
         ∧ k ≤ 2 * 2 + 2
         ∧ (state c = CONVERGED ∨ state c = EXHAUSTED)
         ∧ length (the_ansatz c) ≤ 2
         ∧ length (energies c) = length (the_ansatz c)
         ∧ Demo.one_generator tt = Ok (pool c)
         ∧ Forall (λ P, P ∈ pool c) (the_ansatz c).*1
         ∧ (state c = CONVERGED ↔ below_tolerance Demo.steep Demo.two_cycles c)
         ∧ (state c = EXHAUSTED
            ↔ (¬ below_tolerance Demo.steep Demo.two_cycles c)
              ∧ length (the_ansatz c) = 2).
Proof.
  destruct (proj2 (adapt_loop_halts_within_max_cycles
                     Demo.steep Demo.keep Demo.two_cycles))
    as [(e & Hpool & _)|Hrun].
  - discriminate Hpool.
  - exact Hrun.
Defined.

Lemma penalty_hamiltonian_drives_the_run_witness :
  found (penalty_cell Demo.plain_qubitham Demo.number_penalty Demo.map_penalty
           Demo.append_terms id Demo.flat Demo.keep Demo.h4_namespace)
  = Demo.h4_namespace
  ∧ reported_error Demo.zero_expectation
      (penalty_cell Demo.plain_qubitham Demo.number_penalty Demo.map_penalty
         Demo.append_terms id Demo.flat Demo.keep Demo.h4_namespace)
    = Some (0 - -2)%Q
  ∧ adapt_solver_with_pen
      (penalty_cell Demo.plain_qubitham Demo.number_penalty Demo.map_penalty
         Demo.append_terms id Demo.flat Demo.keep Demo.h4_namespace)
    = solve Demo.flat Demo.keep
        (opt_dict (penalty_cell Demo.plain_qubitham Demo.number_penalty
                     Demo.map_penalty Demo.append_terms id Demo.flat Demo.keep
                     Demo.h4_namespace)).
Proof.
  destruct (penalty_hamiltonian_drives_the_run
              Demo.plain_qubitham Demo.number_penalty Demo.map_penalty
              Demo.append_terms id Demo.flat Demo.keep Demo.zero_expectation
              Demo.h4_namespace)
    as (_ & _ & _ & _ & _ & Hfound & Hreport & Hrun & _).
  split; [exact Hfound|]. split; [|exact Hrun].
  eapply Hreport. vm_compute. reflexivity.
Defined.

End AdaptClaims.

(** * Further properties of the code *)

(** ** Further facts about [get_pool] *)

Module PoolRefFacts.
Import Pool PoolSpec PoolAux PoolFacts PoolRef.

Lemma mask_for_support n t1 t2 m1 m2 :
  mask_for n t1 m1 → mask_for n t2 m2 →
  (m1 = m2 ↔ xy_support t1 = xy_support t2).
Proof.
  intros [Hl1 Hs1] [Hl2 Hs2]. split.
  - intros ->. congruence.
  - intros Heq. apply (support_of_mask_inj 0); congruence.
Qed.

Lemma mask_seen n kept masks t m :
  Forall2 (mask_for n) kept masks → mask_for n t m →
  (m ∈ masks ↔ xy_support t ∈ xy_support <$> kept).
Proof.
  intros Hkept Hm. split.
  - intros [k Hk]%list_elem_of_lookup.
    destruct (Forall2_lookup_r _ _ _ _ _ Hkept Hk) as (t' & Ht' & Hm').
    apply list_elem_of_fmap. exists t'. split.
    + by apply (mask_for_support n t t' m m).
    + by eapply list_elem_of_lookup_2.
  - intros (t' & Heq & [k Hk]%list_elem_of_lookup)%list_elem_of_fmap.
    destruct (Forall2_lookup_l _ _ _ _ _ Hkept Hk) as (m' & Hm' & Ht').
    apply (mask_for_support n t t' m m') in Heq; [|done|done]. subst m'.
    by eapply list_elem_of_lookup_2.
Qed.

(** One pass of the loop follows [keep_first]. *)
Lemma step_keep_first n fr kept t :
  wf_term t → covers n t →
  pool_generators fr = spec_generator <$> kept →
  Forall2 (mask_for n) kept (indices fr) →
  ∃ fr', get_pool_step n fr t = Ok fr'
         ∧ pool_generators fr' = spec_generator <$> keep_first kept t
         ∧ Forall2 (mask_for n) (keep_first kept t) (indices fr').
Proof.
  intros Hwf Hcov Hgen Hmasks.
  destruct (step_total n fr t Hwf Hcov) as [fr' Hstep]. exists fr'.
  split; [done|]. destruct Hwf as [Hasc _].
  apply step_Ok in Hstep as (_ & m & Hm & Hcases); [|done].
  pose proof (mask_seen n kept (indices fr) t m Hmasks Hm) as Hseen.
  unfold keep_first.
  destruct Hcases as [[[Hin|Hno] ->]|(Hnew & Heven & Hne & ->)].
  - rewrite decide_True by by apply Hseen. done.
  - destruct (decide (_ ∈ _)); [done|]. rewrite decide_False by done. done.
  - rewrite decide_False by (by rewrite <- Hseen).
    rewrite decide_True by done. simpl. rewrite fmap_app, Hgen. split; [done|].
    apply Forall2_app; [done|]. constructor; [done|constructor].
Qed.

Lemma loop_keep_first n ts : ∀ fr kept,
  Forall wf_term ts → Forall (covers n) ts →
  pool_generators fr = spec_generator <$> kept →
  Forall2 (mask_for n) kept (indices fr) →
  ∃ fr', get_pool_loop n ts fr = Ok fr'
         ∧ pool_generators fr' = spec_generator <$> foldl keep_first kept ts.
Proof.
  induction ts as [|t ts IH]; intros fr kept Hwf Hcov Hgen Hmasks.
  - exists fr. done.
  - apply Forall_cons in Hwf as [Ht Hwf]. apply Forall_cons in Hcov as [Hc Hcov].
    destruct (step_keep_first n fr kept t Ht Hc Hgen Hmasks)
      as (fr1 & Hstep & Hgen1 & Hmasks1).
    simpl. rewrite Hstep. simpl. by apply IH.
Qed.

Lemma get_pool_accepted n H :
  wf_operator H → covers_operator n H →
  get_pool H n = Ok (spec_generator <$> accepted_terms (keys H)).
Proof.
  intros Hwf Hcov. apply get_pool_Ok.
  destruct (loop_keep_first n (keys H) (entry H) [] Hwf Hcov)
    as (fr & Hloop & Hgen); [done|constructor|].
  exists fr. done.
Qed.

(** A run that returns has met no X or Y factor beyond the register. *)
Lemma loop_covers n ts : ∀ fr fr',
  Forall (ascending_from 0) ts → get_pool_loop n ts fr = Ok fr' →
  Forall (covers n) ts.
Proof.
  induction ts as [|t ts IH]; intros fr fr' Hasc; [constructor|].
  apply Forall_cons in Hasc as [Ht Hts]. simpl.
  intros (fr1 & Hstep & Hloop)%bind_Ok. constructor.
  - by apply step_Ok in Hstep as [? _].
  - by eapply IH.
Qed.

Lemma wf_operator_ascending H : wf_operator H → Forall (ascending_from 0) (keys H).
Proof. intros Hwf. eapply Forall_impl; [exact Hwf|]. by intros t [? _]. Qed.

Lemma get_pool_Ok_covers n H pool :
  wf_operator H → get_pool H n = Ok pool → covers_operator n H.
Proof.
  intros Hwf (fr & Hloop & _)%get_pool_Ok.
  eapply loop_covers; [by apply wf_operator_ascending|done].
Qed.

(** With Pauli letters for actions, the inner loop can only fail on the
    bounds of the array. *)
Lemma identify_xy_error t : ∀ ps e,
  Forall (λ f : nat * string, f.2 = "X" ∨ f.2 = "Y" ∨ f.2 = "Z") t →
  identify_xy t ps = Raise e → e = IndexError "pauli_string".
Proof.
  induction t as [|[i a] t IH]; intros ps e Hact; [done|].
  apply Forall_cons in Hact as [Ha Hact]. simpl in Ha. simpl.
  destruct Ha as [->|[->| ->]];
    rewrite ?pauli_lookup_X, ?pauli_lookup_Y, ?pauli_lookup_Z; simpl.
  - destruct (decide _); [by apply IH|by intros [= <-]].
  - destruct (decide _); [by apply IH|by intros [= <-]].
  - by apply IH.
Qed.

Lemma step_error n fr t e :
  wf_term t → get_pool_step n fr t = Raise e → e = IndexError "pauli_string".
Proof.
  intros [Hasc Hact] Hstep.
  destruct (identify_xy t (replicate n 0%Z)) as [ps|e'] eqn:Hrun.
  - destruct (step_eval n fr t ps Hasc Hrun)
      as [[_ Heq]|[(_ & _ & Heq)|(_ & _ & _ & Heq)]]; congruence.
  - unfold get_pool_step in Hstep. rewrite Hrun in Hstep. simpl in Hstep.
    injection Hstep as <-. by eapply identify_xy_error.
Qed.

Lemma loop_error n ts : ∀ fr e,
  Forall wf_term ts → get_pool_loop n ts fr = Raise e →
  e = IndexError "pauli_string".
Proof.
  induction ts as [|t ts IH]; intros fr e Hwf; [done|].
  apply Forall_cons in Hwf as [Ht Hwf]. simpl.
  destruct (get_pool_step n fr t) as [fr1|e1] eqn:Hstep; simpl.
  - by apply IH.
  - intros [= <-]. by eapply step_error.
Qed.

Lemma count_Y_xy_factors t : count_Y (xy_factors t) = count_Y t.
Proof.
  unfold count_Y, xy_factors. rewrite list_filter_filter. f_equal.
  apply list_filter_iff. intros [i a]. unfold is_xy. simpl. split.
  - by intros [? _].
  - intros ->. split; [done|by right].
Qed.

Lemma count_Y_flip_first l :
  Forall is_xy l → l ≠ [] → Nat.Even (count_Y l) → Nat.Odd (count_Y (flip_first l)).
Proof.
  intros Hxy Hne. destruct Hxy as [|[i a] r Ha _]; [done|]. clear Hne.
  unfold count_Y. simpl.
  destruct Ha as [Ha|Ha]; simpl in Ha; subst a.
  - rewrite filter_cons_False by done. rewrite filter_cons_True by done.
    simpl. intros [m Hm]. exists m. lia.
  - rewrite filter_cons_True by done. rewrite filter_cons_False by done.
    simpl. intros [m Hm]. exists (m - 1). lia.
Qed.

Lemma ascending_from_filter (P : nat * string → Prop) `{!∀ f, Decision (P f)} t :
  ∀ k, ascending_from k t → ascending_from k (filter P t).
Proof.
  induction t as [|[i a] t IH]; intros k; [done|]. intros [Hk Ht].
  rewrite filter_cons. destruct (decide _).
  - split; [done|]. by apply IH.
  - eapply ascending_from_le; [|by apply IH]. lia.
Qed.

Lemma ascending_from_flip_first k l :
  ascending_from k l → ascending_from k (flip_first l).
Proof. by destruct l as [|[i a] r]. Qed.

(** The pool only grows. *)
Lemma loop_grows n ts : ∀ fr fr',
  get_pool_loop n ts fr = Ok fr' →
  pool_generators fr `prefix_of` pool_generators fr'.
Proof.
  induction ts as [|t ts IH]; intros fr fr'; simpl.
  - by intros [= <-].
  - intros (fr1 & [_ Hstep]%step_frame & Hloop%IH)%bind_Ok.
    etrans; [|exact Hloop].
    destruct Hstep as [[_ ->]|(m & g & _ & ->)]; [done|].
    by apply prefix_app_r.
Qed.

(** The array is blind to Z factors. *)
Lemma identify_xy_without_Z t : ∀ ps,
  Forall (λ f : nat * string, f.2 = "X" ∨ f.2 = "Y" ∨ f.2 = "Z") t →
  identify_xy (xy_factors t) ps = identify_xy t ps.
Proof.
  induction t as [|[i a] t IH]; intros ps Hact; [done|].
  apply Forall_cons in Hact as [Ha Hact]. simpl in Ha.
  destruct Ha as [->|[->| ->]].
  - rewrite xy_factors_cons_xy by auto. simpl. rewrite pauli_lookup_X. simpl.
    destruct (decide _); [by apply IH|done].
  - rewrite xy_factors_cons_xy by auto. simpl. rewrite pauli_lookup_Y. simpl.
    destruct (decide _); [by apply IH|done].
  - rewrite xy_factors_cons_other by done. simpl. rewrite pauli_lookup_Z. simpl.
    by apply IH.
Qed.

Lemma loop_without_Z n ts : ∀ fr,
  Forall (Forall (λ f : nat * string, f.2 = "X" ∨ f.2 = "Y" ∨ f.2 = "Z")) ts →
  get_pool_loop n (xy_factors <$> ts) fr = get_pool_loop n ts fr.
Proof.
  induction ts as [|t ts IH]; intros fr Hact; [done|].
  apply Forall_cons in Hact as [Ht Hts]. simpl.
  assert (get_pool_step n fr (xy_factors t) = get_pool_step n fr t) as ->.
  { unfold get_pool_step. by rewrite identify_xy_without_Z. }
  destruct (get_pool_step n fr t); simpl; [by apply IH|done].
Qed.

(** The reference reading keeps a sublist, whose supports are pairwise
    distinct and include that of every acceptable term. *)
Lemma keep_first_fold ts : ∀ kept,
  ∃ more, foldl keep_first kept ts = kept ++ more
          ∧ more `sublist_of` ts
          ∧ Forall acceptable more
          ∧ (NoDup (xy_support <$> kept) → NoDup (xy_support <$> kept ++ more))
          ∧ ∀ t, t ∈ ts → acceptable t → xy_support t ∈ xy_support <$> kept ++ more.
Proof.
  induction ts as [|t ts IH]; intros kept.
  - exists []. rewrite app_nil_r. repeat split; try done.
    by intros t ?%elem_of_nil.
  - simpl. destruct (decide (xy_support t ∈ xy_support <$> kept)) as [Hseen|Hnew];
      [|destruct (decide (acceptable t)) as [Hacct|Hno]].
    + assert (keep_first kept t = kept) as ->
        by (unfold keep_first; by rewrite decide_True).
      destruct (IH kept) as (more & -> & Hsub & Hacc & Hnd & Hall).
      exists more. repeat split; try done; [by apply sublist_cons|].
      intros t' [->|Hin]%elem_of_cons Ht'; [|by apply Hall].
      rewrite fmap_app. apply elem_of_app. by left.
    + assert (keep_first kept t = kept ++ [t]) as ->
        by (unfold keep_first; rewrite decide_False by done; by rewrite decide_True).
      destruct (IH (kept ++ [t])) as (more & -> & Hsub & Hacc & Hnd & Hall).
      exists (t :: more).
      replace (kept ++ t :: more) with ((kept ++ [t]) ++ more)
        by (by rewrite <- app_assoc).
      repeat split; try done; [by apply sublist_skip|by constructor| |].
      * intros Hkept. apply Hnd. rewrite fmap_app. apply NoDup_app.
        repeat split; [done| |apply NoDup_singleton].
        intros s Hs ->%list_elem_of_singleton. done.
      * intros t' [->|Hin]%elem_of_cons Ht'; [|by apply Hall].
        rewrite !fmap_app. apply elem_of_app. left. apply elem_of_app. right.
        by apply list_elem_of_singleton.
    + assert (keep_first kept t = kept) as ->
        by (unfold keep_first; rewrite decide_False by done; by rewrite decide_False).
      destruct (IH kept) as (more & -> & Hsub & Hacc & Hnd & Hall).
      exists more. repeat split; try done; [by apply sublist_cons|].
      intros t' [->|Hin]%elem_of_cons Ht'; [done|by apply Hall].
Qed.

Lemma accepted_terms_spec ts :
  accepted_terms ts `sublist_of` ts
  ∧ Forall acceptable (accepted_terms ts)
  ∧ NoDup (xy_support <$> accepted_terms ts)
  ∧ ∀ t, t ∈ ts → acceptable t → xy_support t ∈ xy_support <$> accepted_terms ts.
Proof.
  unfold accepted_terms.
  destruct (keep_first_fold ts []) as (more & -> & ? & ? & Hnd & ?). simpl in *.
  repeat split; try done. apply Hnd. constructor.
Qed.

(** For well-formed terms within the register, the sorted list of X/Y
    qubits and the set of X/Y qubits carry the same information. *)
Lemma xy_qubits_support n t1 t2 :
  wf_term t1 → wf_term t2 → covers n t1 → covers n t2 →
  xy_qubits t1 = xy_qubits t2 ↔ xy_support t1 = xy_support t2.
Proof.
  intros Hwf1 Hwf2 Hc1 Hc2.
  destruct (identify_xy_total n t1 (replicate n 0%Z) Hwf1 Hc1) as [ps1 H1];
    [by rewrite length_replicate|].
  destruct (identify_xy_total n t2 (replicate n 0%Z) Hwf2 Hc2) as [ps2 H2];
    [by rewrite length_replicate|].
  destruct Hwf1 as [Ha1 _], Hwf2 as [Ha2 _].
  pose proof (identify_xy_mask n t1 ps1 Ha1 H1) as Hm1.
  pose proof (identify_xy_mask n t2 ps2 Ha2 H2) as Hm2.
  rewrite <- (mask_for_inj n t1 t2 _ _ Hm1 Hm2).
  by rewrite <- (mask_for_support n t1 t2 _ _ Hm1 Hm2).
Qed.

(** The loop follows [keep_first], masks included. *)
Lemma loop_keep_first_masks n ts : ∀ fr kept,
  Forall wf_term ts → Forall (covers n) ts →
  pool_generators fr = spec_generator <$> kept →
  Forall2 (mask_for n) kept (indices fr) →
  ∃ fr', get_pool_loop n ts fr = Ok fr'
         ∧ pool_generators fr' = spec_generator <$> foldl keep_first kept ts
         ∧ Forall2 (mask_for n) (foldl keep_first kept ts) (indices fr').
Proof.
  induction ts as [|t ts IH]; intros fr kept Hwf Hcov Hgen Hmasks.
  - exists fr. done.
  - apply Forall_cons in Hwf as [Ht Hwf]. apply Forall_cons in Hcov as [Hc Hcov].
    destruct (step_keep_first n fr kept t Ht Hc Hgen Hmasks)
      as (fr1 & Hstep & Hgen1 & Hmasks1).
    simpl. rewrite Hstep. simpl. by apply IH.
Qed.

(** Whether the loop, having met the terms [before], accepts an acceptable
    term [t]: it does when no acceptable term of the same X/Y qubits came
    before, and passes it by, the frame untouched, when one did. *)
Lemma step_after n H before t :
  Forall wf_term before → Forall (covers n) before →
  wf_term t → covers n t → acceptable t →
  ∃ fr, get_pool_loop n before (entry H) = Ok fr
        ∧ ((∀ t', t' ∈ before → xy_qubits t' = xy_qubits t → Nat.Odd (count_Y t')) →
           ∃ m, (m ∉ indices fr) ∧ get_pool_step n fr t = Ok (accept fr t m))
        ∧ ((∃ t', t' ∈ before ∧ xy_qubits t' = xy_qubits t ∧ Nat.Even (count_Y t')) →
           (∃ m, mask_for n t m ∧ m ∈ indices fr) ∧ get_pool_step n fr t = Ok fr).
Proof.
  intros Hwfs Hcovs Hwf Hcov [Heven Hne].
  destruct (loop_keep_first_masks n before (entry H) [] Hwfs Hcovs)
    as (fr & Hloop & Hgen & Hmasks); [done|constructor|].
  fold (accepted_terms before) in Hgen, Hmasks.
  destruct (accepted_terms_spec before) as (Hsub & Hacc & _ & Hall).
  exists fr. split; [done|].
  destruct (step_total n fr t Hwf Hcov) as [fr' Hstep].
  pose proof Hwf as [Hasc _].
  pose proof Hstep as (_ & m & Hm & Hcases)%step_Ok; [|done].
  pose proof (mask_seen n _ _ t m Hmasks Hm) as Hseen.
  assert (∀ t', t' ∈ before → wf_term t' ∧ covers n t') as Hok.
  { intros t' Hin. rewrite Forall_forall in Hwfs, Hcovs. auto. }
  split.
  - intros Hodd. exists m.
    assert (m ∉ indices fr) as Hnew.
    { intros (t' & Heq & Hin)%Hseen%list_elem_of_fmap.
      assert (t' ∈ before) as Hbefore by (by eapply elem_of_sublist).
      rewrite Forall_forall in Hacc. destruct (Hacc t' Hin) as [Heven' _].
      destruct (Hok t' Hbefore) as [Hwf' Hcov'].
      apply (Nat.Even_Odd_False _ Heven'), Hodd; [done|].
      by apply (xy_qubits_support n). }
    split; [done|].
    destruct Hcases as [[[?|Hno] _]|(_ & _ & _ & ->)]; [done| |done].
    destruct Hno. by split.
  - intros (t' & Hbefore & Hsame & Heven').
    destruct (Hok t' Hbefore) as [Hwf' Hcov'].
    apply (xy_qubits_support n) in Hsame; [|done..].
    assert (acceptable t') as Hacc'.
    { split; [done|]. unfold has_xy in *. intros Hnil. apply Hne.
      unfold xy_support in Hsame. rewrite Hnil in Hsame.
      by destruct (xy_factors t). }
    assert (m ∈ indices fr) as Hin.
    { apply Hseen. rewrite <- Hsame. by apply Hall. }
    split; [by exists m|].
    destruct Hcases as [[_ ->]|(Hnew & _)]; done.
Qed.

End PoolRefFacts.

(** ** The claim about the action masks of [get_pool] *)

Section PoolMaskClaim.
Import Pool PoolSpec PoolAux PoolFacts PoolRef PoolRefFacts.

(** C8, amended: a term with an odd number of Y factors never consumes its
    action mask, the list of used masks growing only together with the
    pool.  So an even-Y term [t] with an X or Y factor, met after the terms
    [before], produces its generator when every earlier term on the same
    X/Y qubits has an odd number of Y factors; and when an earlier term on
    these qubits has an even number, that term has consumed the mask and
    [t] is skipped: its pass leaves masks and pool as they were. *)
Theorem even_Y_after_odd_Y_produces
    (n_qubits : nat) (H : QubitOperator) (before : list term) (t : term) :
  Forall wf_term before → Forall (covers n_qubits) before →
  wf_term t → covers n_qubits t →
  Nat.Even (count_Y t) → has_xy t →
  (* masks and pool grow together, or not at all *)
  (∀ fr u fr', get_pool_step n_qubits fr u = Ok fr' →
      (indices fr' = indices fr ∧ pool_generators fr' = pool_generators fr)
      ∨ ∃ m g, indices fr' = indices fr ++ [m]
               ∧ pool_generators fr' = pool_generators fr ++ [g])
  (* an odd-Y term leaves them as they were *)
  ∧ (∀ fr u, wf_term u → covers n_qubits u → Nat.Odd (count_Y u) →
       get_pool_step n_qubits fr u = Ok fr)
  (* after odd-Y terms only, [t] is accepted *)
  ∧ ((∀ t', t' ∈ before → xy_qubits t' = xy_qubits t → Nat.Odd (count_Y t')) →
     produces n_qubits H before t (spec_generator t))
  (* after an even-Y term on its qubits, [t] is skipped *)
  ∧ ((∃ t', t' ∈ before ∧ xy_qubits t' = xy_qubits t ∧ Nat.Even (count_Y t')) →
     (∃ fr m, get_pool_loop n_qubits before (entry H) = Ok fr
              ∧ mask_for n_qubits t m ∧ m ∈ indices fr
              ∧ get_pool_step n_qubits fr t = Ok fr)
     ∧ ¬ ∃ g, produces n_qubits H before t g).
Proof.
  intros Hwfs Hcovs Hwf Hcov Heven Hne.
  split; [intros fr u fr' Hstep; by apply step_frame in Hstep as [_ ?]|].
  split; [intros fr u Hu Hc Hodd; apply step_rejects; auto|].
  destruct (step_after n_qubits H before t Hwfs Hcovs Hwf Hcov (conj Heven Hne))
    as (fr & Hloop & Hyes & Hno).
  split.
  - intros Hodd. destruct (Hyes Hodd) as (m & _ & Hstep).
    exists fr, (accept fr t m). done.
  - intros Hearlier. destruct (Hno Hearlier) as [(m & Hm & Hin) Hstep].
    split; [by exists fr, m|].
    intros (g & fr1 & fr2 & Hloop1 & Hstep1 & Hpool).
    rewrite Hloop in Hloop1. injection Hloop1 as <-.
    rewrite Hstep in Hstep1. injection Hstep1 as <-.
    apply (f_equal length) in Hpool. rewrite length_app in Hpool.
    simpl in Hpool. lia.
Qed.

Lemma XX_XY_YY_terms_ok u :
  u = t_XX ∨ u = t_XY ∨ u = t_YY → wf_term u ∧ covers 2 u.
Proof.
  intros [-> |[-> | ->]]; (split; [split|]).
  all: try (simpl; repeat (split; [lia|]); exact I).
  all: repeat (apply Forall_cons; split; [simpl; auto; intros; lia|]);
    constructor.
Defined.

Lemma even_Y_after_odd_Y_produces_witness :
  (∀ fr u fr', get_pool_step 2 fr u = Ok fr' →
      (indices fr' = indices fr ∧ pool_generators fr' = pool_generators fr)
      ∨ ∃ m g, indices fr' = indices fr ++ [m]
               ∧ pool_generators fr' = pool_generators fr ++ [g])
  ∧ (∀ fr u, wf_term u → covers 2 u → Nat.Odd (count_Y u) →
       get_pool_step 2 fr u = Ok fr)
  ∧ ((∀ t', t' ∈ [t_XX; t_XY] → xy_qubits t' = xy_qubits t_YY →
            Nat.Odd (count_Y t')) →
     produces 2 H_XX_XY_YY [t_XX; t_XY] t_YY (spec_generator t_YY))
  ∧ ((∃ t', t' ∈ [t_XX; t_XY] ∧ xy_qubits t' = xy_qubits t_YY
            ∧ Nat.Even (count_Y t')) →
     (∃ fr m, get_pool_loop 2 [t_XX; t_XY] (entry H_XX_XY_YY) = Ok fr
              ∧ mask_for 2 t_YY m ∧ m ∈ indices fr
              ∧ get_pool_step 2 fr t_YY = Ok fr)
     ∧ ¬ ∃ g, produces 2 H_XX_XY_YY [t_XX; t_XY] t_YY g).
Proof.
  apply (even_Y_after_odd_Y_produces 2 H_XX_XY_YY [t_XX; t_XY] t_YY).
  - repeat (apply Forall_cons; split; [apply XX_XY_YY_terms_ok; auto|]).
    constructor.
  - repeat (apply Forall_cons; split; [apply XX_XY_YY_terms_ok; auto|]).
    constructor.
  - apply XX_XY_YY_terms_ok; auto.
  - apply XX_XY_YY_terms_ok; auto.
  - by exists 1.
  - done.
Defined.

End PoolMaskClaim.

(** ** Further properties of [get_pool] *)

Section PoolExtras.
Import Pool PoolSpec PoolAux PoolFacts PoolRef PoolRefFacts.

Lemma H_mixed_wf : wf_operator H_mixed.
Proof.
  repeat (apply Forall_cons; split;
          [split; [simpl; repeat (split; [lia|]); exact I
                  |repeat (apply Forall_cons; split; [simpl; auto|]); constructor]|]).
  constructor.
Defined.

Lemma H_mixed_covers : covers_operator 3 H_mixed.
Proof.
  repeat (apply Forall_cons; split;
          [repeat (apply Forall_cons; split; [simpl; intros; lia|]); constructor|]).
  constructor.
Defined.

Lemma H_mixed_covers_5 : covers_operator 5 H_mixed.
Proof.
  repeat (apply Forall_cons; split;
          [repeat (apply Forall_cons; split; [simpl; intros; lia|]); constructor|]).
  constructor.
Defined.

(** X1: on a well-formed Hamiltonian whose X/Y factors lie below
    [n_qubits], [get_pool] returns, in the order of the Hamiltonian, the
    generators of exactly those terms that are acceptable (even number of Y,
    some X or Y) and whose X/Y support no earlier kept term has. *)
Theorem get_pool_keeps_first_per_support (n_qubits : nat) (H : QubitOperator) :
  wf_operator H → covers_operator n_qubits H →
  get_pool H n_qubits = Ok (spec_generator <$> accepted_terms (keys H)).
Proof. apply get_pool_accepted. Qed.

Lemma get_pool_keeps_first_per_support_witness :
  get_pool H_mixed 3 = Ok (spec_generator <$> accepted_terms (keys H_mixed)).
Proof.
  exact (get_pool_keeps_first_per_support 3 H_mixed H_mixed_wf H_mixed_covers).
Defined.

(** X2: once [n_qubits] covers the X/Y factors, the pool does not depend on
    it. *)
Theorem get_pool_any_covering_n_qubits (n n' : nat) (H : QubitOperator) :
  wf_operator H → covers_operator n H → covers_operator n' H →
  get_pool H n = get_pool H n'.
Proof.
  intros Hwf Hn Hn'. by rewrite !get_pool_accepted.
Qed.

Lemma get_pool_any_covering_n_qubits_witness :
  get_pool H_mixed 3 = get_pool H_mixed 5.
Proof.
  exact (get_pool_any_covering_n_qubits 3 5 H_mixed H_mixed_wf H_mixed_covers
           H_mixed_covers_5).
Defined.

(** X3: on a well-formed Hamiltonian [get_pool] raises exactly when some
    X or Y factor sits on a qubit at or beyond [n_qubits], and what it
    raises is the IndexError of the array write. *)
Theorem get_pool_raises_iff_not_covered (n_qubits : nat) (H : QubitOperator) :
  wf_operator H →
  ((∃ e, get_pool H n_qubits = Raise e) ↔ ¬ covers_operator n_qubits H)
  ∧ ∀ e, get_pool H n_qubits = Raise e → e = IndexError "pauli_string".
Proof.
  intros Hwf. split; [split|].
  - intros [e He] Hcov. by rewrite get_pool_accepted in He.
  - intros Hno. destruct (get_pool H n_qubits) as [pool|e] eqn:Hrun; [|eauto].
    destruct Hno. by eapply get_pool_Ok_covers.
  - intros e. unfold get_pool, get_pool_run. simpl.
    destruct (get_pool_loop _ _ _) as [fr|e'] eqn:Hloop; [done|].
    intros [= <-]. by eapply loop_error.
Qed.

Lemma get_pool_raises_iff_not_covered_witness :
  get_pool H_mixed 2 = Raise (IndexError "pauli_string")
  ∧ ¬ covers_operator 2 H_mixed.
Proof.
  destruct (get_pool_raises_iff_not_covered 2 H_mixed H_mixed_wf) as [Hiff _].
  split; [reflexivity|]. apply Hiff. eexists. reflexivity.
Defined.

(** X4: every generator of the pool is a single Pauli string under the
    coefficient 1.0j, with X and Y factors only, sorted by qubit, all below
    [n_qubits], and with an odd number of Y factors. *)
Theorem get_pool_generators_odd_Y
    (n_qubits : nat) (H : QubitOperator) (pool : list QubitOperator) :
  wf_operator H → get_pool H n_qubits = Ok pool →
  ∀ g, g ∈ pool →
    ∃ p, terms g = [(p, Complex 0 1)]
         ∧ Forall is_xy p
         ∧ ascending_from 0 p
         ∧ Forall (λ f, f.1 < n_qubits) p
         ∧ Nat.Odd (count_Y p).
Proof.
  intros Hwf Hrun g Hg.
  pose proof (get_pool_Ok_covers _ _ _ Hwf Hrun) as Hcov.
  rewrite get_pool_accepted in Hrun by done. injection Hrun as <-.
  apply list_elem_of_fmap in Hg as (t & -> & Ht).
  destruct (accepted_terms_spec (keys H)) as (Hsub & Hacc & _ & _).
  assert (t ∈ keys H) as Hin by (by eapply elem_of_sublist).
  unfold wf_operator, covers_operator in Hwf, Hcov.
  rewrite Forall_forall in Hacc, Hwf, Hcov.
  destruct (Hacc t Ht) as [Heven Hne]. destruct (Hwf t Hin) as [Hasc _].
  specialize (Hcov t Hin).
  exists (flip_first (xy_factors t)). split; [done|].
  pose proof (xy_factors_Forall t) as Hxy.
  assert (Forall (λ f : nat * string, f.1 < n_qubits) (xy_factors t)) as Hlt.
  { apply Forall_forall. intros f [Hf Hft]%list_elem_of_filter.
    unfold covers in Hcov. rewrite Forall_forall in Hcov. by apply Hcov. }
  split; [|split; [|split]].
  - destruct (xy_factors t) as [|[i a] r]; [done|].
    apply Forall_cons in Hxy as [Ha Hr]. constructor; [|done].
    destruct Ha as [Ha|Ha]; simpl in Ha; subst a; [by right|by left].
  - by apply ascending_from_flip_first, ascending_from_filter.
  - destruct (xy_factors t) as [|[i a] r]; [done|].
    apply Forall_cons in Hlt as [Hi Hr]. by constructor.
  - apply count_Y_flip_first; [done|done|]. by rewrite count_Y_xy_factors.
Qed.

Lemma get_pool_generators_odd_Y_witness :
  ∃ p, terms (QubitOperator_of [(0, "X"); (2, "Y")] j1) = [(p, Complex 0 1)]
       ∧ Forall is_xy p
       ∧ ascending_from 0 p
       ∧ Forall (λ f, f.1 < 3) p
       ∧ Nat.Odd (count_Y p).
Proof.
  apply (get_pool_generators_odd_Y 3 H_mixed
           [QubitOperator_of [(0, "X"); (2, "Y")] j1;
            QubitOperator_of [(1, "Y"); (2, "X")] j1]).
  - exact H_mixed_wf.
  - vm_compute. reflexivity.
  - left.
Defined.

(** X5: Z factors never matter: the Hamiltonian with the Z factors of its
    terms removed gives the same pool, or the same exception. *)
Theorem get_pool_ignores_Z (n_qubits : nat) (H : QubitOperator) :
  pauli_actions H → get_pool (without_Z H) n_qubits = get_pool H n_qubits.
Proof.
  intros Hact. unfold get_pool, get_pool_run. simpl.
  assert (keys (without_Z H) = xy_factors <$> keys H) as ->.
  { unfold keys, without_Z. simpl. rewrite <- !list_fmap_compose.
    apply list_fmap_ext. by intros _ [t c] _. }
  rewrite loop_without_Z by done.
  change (entry (without_Z H)) with (rebase (without_Z H) (entry H)).
  rewrite loop_rebase. by destruct (get_pool_loop n_qubits (keys H) (entry H)).
Qed.

Lemma get_pool_ignores_Z_witness :
  get_pool (without_Z H_mixed) 3 = get_pool H_mixed 3.
Proof.
  apply get_pool_ignores_Z.
  repeat (apply Forall_cons; split;
          [repeat (apply Forall_cons; split; [simpl; auto|]); constructor|]).
  constructor.
Defined.

(** X6: the pool has exactly one generator for each X/Y support that an
    acceptable term of the Hamiltonian has: every such term finds a
    generator on its qubits, and the pool is as long as the number of these
    supports. *)
Theorem get_pool_one_generator_per_acceptable_support
    (n_qubits : nat) (H : QubitOperator) (pool : list QubitOperator) :
  wf_operator H → get_pool H n_qubits = Ok pool →
  (∀ t, t ∈ keys H → acceptable t →
        ∃ g, g ∈ pool ∧ generator_qubits g = xy_qubits t)
  ∧ length pool
    = size (list_to_set (xy_qubits <$> filter acceptable (keys H)) : gset (gset nat)).
Proof.
  intros Hwf Hrun.
  pose proof (get_pool_Ok_covers _ _ _ Hwf Hrun) as Hcov.
  rewrite get_pool_accepted in Hrun by done. injection Hrun as <-.
  destruct (accepted_terms_spec (keys H)) as (Hsub & Hacc & Hnd & Hall).
  set (kept := accepted_terms (keys H)) in *.
  assert (∀ t, t ∈ kept → t ∈ keys H ∧ wf_term t ∧ covers n_qubits t) as Hkept.
  { intros t Ht. assert (t ∈ keys H) as Hin by (by eapply elem_of_sublist).
    unfold wf_operator, covers_operator in Hwf, Hcov.
    rewrite Forall_forall in Hwf, Hcov. auto. }
  split.
  - intros t Hin Ht. apply Hall in Ht as (t' & Heq & Ht')%list_elem_of_fmap; [|done].
    exists (spec_generator t'). split; [apply list_elem_of_fmap; eauto|].
    rewrite spec_generator_qubits. unfold xy_qubits. by rewrite Heq.
  - rewrite length_fmap, <- (length_fmap xy_qubits).
    assert (NoDup (xy_qubits <$> kept)) as Hdistinct.
    { eapply (NoDup_fmap_transfer xy_qubits xy_support); [|exact Hnd].
      intros t1 t2 H1 H2.
      destruct (Hkept t1 H1) as (_ & ? & ?), (Hkept t2 H2) as (_ & ? & ?).
      by apply (xy_qubits_support n_qubits). }
    rewrite <- (size_list_to_set (C := gset (gset nat))) by done.
    f_equal. apply set_eq. intros s. rewrite !elem_of_list_to_set. split.
    + intros (t & -> & Ht)%list_elem_of_fmap. apply list_elem_of_fmap.
      exists t. split; [done|]. apply list_elem_of_filter.
      rewrite Forall_forall in Hacc. split; [by apply Hacc|by apply Hkept].
    + intros (t & -> & [Ht Hin]%list_elem_of_filter)%list_elem_of_fmap.
      apply Hall in Ht as (t' & Heq & Ht')%list_elem_of_fmap; [|done].
      apply list_elem_of_fmap. exists t'. split; [|done].
      unfold xy_qubits. by rewrite Heq.
Qed.

Lemma get_pool_one_generator_per_acceptable_support_witness :
  (∀ t, t ∈ keys H_mixed → acceptable t →
        ∃ g, g ∈ [QubitOperator_of [(0, "X"); (2, "Y")] j1;
                  QubitOperator_of [(1, "Y"); (2, "X")] j1]
             ∧ generator_qubits g = xy_qubits t)
  ∧ 2 = size (list_to_set (xy_qubits <$> filter acceptable (keys H_mixed))
              : gset (gset nat)).
Proof.
  apply (get_pool_one_generator_per_acceptable_support 3 H_mixed
           [QubitOperator_of [(0, "X"); (2, "Y")] j1;
            QubitOperator_of [(1, "Y"); (2, "X")] j1]).
  - exact H_mixed_wf.
  - vm_compute. reflexivity.
Defined.

(** X7: the generators come in the order of the terms that produce them:
    these terms form a subsequence of the terms of the Hamiltonian, each of
    them acceptable. *)
Theorem get_pool_in_hamiltonian_order
    (n_qubits : nat) (H : QubitOperator) (pool : list QubitOperator) :
  wf_operator H → get_pool H n_qubits = Ok pool →
  ∃ kept, kept `sublist_of` keys H
          ∧ Forall acceptable kept
          ∧ pool = spec_generator <$> kept.
Proof.
  intros Hwf Hrun.
  pose proof (get_pool_Ok_covers _ _ _ Hwf Hrun) as Hcov.
  rewrite get_pool_accepted in Hrun by done. injection Hrun as <-.
  destruct (accepted_terms_spec (keys H)) as (Hsub & Hacc & _ & _). eauto.
Qed.

Lemma get_pool_in_hamiltonian_order_witness :
  ∃ kept, kept `sublist_of` keys H_mixed
          ∧ Forall acceptable kept
          ∧ [QubitOperator_of [(0, "X"); (2, "Y")] j1;
             QubitOperator_of [(1, "Y"); (2, "X")] j1]
            = spec_generator <$> kept.
Proof.
  apply (get_pool_in_hamiltonian_order 3 H_mixed).
  - exact H_mixed_wf.
  - vm_compute. reflexivity.
Defined.

(** X8: terms added at the end of the Hamiltonian only add generators at
    the end of the pool; and a Hamiltonian on which [get_pool] raises keeps
    raising however it is extended. *)
Theorem get_pool_extends (n_qubits : nat) (H H' : QubitOperator) (more : list term) :
  keys H' = keys H ++ more →
  (∀ pool pool', get_pool H n_qubits = Ok pool → get_pool H' n_qubits = Ok pool' →
                 pool `prefix_of` pool')
  ∧ (∀ e, get_pool H n_qubits = Raise e → get_pool H' n_qubits = Raise e).
Proof.
  intros Hkeys.
  assert (get_pool H' n_qubits
          = bind (get_pool_loop n_qubits (keys H) (entry H))
              (λ fr, bind (get_pool_loop n_qubits more fr)
                       (λ fr', Ok (pool_generators fr')))) as Hrun'.
  { unfold get_pool, get_pool_run. simpl. rewrite Hkeys, loop_app.
    change (entry H') with (rebase H' (entry H)). rewrite loop_rebase.
    destruct (get_pool_loop n_qubits (keys H) (entry H)) as [fr|]; simpl; [|done].
    rewrite loop_rebase. by destruct (get_pool_loop n_qubits more fr). }
  rewrite Hrun'. unfold get_pool, get_pool_run. simpl.
  destruct (get_pool_loop n_qubits (keys H) (entry H)) as [fr|e0]; simpl.
  - split; [|done]. intros pool pool' [= <-].
    destruct (get_pool_loop n_qubits more fr) as [fr'|] eqn:Hmore; simpl; [|done].
    intros [= <-]. by eapply loop_grows.
  - split; [done|]. by intros e [= <-].
Qed.

Lemma get_pool_extends_witness :
  [QubitOperator_of [(0, "X"); (2, "Y")] j1;
   QubitOperator_of [(1, "Y"); (2, "X")] j1]
  `prefix_of`
  [QubitOperator_of [(0, "X"); (2, "Y")] j1;
   QubitOperator_of [(1, "Y"); (2, "X")] j1;
   QubitOperator_of [(0, "X"); (1, "Y")] j1].
Proof.
  eapply (proj1 (get_pool_extends 3 H_mixed H_mixed_more
                   [[(0, "Y"); (1, "Y")]] eq_refl)).
  - vm_compute. reflexivity.
  - vm_compute. reflexivity.
Defined.

End PoolExtras.

(** ** Further facts about the ansatz *)

Module HeaRefFacts.
Import Hea HeaFacts HeaRef.

Lemma EntanglerCircuit_gates n :
  EntanglerCircuit n
  = (seq 0 (n / 2) ≫= λ ii, [CNOT (2 * ii) (2 * ii + 1)])
    ++ (seq 0 (n / 2 - 1) ≫= λ ii, [CNOT (2 * ii + 1) (2 * (ii + 1))]).
Proof.
  unfold EntanglerCircuit, for_range, add_gate.
  rewrite (foldl_append _ (λ ii, [CNOT (2 * ii + 1) (2 * (ii + 1))])) by done.
  by rewrite (foldl_append _ (λ ii, [CNOT (2 * ii) (2 * ii + 1)])) by done.
Qed.

Lemma length_bind_const {A B : Type} (f : A → list B) (l : list A) k :
  (∀ x, length (f x) = k) → length (l ≫= f) = length l * k.
Proof.
  intros Hf. induction l as [|x l IH]; [done|].
  rewrite bind_cons, length_app, IH, Hf. simpl. lia.
Qed.

Lemma EntanglerCircuit_size n : size (EntanglerCircuit n) = n / 2 + (n / 2 - 1).
Proof.
  unfold size. rewrite EntanglerCircuit_gates, length_app.
  rewrite !(length_bind_const _ _ 1) by done. rewrite !length_seq. lia.
Qed.

Lemma EntanglerCircuit_elem n g :
  g ∈ EntanglerCircuit n ↔ ∃ c, g = CNOT c (c + 1) ∧ c + 1 < 2 * (n / 2).
Proof.
  rewrite EntanglerCircuit_gates, elem_of_app, !list_elem_of_bind. split.
  - intros [(ii & ->%list_elem_of_singleton & Hii%elem_of_seq)
           |(ii & ->%list_elem_of_singleton & Hii%elem_of_seq)].
    + exists (2 * ii). split; [done|lia].
    + exists (2 * ii + 1). split; [f_equal; lia|lia].
  - intros (c & -> & Hc).
    destruct (Nat.Even_or_Odd c) as [[ii ->]|[ii ->]].
    + left. exists ii. split; [by apply list_elem_of_singleton|].
      apply elem_of_seq. lia.
    + right. exists ii. split.
      * apply list_elem_of_singleton. f_equal; lia.
      * apply elem_of_seq. lia.
Qed.

Lemma EulerCircuit_size n : size (EulerCircuit n) = n * 3.
Proof.
  unfold size. rewrite EulerCircuit_gates.
  rewrite (length_bind_const _ _ 3) by done. by rewrite length_seq.
Qed.

Lemma EulerCircuit_elem n g :
  g ∈ EulerCircuit n ↔ ∃ q, q < n ∧ (g = rotation "RZ" q ∨ g = rotation "RX" q).
Proof.
  rewrite EulerCircuit_gates, list_elem_of_bind. split.
  - intros (q & Hg & Hq%elem_of_seq). exists q. split; [lia|].
    rewrite !elem_of_cons in Hg. destruct Hg as [->|[->|[->|?%elem_of_nil]]]; auto.
    done.
  - intros (q & Hq & Hg). exists q. split; [|apply elem_of_seq; lia].
    rewrite !elem_of_cons. destruct Hg as [->| ->]; auto.
Qed.

(** [HEACircuit]: an Euler layer, then [n_layers] times an entangler and an
    Euler layer. *)
Lemma HEACircuit_layers n layers :
  HEACircuit n layers
  = EulerCircuit n
    ++ (seq 0 layers ≫= λ _, EntanglerCircuit n ++ EulerCircuit n).
Proof.
  unfold HEACircuit, for_range.
  apply (foldl_append _ (λ _, EntanglerCircuit n ++ EulerCircuit n)).
  intros c _. by rewrite <- app_assoc.
Qed.

Lemma HEACircuit_elem n layers g :
  g ∈ HEACircuit n layers →
  g ∈ EulerCircuit n ∨ (0 < layers ∧ g ∈ EntanglerCircuit n).
Proof.
  rewrite HEACircuit_layers, elem_of_app, list_elem_of_bind.
  intros [?|(ii & [?|?]%elem_of_app & Hii%elem_of_seq)]; auto.
  right. split; [lia|done].
Qed.

(** *** Reading a gate out of a circuit built layer by layer *)

Lemma lookup_bind_const {A B : Type} (f : A → list B) (k : nat) :
  (∀ x, length (f x) = k) → 0 < k →
  ∀ (l : list A) j, (l ≫= f) !! j = l !! (j / k) ≫= λ x, f x !! (j mod k).
Proof.
  intros Hf Hk. induction l as [|x l IH]; intros j.
  - by rewrite lookup_nil.
  - rewrite bind_cons.
    pose proof (Nat.div_mod_eq j k) as Hj.
    pose proof (Nat.mod_upper_bound j k ltac:(lia)) as Hr.
    destruct (decide (j < k)) as [Hlt|Hge].
    + rewrite lookup_app_l by (rewrite Hf; lia).
      rewrite Nat.div_small, Nat.mod_small by lia. done.
    + rewrite lookup_app_r by (rewrite Hf; lia). rewrite Hf, IH.
      destruct (j / k) as [|q] eqn:Hq; [lia|].
      assert (j - k = k * q + j mod k) as Hjk by lia.
      rewrite <- (Nat.div_unique (j - k) k q (j mod k)) by lia.
      rewrite <- (Nat.mod_unique (j - k) k q (j mod k)) by lia.
      done.
Qed.

Lemma variational_all c :
  Forall (λ g, is_variational g = true) c → variational c = c.
Proof.
  induction 1 as [|g c Hg _ IH]; [done|]. unfold variational in *.
  by rewrite filter_cons_True, IH.
Qed.

Lemma EulerCircuit_all_variational n :
  Forall (λ g, is_variational g = true) (EulerCircuit n).
Proof.
  apply Forall_forall. intros g (q & _ & [-> | ->])%EulerCircuit_elem; done.
Qed.

Lemma bind_const_length {A B : Type} (c : list B) (l1 : list A) : ∀ l2 : list A,
  length l1 = length l2 → l1 ≫= (λ _, c) = l2 ≫= (λ _, c).
Proof.
  induction l1 as [|x l1 IH]; intros [|y l2] Hlen; try done.
  rewrite !bind_cons. f_equal. apply IH. by injection Hlen.
Qed.

Lemma HEACircuit_variational_layers n layers :
  variational (HEACircuit n layers) = seq 0 (layers + 1) ≫= λ _, EulerCircuit n.
Proof.
  rewrite HEACircuit_layers, variational_app.
  rewrite (variational_all (EulerCircuit n)) by apply EulerCircuit_all_variational.
  replace (layers + 1) with (S layers) by lia.
  rewrite <- cons_seq, bind_cons. f_equal.
  rewrite (bind_const_length _ (seq 1 layers) (seq 0 layers))
    by (by rewrite !length_seq).
  induction (seq 0 layers) as [|x l IH]; [done|].
  rewrite !bind_cons, variational_app, IH, variational_app.
  rewrite EntanglerCircuit_variational.
  by rewrite (variational_all (EulerCircuit n)) by apply EulerCircuit_all_variational.
Qed.

Lemma EulerCircuit_lookup n j :
  j < n * 3 → EulerCircuit n !! j = Some (rotation (axis (j mod 3)) (j / 3)).
Proof.
  intros Hj. rewrite EulerCircuit_gates.
  rewrite (lookup_bind_const _ 3) by (done || lia).
  assert (j / 3 < n) as Hq by (apply Nat.Div0.div_lt_upper_bound; lia).
  pose proof (Nat.mod_upper_bound j 3 ltac:(lia)) as Hr.
  set (q := j / 3) in *. set (r := j mod 3) in *. clearbody q r.
  rewrite lookup_seq_lt by done. simpl.
  destruct r as [|[|[|r]]]; try done; lia.
Qed.

Lemma HEACircuit_variational_lookup n layers k :
  k < n * 3 * (layers + 1) →
  variational (HEACircuit n layers) !! k
  = Some (rotation (axis (k mod 3)) ((k / 3) mod n)).
Proof.
  intros Hk. rewrite HEACircuit_variational_layers.
  assert (0 < n) as Hn by lia.
  rewrite (lookup_bind_const _ (n * 3)); [| |lia].
  2:{ intros _. apply EulerCircuit_size. }
  assert (k / (n * 3) < layers + 1) as Hq
    by (apply Nat.Div0.div_lt_upper_bound; lia).
  rewrite lookup_seq_lt by done.
  cbv beta iota delta [mbind option_bind].
  rewrite EulerCircuit_lookup by (apply Nat.mod_upper_bound; lia).
  replace (n * 3) with (3 * n) by lia.
  rewrite (Nat.Div0.mod_mul_r k 3 n).
  pose proof (Nat.mod_upper_bound k 3 ltac:(lia)) as Hr.
  set (m := (k / 3) mod n).
  rewrite <- (Nat.mod_unique (k mod 3 + 3 * m) 3 m (k mod 3)) by lia.
  by rewrite <- (Nat.div_unique (k mod 3 + 3 * m) 3 m (k mod 3)) by lia.
Qed.

(** *** What an assignment of parameters changes *)

Lemma variational_assign_zip c : ∀ vs,
  length vs = length (variational c) →
  variational (assign c vs) = zip_with set_parameter vs (variational c).
Proof.
  unfold variational. induction c as [|g c IH]; intros vs; simpl.
  - by destruct vs.
  - destruct (is_variational g) eqn:Hg.
    + rewrite (filter_cons_True _ g) by done. destruct vs as [|v vs]; [done|].
      simpl. intros [= Hlen]. rewrite filter_cons_True by done. by rewrite IH.
    + rewrite !filter_cons_False by congruence. apply IH.
Qed.

Lemma assign_assign c : ∀ vs ws,
  length vs ≤ length ws → assign (assign c vs) ws = assign c ws.
Proof.
  induction c as [|g c IH]; intros vs ws Hlen; [done|]. simpl.
  destruct (is_variational g) eqn:Hg.
  - destruct vs as [|v vs]; simpl; rewrite Hg.
    + done.
    + destruct ws as [|w ws]; simpl in *; [lia|].
      rewrite IH by lia. done.
  - simpl. rewrite Hg. by rewrite IH.
Qed.

Lemma shape_assign c : ∀ vs, shape <$> assign c vs = shape <$> c.
Proof.
  induction c as [|g c IH]; intros vs; [done|]. simpl.
  destruct (is_variational g) eqn:Hg.
  - destruct vs as [|v vs]; [done|]. simpl. by rewrite IH.
  - simpl. by rewrite IH.
Qed.

Lemma fixed_gates_assign c : ∀ vs, fixed_gates (assign c vs) = fixed_gates c.
Proof.
  unfold fixed_gates. induction c as [|g c IH]; intros vs; [done|]. simpl.
  destruct (is_variational g) eqn:Hg.
  - destruct vs as [|v vs]; [done|].
    rewrite !filter_cons_False by (simpl; congruence). apply IH.
  - rewrite !filter_cons_True by done. by rewrite IH.
Qed.

Lemma assign_prefix c : ∀ vs,
  length vs ≤ length (variational c) →
  parameter <$> take (length vs) (variational (assign c vs)) = Some <$> vs
  ∧ drop (length vs) (variational (assign c vs)) = drop (length vs) (variational c).
Proof.
  unfold variational. induction c as [|g c IH]; intros vs; simpl.
  - destruct vs; [done|simpl; lia].
  - destruct (is_variational g) eqn:Hg.
    + rewrite (filter_cons_True _ g) by done. destruct vs as [|v vs].
      * by rewrite filter_cons_True by done.
      * simpl. intros Hlen. rewrite filter_cons_True by done. simpl.
        destruct (IH vs ltac:(lia)) as [IH1 IH2]. split; [|exact IH2].
        f_equal. exact IH1.
    + rewrite !filter_cons_False by congruence. apply IH.
Qed.

(** *** The loop of [update_var_params] *)

Lemma with_circuit_same self c : circuit self = Some c → with_circuit self c = self.
Proof. destruct self; simpl. by intros ->. Qed.

Lemma update_loop_app new_params l1 : ∀ l2 self,
  update_loop new_params (l1 ++ l2) self
  = match update_loop new_params l1 self with
    | (self', Ok _) => update_loop new_params l2 self'
    | (self', Raise e) => (self', Raise e)
    end.
Proof.
  induction l1 as [|i l1 IH]; intros l2 self; [done|]. simpl.
  destruct (update_step new_params self i) as [self'|e]; [apply IH|done].
Qed.

Lemma update_var_params_enough self c new_params :
  circuit self = Some c →
  n_var_params self ≤ length (_variational_gates c) →
  n_var_params self ≤ length new_params →
  update_var_params self new_params
  = (with_circuit self (assign c (take (n_var_params self) new_params)), Ok tt).
Proof.
  intros Hc Hgates Hparams. unfold update_var_params.
  pose proof (update_loop_assign self c new_params (n_var_params self) 0) as Hloop.
  rewrite take_0, assign_nil, (with_circuit_same _ _ Hc) in Hloop.
  apply Hloop; simpl; lia.
Qed.

Lemma update_var_params_too_short self c new_params :
  circuit self = Some c →
  length new_params ≤ length (_variational_gates c) →
  length new_params < n_var_params self →
  update_var_params self new_params
  = (with_circuit self (assign c new_params), Raise (IndexError "var_params")).
Proof.
  intros Hc Hgates Hshort. unfold update_var_params.
  replace (n_var_params self)
    with (length new_params + S (n_var_params self - S (length new_params))) by lia.
  rewrite seq_app, update_loop_app.
  pose proof (update_loop_assign self c new_params (length new_params) 0) as Hloop.
  rewrite take_0, assign_nil, (with_circuit_same _ _ Hc) in Hloop.
  rewrite Hloop by (simpl; lia). simpl. rewrite firstn_all.
  unfold update_step. by rewrite lookup_ge_None_2 by lia.
Qed.

Lemma variational_from_lookup c : ∀ start j position,
  variational_from start c !! j = Some position →
  start ≤ position
  ∧ ∃ g, c !! (position - start) = Some g ∧ is_variational g = true.
Proof.
  induction c as [|g c IH]; intros start j position; simpl; [done|].
  destruct (is_variational g) eqn:Hg.
  - destruct j as [|j]; simpl.
    + intros [= <-]. split; [lia|]. rewrite Nat.sub_diag. eauto.
    + intros (Hge & g' & Hg' & Hv)%IH. split; [lia|].
      replace (position - start) with (S (position - S start)) by lia. eauto.
  - intros (Hge & g' & Hg' & Hv)%IH. split; [lia|].
    replace (position - start) with (S (position - S start)) by lia. eauto.
Qed.

Lemma shape_alter (c : Circuit) v (p : nat) : shape <$> alter (set_parameter v) p c = shape <$> c.
Proof.
  revert p. induction c as [|g c IH]; intros [|p]; simpl; try done.
  f_equal. apply IH.
Qed.

Lemma fixed_gates_alter (c : Circuit) v (p : nat) g :
  c !! p = Some g → is_variational g = true →
  fixed_gates (alter (set_parameter v) p c) = fixed_gates c.
Proof.
  unfold fixed_gates. revert p. induction c as [|g0 c IH]; intros [|p]; simpl; try done.
  - intros [= ->] Hg. change (list_alter (set_parameter v) 0 (g :: c))
      with (set_parameter v g :: c).
    by rewrite !filter_cons_False by (simpl; congruence).
  - intros Hp Hg. specialize (IH p Hp Hg).
    change (list_alter (set_parameter v) (S p) (g0 :: c))
      with (g0 :: alter (set_parameter v) p c).
    destruct (is_variational g0) eqn:Hg0.
    + rewrite !filter_cons_False by congruence. exact IH.
    + rewrite !filter_cons_True by done. f_equal. exact IH.
Qed.

Lemma update_step_same new_params self i self' :
  update_step new_params self i = Ok self' → same_but_parameters self self'.
Proof.
  unfold update_step. destruct (new_params !! i) as [v|]; [simpl|done].
  destruct (circuit self) as [c|] eqn:Hc; [simpl|done].
  unfold assign_parameter. destruct (_variational_gates c !! i) as [p|] eqn:Hp; [simpl|done].
  intros [= <-]. unfold same_but_parameters. simpl. rewrite Hc. simpl.
  repeat split; try done.
  - unfold shapes. by rewrite shape_alter.
  - apply variational_from_lookup in Hp as (_ & g & Hg & Hv).
    rewrite Nat.sub_0_r in Hg. by rewrite (fixed_gates_alter _ _ _ _ Hg Hv).
Qed.

Lemma update_loop_same new_params : ∀ idxs self self' r,
  update_loop new_params idxs self = (self', r) → same_but_parameters self self'.
Proof.
  induction idxs as [|i idxs IH]; intros self self' r; simpl.
  - intros [= <- _]. by repeat split.
  - destruct (update_step new_params self i) as [self1|e] eqn:Hstep.
    + intros Hloop%IH. apply update_step_same in Hstep.
      unfold same_but_parameters in *.
      destruct Hstep as (? & ? & ? & ? & ? & ? & ? & ? & ?).
      destruct Hloop as (? & ? & ? & ? & ? & ? & ? & ? & ?).
      repeat split; congruence.
    + intros [= <- _]. by repeat split.
Qed.

(** *** [set_var_params] and [build_circuit] *)

Lemma set_var_params_cases self s v :
  (v ≠ PyNone ∧ v ≠ PyStr "ones" ∧ py_len v ≠ Some (n_var_params self)
   ∧ set_var_params self s v
     = (self, s, Raise (ValueError "Invalid number of parameters.")))
  ∨ ∃ w s', set_var_params self s v = (with_var_params self w, s', Ok w)
            ∧ py_len w = Some (n_var_params self)
            ∧ eq_ones w = false
            ∧ (v ≠ PyNone → s' = s)
            ∧ (v = PyNone → ∀ i, s' i = s (n_var_params self + i)).
Proof.
  unfold set_var_params. destruct v as [|str|l]; simpl.
  - right. eexists _, _. split; [done|]. simpl.
    rewrite length_fmap, length_seq. by repeat split.
  - destruct (bool_decide_reflect (str = "ones")) as [->|Hstr].
    + right. eexists _, _. split; [done|]. simpl. unfold ones.
      rewrite length_replicate. by repeat split.
    + destruct (decide _) as [Hlen|Hlen].
      * left. repeat split; [done|congruence|done].
      * right. eexists _, _. split; [done|]. simpl.
        rewrite bool_decide_false by done.
        split; [by destruct (decide (Some (String.length str) = Some (n_var_params self)))|].
        by repeat split.
  - destruct (decide _) as [Hlen|Hlen].
    + left. by repeat split.
    + right. eexists _, _. split; [done|]. simpl.
      split; [by destruct (decide (Some (length l) = Some (n_var_params self)))|].
      by repeat split.
Qed.

Lemma build_circuit_cases (get_reference_circuit : nat → nat → string → Circuit)
    self s v :
  let c := prepare_reference_state get_reference_circuit self
           ++ HEACircuit (n_qubits self) (n_layers self) in
  (v ≠ PyNone ∧ v ≠ PyStr "ones" ∧ py_len v ≠ Some (n_var_params self)
   ∧ build_circuit get_reference_circuit self s v
     = (self, s, Raise (ValueError "Invalid number of parameters.")))
  ∨ ∃ w s', build_circuit get_reference_circuit self s v
            = (with_circuit (with_var_params self w) c, s', Ok c)
            ∧ py_len w = Some (n_var_params self).
Proof.
  intros c. unfold build_circuit.
  destruct (set_var_params_cases self s v)
    as [(Hnone & Hones & Hlen & ->)|(w & s' & -> & Hlen & _)].
  - by left.
  - right. exists w, s'. split; [|done].
    assert ((if decide (size (prepare_reference_state get_reference_circuit
                                 (with_var_params (with_var_params self w) w)) ≠ 0)
             then prepare_reference_state get_reference_circuit
                    (with_var_params (with_var_params self w) w)
                  ++ HEACircuit (n_qubits (with_var_params (with_var_params self w) w))
                       (n_layers (with_var_params (with_var_params self w) w))
             else HEACircuit (n_qubits (with_var_params (with_var_params self w) w))
                    (n_layers (with_var_params (with_var_params self w) w))) = c) as ->; [|done].
    subst c. destruct (decide _) as [|Hsize]; [done|].
    change (prepare_reference_state get_reference_circuit
              (with_var_params (with_var_params self w) w))
      with (prepare_reference_state get_reference_circuit self) in *.
    destruct (prepare_reference_state get_reference_circuit self); [done|].
    exfalso. apply Hsize. done.
Qed.

Lemma built_variational_gates (ref : Circuit) n layers :
  Forall (λ g, is_variational g = false) ref →
  variational (ref ++ HEACircuit n layers) = variational (HEACircuit n layers)
  ∧ length (_variational_gates (ref ++ HEACircuit n layers)) = n * 3 * (layers + 1).
Proof.
  intros Href.
  assert (variational (ref ++ HEACircuit n layers) = variational (HEACircuit n layers))
    as Hv by (by rewrite variational_app, variational_none).
  split; [done|]. unfold _variational_gates.
  by rewrite variational_from_length, Hv, HEACircuit_variational.
Qed.

Lemma HEACircuit_gate_cases (n_qubits n_layers : nat) (g : Gate) :
  g ∈ HEACircuit n_qubits n_layers →
  target g < n_qubits
  ∧ (∀ c, control g = Some c → c < n_qubits ∧ c ≠ target g)
  ∧ ((is_variational g = true ∧ parameter g = Some 0%Q
      ∧ (name g = "RZ" ∨ name g = "RX") ∧ control g = None)
     ∨ (is_variational g = false ∧ parameter g = None ∧ name g = "CNOT")).
Proof.
  intros [Hg|[_ Hg]]%HEACircuit_elem.
  - apply EulerCircuit_elem in Hg as (q & Hq & [-> | ->]); simpl;
      (split; [done|]); (split; [done|]); left; auto.
  - apply EntanglerCircuit_elem in Hg as (c & -> & Hc). simpl.
    pose proof (Nat.Div0.mul_div_le n_qubits 2) as Hle.
    split; [lia|]. split; [|by right].
    intros c' [= <-]. lia.
Qed.

End HeaRefFacts.

(** ** Further properties of the ansatz *)

Section HeaExtras.
Import Hea HeaFacts HeaRef HeaRefFacts.

(** X9: the entangler is the chain of nearest-neighbour CNOTs over the
    first [2 * (n_qubits // 2)] qubits: it holds [CNOT c (c + 1)] exactly
    when [c + 1] lies below that bound, and nothing else; in all
    [n_qubits // 2 + (n_qubits // 2 - 1)] gates. *)
Theorem EntanglerCircuit_is_neighbour_chain (n_qubits : nat) :
  (∀ g, g ∈ EntanglerCircuit n_qubits
        ↔ ∃ c, g = CNOT c (c + 1) ∧ c + 1 < 2 * (n_qubits / 2))
  ∧ size (EntanglerCircuit n_qubits) = n_qubits / 2 + (n_qubits / 2 - 1).
Proof. split; [apply EntanglerCircuit_elem|apply EntanglerCircuit_size]. Qed.

(** X10: on a register with an odd number of qubits the ansatz never
    entangles the last qubit: no gate with a control acts on it, as target
    or as control, whatever the number of layers. *)
Theorem HEACircuit_odd_register_last_qubit_alone (n_qubits n_layers : nat) :
  Nat.Odd n_qubits →
  ∀ g c, g ∈ HEACircuit n_qubits n_layers → control g = Some c →
         target g < n_qubits - 1 ∧ c < n_qubits - 1.
Proof.
  intros [m ->] g c [Hg|[_ Hg]]%HEACircuit_elem Hc.
  - apply EulerCircuit_elem in Hg as (q & _ & [-> | ->]); done.
  - apply EntanglerCircuit_elem in Hg as (c' & -> & Hc'). simpl in Hc.
    injection Hc as <-. simpl.
    replace ((2 * m + 1) / 2) with m in Hc'; [lia|].
    apply (Nat.div_unique _ 2 m 1); lia.
Qed.

Lemma CNOT_2_3_in_HEACircuit_5 : CNOT 2 3 ∈ HEACircuit 5 2.
Proof. apply list_elem_of_In. vm_compute. tauto. Defined.

Lemma HEACircuit_odd_register_last_qubit_alone_witness :
  target (CNOT 2 3) < 5 - 1 ∧ 2 < 5 - 1.
Proof.
  apply (HEACircuit_odd_register_last_qubit_alone 5 2 ltac:(by exists 2)
           (CNOT 2 3) 2 CNOT_2_3_in_HEACircuit_5 eq_refl).
Defined.

(** X11: on an even register with a layer of entanglers every two
    neighbouring qubits are coupled by a CNOT of the ansatz. *)
Theorem HEACircuit_even_register_chain (n_qubits n_layers q : nat) :
  Nat.Even n_qubits → 0 < n_layers → q + 1 < n_qubits →
  CNOT q (q + 1) ∈ HEACircuit n_qubits n_layers.
Proof.
  intros [m ->] Hlayers Hq.
  rewrite HEACircuit_layers. apply elem_of_app. right.
  apply list_elem_of_bind. exists 0. split; [|apply elem_of_seq; lia].
  apply elem_of_app. left. apply EntanglerCircuit_elem. exists q. split; [done|].
  replace (2 * m / 2) with m; [lia|].
  apply (Nat.div_unique _ 2 m 0); lia.
Qed.

Lemma HEACircuit_even_register_chain_witness : CNOT 2 3 ∈ HEACircuit 4 1.
Proof.
  apply (HEACircuit_even_register_chain 4 1 2); [by exists 2|lia|lia].
Defined.


(** X13: every gate of the ansatz acts inside the register: targets and
    controls lie below [n_qubits], a control differs from its target, and
    the only gates are RZ and RX rotations with parameter 0.0 and CNOTs. *)
Theorem HEACircuit_within_register (n_qubits n_layers : nat) (g : Gate) :
  g ∈ HEACircuit n_qubits n_layers →
  target g < n_qubits
  ∧ (∀ c, control g = Some c → c < n_qubits ∧ c ≠ target g)
  ∧ ((is_variational g = true ∧ parameter g = Some 0%Q
      ∧ (name g = "RZ" ∨ name g = "RX") ∧ control g = None)
     ∨ (is_variational g = false ∧ parameter g = None ∧ name g = "CNOT")).
Proof. apply HEACircuit_gate_cases. Qed.

Lemma CNOT_2_3_in_HEACircuit : CNOT 2 3 ∈ HEACircuit 4 1.
Proof.
  rewrite HEACircuit_layers. apply elem_of_app. right.
  apply list_elem_of_bind. exists 0. split; [|apply elem_of_seq; lia].
  apply elem_of_app. left. apply EntanglerCircuit_elem.
  exists 2. split; [done|]. simpl. lia.
Defined.

Lemma HEACircuit_within_register_witness :
  target (CNOT 2 3) < 4
  ∧ (∀ c, control (CNOT 2 3) = Some c → c < 4 ∧ c ≠ target (CNOT 2 3))
  ∧ ((is_variational (CNOT 2 3) = true ∧ parameter (CNOT 2 3) = Some 0%Q
      ∧ (name (CNOT 2 3) = "RZ" ∨ name (CNOT 2 3) = "RX")
      ∧ control (CNOT 2 3) = None)
     ∨ (is_variational (CNOT 2 3) = false ∧ parameter (CNOT 2 3) = None
        ∧ name (CNOT 2 3) = "CNOT")).
Proof.
  apply (HEACircuit_within_register 4 1). exact CNOT_2_3_in_HEACircuit.
Defined.

Lemma x_reference_fixed so e m :
  Forall (λ g, is_variational g = false) (x_reference_circuit so e m).
Proof.
  unfold x_reference_circuit. apply Forall_fmap, Forall_forall. done.
Defined.

(** X14: [build_circuit] stores [var_params] in the object but does not
    apply them: the circuit it returns is the reference circuit followed by
    the ansatz, with the parameter of every variational gate still 0.0,
    whatever [var_params] was. *)
Theorem build_circuit_parameters_stay_zero
    (get_reference_circuit : nat → nat → string → Circuit)
    (self : HEA) (s : rng) (v : pyval) (self' : HEA) (s' : rng) (c : Circuit) :
  Forall (λ g, is_variational g = false)
    (prepare_reference_state get_reference_circuit self) →
  build_circuit get_reference_circuit self s v = (self', s', Ok c) →
  c = prepare_reference_state get_reference_circuit self
      ++ HEACircuit (n_qubits self) (n_layers self)
  ∧ circuit self' = Some c
  ∧ (∃ w, var_params self' = Some w ∧ py_len w = Some (n_var_params self))
  ∧ ∀ g, g ∈ c → is_variational g = true → parameter g = Some 0%Q.
Proof.
  intros Href Hbuild.
  destruct (build_circuit_cases get_reference_circuit self s v)
    as [(_ & _ & _ & Hraise)|(w & s1 & Hok & Hlen)]; [congruence|].
  rewrite Hok in Hbuild. injection Hbuild as <- _ <-.
  split; [done|]. split; [done|]. split; [by exists w|].
  intros g [Hg|Hg]%elem_of_app Hv.
  - rewrite Forall_forall in Href. specialize (Href g Hg). congruence.
  - apply HEACircuit_gate_cases in Hg as (_ & _ & [(_ & Hp & _)|(Hf & _)]);
      [done|congruence].
Qed.

Lemma build_circuit_parameters_stay_zero_witness :
  x_reference_circuit 2 1 "jw" ++ HEACircuit 2 1
  = prepare_reference_state x_reference_circuit demo_ansatz
    ++ HEACircuit (n_qubits demo_ansatz) (n_layers demo_ansatz)
  ∧ circuit built_ansatz = Some (x_reference_circuit 2 1 "jw" ++ HEACircuit 2 1)
  ∧ (∃ w, var_params built_ansatz = Some w
          ∧ py_len w = Some (n_var_params demo_ansatz))
  ∧ ∀ g, g ∈ x_reference_circuit 2 1 "jw" ++ HEACircuit 2 1 →
         is_variational g = true → parameter g = Some 0%Q.
Proof.
  apply (build_circuit_parameters_stay_zero x_reference_circuit demo_ansatz
           zero_stream (PyStr "ones") built_ansatz zero_stream
           (x_reference_circuit 2 1 "jw" ++ HEACircuit 2 1)
           (x_reference_fixed 2 1 "jw") eq_refl).
Defined.

(** X15: [build_circuit] raises exactly when [set_var_params] rejects its
    argument; the exception is that [ValueError], and the object (an
    earlier circuit and earlier parameters included) and the random
    generator are as they were. *)
Theorem build_circuit_raises_iff
    (get_reference_circuit : nat → nat → string → Circuit)
    (self : HEA) (s : rng) (v : pyval) (self' : HEA) (s' : rng)
    (r : result Circuit) :
  build_circuit get_reference_circuit self s v = (self', s', r) →
  ((∃ e, r = Raise e)
   ↔ v ≠ PyNone ∧ v ≠ PyStr "ones" ∧ py_len v ≠ Some (n_var_params self))
  ∧ (∀ e, r = Raise e →
          e = ValueError "Invalid number of parameters." ∧ self' = self ∧ s' = s).
Proof.
  intros Hbuild.
  destruct (build_circuit_cases get_reference_circuit self s v)
    as [(Hnone & Hones & Hlen & Hraise)|(w & s1 & Hok & Hlen)].
  - rewrite Hraise in Hbuild. injection Hbuild as <- <- <-. split.
    + split; [done|eauto].
    + by intros e [= <-].
  - rewrite Hok in Hbuild. injection Hbuild as <- <- <-. split.
    + split; [by intros [e [=]]|].
      intros (Hnone & Hones & Hlen').
      destruct (set_var_params_cases self s v)
        as [(_ & _ & _ & Hraise)|(w' & s2 & Hset & _)].
      * unfold build_circuit in Hok. by rewrite Hraise in Hok.
      * exfalso. revert Hset. unfold set_var_params.
        destruct v as [|str|l]; [done| |]; simpl.
        -- rewrite bool_decide_false by congruence.
           by rewrite decide_True by done.
        -- by rewrite decide_True by done.
    + by intros e [=].
Qed.

Lemma build_circuit_raises_iff_witness :
  ValueError "Invalid number of parameters." = ValueError "Invalid number of parameters."
  ∧ built_ansatz = built_ansatz ∧ zero_stream = zero_stream.
Proof.
  apply (build_circuit_raises_iff x_reference_circuit built_ansatz zero_stream
           (PySeq [1%Q; 2%Q]) built_ansatz zero_stream _ eq_refl).
  reflexivity.
Defined.

(** X16: on a built object, of two successive calls of [update_var_params]
    with enough parameters the second one wins: the object ends as if only
    the second call had been made. *)
Theorem update_var_params_last_wins
    (self : HEA) (c : Circuit) (first second : list Q) :
  circuit self = Some c →
  n_var_params self = length (_variational_gates c) →
  n_var_params self ≤ length first →
  n_var_params self ≤ length second →
  ∃ self1 self2,
    update_var_params self first = (self1, Ok tt)
    ∧ update_var_params self1 second = (self2, Ok tt)
    ∧ update_var_params self second = (self2, Ok tt).
Proof.
  intros Hc Hn Hfirst Hsecond.
  eexists _, _. split; [|split].
  - apply (update_var_params_enough self c); [done|lia|done].
  - rewrite (update_var_params_enough _ (assign c (take (n_var_params self) first)));
      [reflexivity|done| |done].
    simpl. unfold _variational_gates. rewrite variational_from_assign.
    fold (_variational_gates c). lia.
  - rewrite (update_var_params_enough self c) by (done || lia).
    simpl. rewrite assign_assign by (rewrite !length_take; lia).
    done.
Qed.

Lemma update_var_params_last_wins_witness :
  ∃ self1 self2,
    update_var_params built_ansatz (ones 12) = (self1, Ok tt)
    ∧ update_var_params self1 halves = (self2, Ok tt)
    ∧ update_var_params built_ansatz halves = (self2, Ok tt).
Proof.
  apply (update_var_params_last_wins built_ansatz
           (x_reference_circuit 2 1 "jw" ++ HEACircuit 2 1) (ones 12) halves);
    [reflexivity|reflexivity|simpl; lia|simpl; lia].
Defined.

(** X17: whatever it is handed and however it ends, [update_var_params]
    changes nothing but parameters of variational gates: the attributes of
    the object other than the circuit (the stored [var_params] among them)
    stay, the circuit keeps its gates' names, targets, controls and flags,
    and its non-variational gates are untouched. *)
Theorem update_var_params_only_parameters
    (self : HEA) (new_params : list Q) (self' : HEA) (r : result unit) :
  update_var_params self new_params = (self', r) →
  same_but_parameters self self'.
Proof. apply update_loop_same. Qed.

Lemma update_var_params_only_parameters_witness :
  same_but_parameters built_ansatz (update_var_params built_ansatz halves).1.
Proof.
  apply (update_var_params_only_parameters built_ansatz halves _
           (update_var_params built_ansatz halves).2).
  by destruct (update_var_params built_ansatz halves).
Defined.

(** X18: handed fewer values than [n_var_params], [update_var_params]
    raises [IndexError], but only after it has written every value it was
    given: the first [len(var_params)] variational gates carry the new
    values, the others their old ones. *)
Theorem update_var_params_short_writes_prefix
    (self : HEA) (c : Circuit) (new_params : list Q) :
  circuit self = Some c →
  n_var_params self = length (_variational_gates c) →
  length new_params < n_var_params self →
  update_var_params self new_params
  = (with_circuit self (assign c new_params), Raise (IndexError "var_params"))
  ∧ parameter <$> take (length new_params) (variational (assign c new_params))
    = Some <$> new_params
  ∧ drop (length new_params) (variational (assign c new_params))
    = drop (length new_params) (variational c).
Proof.
  intros Hc Hn Hshort. split.
  - apply update_var_params_too_short; [done|lia|done].
  - apply assign_prefix. rewrite <- (variational_from_length 0).
    fold (_variational_gates c). lia.
Qed.

Lemma update_var_params_short_writes_prefix_witness :
  update_var_params built_ansatz [(1 # 3)%Q; (2 # 3)%Q]
  = (with_circuit built_ansatz
       (assign (x_reference_circuit 2 1 "jw" ++ HEACircuit 2 1) [(1 # 3)%Q; (2 # 3)%Q]),
     Raise (IndexError "var_params")).
Proof.
  apply (update_var_params_short_writes_prefix built_ansatz
           (x_reference_circuit 2 1 "jw" ++ HEACircuit 2 1) [(1 # 3)%Q; (2 # 3)%Q]);
    [reflexivity|reflexivity|simpl; lia].
Defined.

(** X19: before [build_circuit] the object has no circuit, and
    [update_var_params] leaves it alone: with no parameters to write it
    returns; otherwise it raises at the first pass, [IndexError] if
    [var_params] is empty (the right-hand side is evaluated first) and
    [AttributeError] if not. *)
Theorem update_var_params_before_build (self : HEA) (new_params : list Q) :
  circuit self = None →
  update_var_params self new_params
  = (self,
     if decide (n_var_params self = 0) then Ok tt
     else match new_params with
          | [] => Raise (IndexError "var_params")
          | _ :: _ => Raise (AttributeError "_variational_gates")
          end).
Proof.
  intros Hc. unfold update_var_params.
  destruct (n_var_params self) as [|n]; [done|].
  rewrite decide_False by done. simpl. unfold update_step.
  destruct new_params as [|v rest]; [done|]. simpl. by rewrite Hc.
Qed.

Lemma update_var_params_before_build_witness :
  update_var_params demo_ansatz halves
  = (demo_ansatz, Raise (AttributeError "_variational_gates")).
Proof. apply (update_var_params_before_build demo_ansatz halves). reflexivity. Defined.

(** X20: what [set_var_params] returns it accepts again: a second call on
    the returned value changes neither the object nor the generator and
    returns the same value; and only the call with [None] draws from the
    random generator. *)
Theorem set_var_params_accepts_its_result
    (self : HEA) (s : rng) (v : pyval) (self' : HEA) (s' : rng) (w : pyval) :
  set_var_params self s v = (self', s', Ok w) →
  set_var_params self' s' w = (self', s', Ok w)
  ∧ (v ≠ PyNone → s' = s).
Proof.
  intros Hset.
  destruct (set_var_params_cases self s v)
    as [(_ & _ & _ & Hraise)|(w' & s1 & Hok & Hlen & Hones & Hs & _)]; [congruence|].
  rewrite Hok in Hset. injection Hset as <- <- <-. split; [|done].
  unfold set_var_params. destruct w' as [|str|l]; [done| |]; simpl in *.
  - rewrite Hones. by rewrite decide_False by (by intros []).
  - by rewrite decide_False by (by intros []).
Qed.

Lemma set_var_params_accepts_its_result_witness :
  set_var_params (with_var_params demo_ansatz (PySeq (ones 12))) zero_stream
    (PySeq (ones 12))
  = (with_var_params demo_ansatz (PySeq (ones 12)), zero_stream, Ok (PySeq (ones 12)))
  ∧ (PyStr "ones" ≠ PyNone → zero_stream = zero_stream).
Proof.
  apply (set_var_params_accepts_its_result demo_ansatz zero_stream (PyStr "ones")).
  reflexivity.
Defined.

(** X21: where each parameter lands.  After [build_circuit] and an
    [update_var_params] with [n_var_params] values, the [k]-th variational
    gate of the circuit is the rotation on qubit [(k // 3) % n_qubits],
    about Z for [k % 3] 0 or 2 and about X for [k % 3 == 1], with parameter
    [var_params[k]]; the layer is [k // (3 * n_qubits)]. *)
Theorem update_var_params_layout
    (get_reference_circuit : nat → nat → string → Circuit)
    (self : HEA) (s : rng) (v : pyval) (self' : HEA) (s' : rng) (c : Circuit)
    (new_params : list Q) :
  Forall (λ g, is_variational g = false)
    (prepare_reference_state get_reference_circuit self) →
  n_var_params self = n_qubits self * 3 * (n_layers self + 1) →
  build_circuit get_reference_circuit self s v = (self', s', Ok c) →
  length new_params = n_var_params self →
  ∃ self'' c',
    update_var_params self' new_params = (self'', Ok tt)
    ∧ circuit self'' = Some c'
    ∧ ∀ k value, new_params !! k = Some value →
        variational c' !! k
        = Some (set_parameter value
                  (rotation (axis (k mod 3)) ((k / 3) mod n_qubits self))).
Proof.
  intros Href Hn Hbuild Hlen.
  destruct (build_circuit_cases get_reference_circuit self s v)
    as [(_ & _ & _ & Hraise)|(w & s1 & Hok & _)]; [congruence|].
  rewrite Hok in Hbuild. injection Hbuild as <- _ <-.
  set (ref := prepare_reference_state get_reference_circuit self) in *.
  destruct (built_variational_gates ref (n_qubits self) (n_layers self) Href)
    as [Hvar Hcount].
  eexists _, _. split.
  { apply update_var_params_enough; simpl; [done| |]; lia. }
  split; [reflexivity|].
  - intros k value Hk. simpl. rewrite <- Hlen, firstn_all.
    rewrite variational_assign_zip.
    2:{ rewrite <- (variational_from_length 0).
        fold (_variational_gates (ref ++ HEACircuit (n_qubits self) (n_layers self))).
        lia. }
    rewrite Hvar, lookup_zip_with, Hk. simpl.
    rewrite HEACircuit_variational_lookup; [done|].
    apply lookup_lt_Some in Hk. lia.
Qed.

Lemma update_var_params_layout_witness :
  ∃ self'' c',
    update_var_params built_ansatz halves = (self'', Ok tt)
    ∧ circuit self'' = Some c'
    ∧ ∀ k value, halves !! k = Some value →
        variational c' !! k
        = Some (set_parameter value (rotation (axis (k mod 3)) ((k / 3) mod 2))).
Proof.
  apply (update_var_params_layout x_reference_circuit demo_ansatz zero_stream
           (PyStr "ones") built_ansatz zero_stream
           (x_reference_circuit 2 1 "jw" ++ HEACircuit 2 1) halves
           (x_reference_fixed 2 1 "jw") eq_refl eq_refl eq_refl).
Defined.

End HeaExtras.

(** ** Facts about [ladder_gates] *)

Module LadderFacts.
Import Hea Ladder.

Lemma list_mul_nonpos {A : Type} (l : list A) n : (n ≤ 0)%Z → list_mul l n = [].
Proof. intros Hn. unfold list_mul. by replace (Z.to_nat n) with 0 by lia. Qed.

Lemma list_mul_add {A : Type} (l : list A) a b :
  (0 ≤ a)%Z → (0 ≤ b)%Z → list_mul l (a + b) = list_mul l a ++ list_mul l b.
Proof.
  intros Ha Hb. unfold list_mul. rewrite Z2Nat.inj_add by done.
  by rewrite replicate_add, join_app.
Qed.

Lemma list_mul_elem {A : Type} (l : list A) n x : x ∈ list_mul l n → x ∈ l.
Proof.
  unfold list_mul. induction (Z.to_nat n) as [|k IH]; simpl.
  - by intros ?%elem_of_nil.
  - intros [?|?]%elem_of_app; auto.
Qed.

Lemma list_mul_length {A : Type} (l : list A) n :
  length (list_mul l n) = Z.to_nat n * length l.
Proof.
  unfold list_mul. induction (Z.to_nat n) as [|k IH]; [done|]. simpl.
  rewrite length_app, IH. lia.
Qed.

Lemma count_name_app nm (l1 l2 : list Gate) :
  count_name nm (l1 ++ l2) = count_name nm l1 + count_name nm l2.
Proof. unfold count_name. by rewrite filter_app, length_app. Qed.

Lemma count_name_list_mul nm (l : list Gate) n :
  count_name nm (list_mul l n) = Z.to_nat n * count_name nm l.
Proof.
  unfold list_mul. induction (Z.to_nat n) as [|k IH]; [done|]. simpl.
  rewrite count_name_app, IH. lia.
Qed.

Lemma count_name_fmap_all {A : Type} nm (f : A → Gate) (l : list A) :
  (∀ x, name (f x) = nm) → count_name nm (f <$> l) = length l.
Proof.
  intros Hf. unfold count_name. induction l as [|x l IH]; [done|].
  rewrite fmap_cons, filter_cons_True by apply Hf. simpl. by rewrite IH.
Qed.

Lemma count_name_fmap_none {A : Type} nm (f : A → Gate) (l : list A) :
  (∀ x, name (f x) ≠ nm) → count_name nm (f <$> l) = 0.
Proof.
  intros Hf. unfold count_name. induction l as [|x l IH]; [done|].
  rewrite fmap_cons, filter_cons_False by apply Hf. done.
Qed.

Lemma count_name_reverse nm (l : list Gate) :
  count_name nm (reverse l) = count_name nm l.
Proof.
  induction l as [|g l IH]; [done|].
  rewrite reverse_cons, count_name_app, IH.
  change (g :: l) with ([g] ++ l). rewrite count_name_app. lia.
Qed.

Lemma cnot_ladder_elem n g :
  g ∈ cnot_ladder n ↔ ∃ i, g = CNOT i (i + 1) ∧ i + 1 < n.
Proof.
  unfold cnot_ladder. rewrite list_elem_of_fmap. split.
  - intros (i & -> & Hi%elem_of_seq). exists i. split; [done|lia].
  - intros (i & -> & Hi). exists i. split; [done|]. apply elem_of_seq. lia.
Qed.

Lemma ladder_gates_elem n theta r g :
  g ∈ ladder_gates n theta r →
  (∃ i, g = Hadamard i ∧ i < n)
  ∨ (∃ i, g = CNOT i (i + 1) ∧ i + 1 < n)
  ∨ g = RY (n - 1) theta.
Proof.
  unfold ladder_gates. intros Hg%list_mul_elem.
  rewrite !elem_of_app, elem_of_reverse, list_elem_of_singleton in Hg.
  destruct Hg as [[[Hg|Hg]|Hg]|Hg].
  - apply list_elem_of_fmap in Hg as (i & -> & Hi%elem_of_seq).
    left. exists i. split; [done|lia].
  - right. left. by apply cnot_ladder_elem.
  - by right; right.
  - right. left. by apply cnot_ladder_elem.
Qed.

End LadderFacts.

(** ** Properties of [ladder_gates] *)

Section LadderExtras.
Import Hea Ladder LadderFacts.

(** X22: the gate census of the ladder circuit on at least one qubit and
    [n_repetitions] repetitions: [n_qubits] Hadamards, [2 * (n_qubits - 1)]
    CNOTs and one RY per repetition, [3 * n_qubits - 1] gates per
    repetition in all; a negative [n_repetitions] counts as none. *)
Theorem ladder_gates_census (n_qubits : nat) (theta : Q) (n_repetitions : Z) :
  1 ≤ n_qubits →
  let r := Z.to_nat n_repetitions in
  length (ladder_gates n_qubits theta n_repetitions) = r * (3 * n_qubits - 1)
  ∧ count_name "H" (ladder_gates n_qubits theta n_repetitions) = r * n_qubits
  ∧ count_name "CNOT" (ladder_gates n_qubits theta n_repetitions)
    = r * (2 * (n_qubits - 1))
  ∧ count_name "RY" (ladder_gates n_qubits theta n_repetitions) = r.
Proof.
  intros Hn r. unfold ladder_gates, cnot_ladder.
  rewrite list_mul_length, !count_name_list_mul. fold r.
  rewrite !length_app, length_reverse, !length_fmap, !length_seq.
  rewrite !count_name_app, !count_name_reverse.
  rewrite (count_name_fmap_all "H" Hadamard) by done.
  rewrite (count_name_fmap_none "H" (λ i, CNOT i (i + 1))) by done.
  rewrite (count_name_fmap_none "CNOT" Hadamard) by done.
  rewrite (count_name_fmap_all "CNOT" (λ i, CNOT i (i + 1))) by done.
  rewrite (count_name_fmap_none "RY" Hadamard) by done.
  rewrite (count_name_fmap_none "RY" (λ i, CNOT i (i + 1))) by done.
  rewrite !length_seq.
  change (length [RY (n_qubits - 1) theta]) with 1.
  change (count_name "H" [RY (n_qubits - 1) theta]) with 0.
  change (count_name "CNOT" [RY (n_qubits - 1) theta]) with 0.
  change (count_name "RY" [RY (n_qubits - 1) theta]) with 1.
  repeat split; f_equal; lia.
Qed.

Lemma ladder_gates_census_witness :
  length (ladder_gates 5 (21 # 10) 3) = 3 * (3 * 5 - 1)
  ∧ count_name "H" (ladder_gates 5 (21 # 10) 3) = 3 * 5
  ∧ count_name "CNOT" (ladder_gates 5 (21 # 10) 3) = 3 * (2 * (5 - 1))
  ∧ count_name "RY" (ladder_gates 5 (21 # 10) 3) = 3.
Proof. apply (ladder_gates_census 5 (21 # 10) 3). lia. Defined.

(** X23: every gate of the ladder circuit acts inside the register: a
    Hadamard on a qubit below [n_qubits], a CNOT from a qubit to its upper
    neighbour, or the RY on the last qubit with parameter [theta]; none is
    variational. *)
Theorem ladder_gates_within_register
    (n_qubits : nat) (theta : Q) (n_repetitions : Z) (g : Gate) :
  1 ≤ n_qubits →
  g ∈ ladder_gates n_qubits theta n_repetitions →
  target g < n_qubits
  ∧ is_variational g = false
  ∧ ((name g = "H" ∧ control g = None ∧ parameter g = None)
     ∨ (name g = "CNOT" ∧ (∃ c, control g = Some c ∧ target g = c + 1)
        ∧ parameter g = None)
     ∨ (name g = "RY" ∧ control g = None ∧ target g = n_qubits - 1
        ∧ parameter g = Some theta)).
Proof.
  intros Hn [(i & -> & Hi)|[(i & -> & Hi)| ->]]%ladder_gates_elem; simpl.
  - split; [done|]. split; [done|]. by left.
  - split; [lia|]. split; [done|]. right. left. split; [done|].
    split; [by exists i|done].
  - split; [lia|]. split; [done|]. by right; right.
Qed.

Lemma RY_in_ladder_gates : RY 4 (21 # 10) ∈ ladder_gates 5 (21 # 10) 3.
Proof. apply list_elem_of_In. vm_compute. tauto. Defined.

Lemma ladder_gates_within_register_witness :
  target (RY 4 (21 # 10)) < 5 ∧ is_variational (RY 4 (21 # 10)) = false.
Proof.
  destruct (ladder_gates_within_register 5 (21 # 10) 3 (RY 4 (21 # 10))
              ltac:(lia) RY_in_ladder_gates) as (Ht & Hv & _).
  by split.
Defined.

(** X24: repetitions add up: for non-negative counts the circuit of
    [a + b] repetitions is the circuit of [a] followed by that of [b]; a
    count of zero or below gives no gate at all. *)
Theorem ladder_gates_repetitions_add (n_qubits : nat) (theta : Q) (a b : Z) :
  1 ≤ n_qubits → (0 ≤ a)%Z → (0 ≤ b)%Z →
  ladder_gates n_qubits theta (a + b)
  = ladder_gates n_qubits theta a ++ ladder_gates n_qubits theta b.
Proof. intros _ Ha Hb. unfold ladder_gates. by apply list_mul_add. Qed.

Lemma ladder_gates_repetitions_add_witness :
  ladder_gates 5 (21 # 10) (1 + 2)
  = ladder_gates 5 (21 # 10) 1 ++ ladder_gates 5 (21 # 10) 2.
Proof. apply (ladder_gates_repetitions_add 5 (21 # 10) 1 2); lia. Defined.

(** X25: with no repetition asked for, or a negative number of them, the
    function returns the empty list. *)
Theorem ladder_gates_no_repetition (n_qubits : nat) (theta : Q) (n_repetitions : Z) :
  1 ≤ n_qubits → (n_repetitions ≤ 0)%Z →
  ladder_gates n_qubits theta n_repetitions = [].
Proof. intros _ Hn. unfold ladder_gates. by apply list_mul_nonpos. Qed.

Lemma ladder_gates_no_repetition_witness : ladder_gates 5 (21 # 10) (-2) = [].
Proof. apply (ladder_gates_no_repetition 5 (21 # 10) (-2)); lia. Defined.

(** X26: one repetition undoes its own ladder: after the Hadamard layer the
    gates read the same backwards as forwards, the RY in the middle. *)
Theorem ladder_gates_palindrome (n_qubits : nat) (theta : Q) :
  1 ≤ n_qubits →
  reverse (drop n_qubits (ladder_gates n_qubits theta 1))
  = drop n_qubits (ladder_gates n_qubits theta 1)
  ∧ take n_qubits (ladder_gates n_qubits theta 1) = Hadamard <$> seq 0 n_qubits
  ∧ drop n_qubits (ladder_gates n_qubits theta 1) !! (n_qubits - 1)
    = Some (RY (n_qubits - 1) theta).
Proof.
  intros Hn. unfold ladder_gates, list_mul. simpl. rewrite app_nil_r.
  set (hs := Hadamard <$> seq 0 n_qubits).
  assert (length hs = n_qubits) as Hlen by (unfold hs; by rewrite length_fmap, length_seq).
  rewrite <- !app_assoc.
  rewrite (drop_app_length' hs) by done. rewrite (take_app_length' hs) by done.
  split; [|split; [done|]].
  - rewrite !reverse_app, reverse_involutive. simpl. by rewrite <- app_assoc.
  - assert (length (cnot_ladder n_qubits) = n_qubits - 1) as Hl
      by (unfold cnot_ladder; by rewrite length_fmap, length_seq).
    rewrite lookup_app_r by lia. by rewrite Hl, Nat.sub_diag.
Qed.

Lemma ladder_gates_palindrome_witness :
  reverse (drop 5 (ladder_gates 5 (21 # 10) 1)) = drop 5 (ladder_gates 5 (21 # 10) 1)
  ∧ take 5 (ladder_gates 5 (21 # 10) 1) = Hadamard <$> seq 0 5
  ∧ drop 5 (ladder_gates 5 (21 # 10) 1) !! (5 - 1) = Some (RY (5 - 1) (21 # 10)).
Proof. apply (ladder_gates_palindrome 5 (21 # 10)). lia. Defined.

End LadderExtras.
